(** * keras-ocr detection: normalisation, kernel, target synthesis, box extraction

    A shallow embedding of [keras_ocr/detection.py].

    Numeric conventions used throughout:
    - [uint8] and [int32] array elements are integers of [Z];
    - [float32] / [float64] array elements are IEEE-754 values of
      [spec_float], with the operations of [SpecFloat] instantiated at
      precision 24 / 53 (round to nearest, ties to even);
    - the corners of a box are points with rational coordinates, the
      numbers their [float32] coordinates denote;
    - [np.exp], which the Gaussian kernel needs and IEEE-754 does not
      define, is a parameter of the kernel's model;
    - the OpenCV routines the module calls are an interface ([Class]),
      their documented contract being the only thing the proofs rely on;
      a reference implementation of it serves to evaluate the functions on
      concrete inputs;
    - the further functions of the module ([map_to_rgb], [drawBoxes],
      [copyStateDict], [load_torch_weights], [Detector.detect]) follow the
      main ones; what they call in Keras, PyTorch and OpenCV is a
      parameter of their model. *)

From Stdlib Require Import String Ascii ZArith List Bool Lia.
From Stdlib Require Import Floats.SpecFloat.
From Stdlib Require Import QArith Qabs Qminmax Qpower Qround.
From Stdlib Require Import Reals Qreals Lqa Lra.
Import ListNotations.

Local Open Scope Z_scope.

(* ================================================================= *)
(** ** IEEE-754 helpers: binary32 and binary64 *)

Module Float.

Definition prec32 : Z := 24.
Definition emax32 : Z := 128.
Definition prec64 : Z := 53.
Definition emax64 : Z := 1024.

(** Integer to float ([astype('float32')] on an integer array, or a Python
    [int] operand promoted to [float64]). *)
Definition of_Z32 (z : Z) : spec_float := binary_normalize prec32 emax32 z 0 false.
Definition of_Z64 (z : Z) : spec_float := binary_normalize prec64 emax64 z 0 false.

(** Width conversions.  Widening is exact; narrowing rounds. *)
Definition to_f32 (x : spec_float) : spec_float :=
  match x with
  | S754_finite s m e => binary_round prec32 emax32 s m e
  | _ => x
  end.

Definition to_f64 (x : spec_float) : spec_float :=
  match x with
  | S754_finite s m e => binary_round prec64 emax64 s m e
  | _ => x
  end.

Definition add64 := SFadd prec64 emax64.
Definition sub64 := SFsub prec64 emax64.
Definition mul64 := SFmul prec64 emax64.
Definition div64 := SFdiv prec64 emax64.
Definition sqrt64 := SFsqrt prec64 emax64.
Definition add32 := SFadd prec32 emax32.
Definition sub32 := SFsub prec32 emax32.
Definition mul32 := SFmul prec32 emax32.
Definition div32 := SFdiv prec32 emax32.
Definition sqrt32 := SFsqrt prec32 emax32.

(** A decimal literal [n / 10^k] of the source text: the nearest double,
    which correctly rounded division of two exact doubles delivers. *)
Definition literal64 (n : Z) (pow10 : Z) : spec_float :=
  div64 (of_Z64 n) (of_Z64 pow10).

Definition is_nan (x : spec_float) : bool :=
  match x with S754_nan => true | _ => false end.

(** [np.maximum] / [np.minimum] on scalars: NaN propagates. *)
Definition maximum (x y : spec_float) : spec_float :=
  if is_nan x then x else if is_nan y then y
  else if SFltb x y then y else x.

Definition minimum (x y : spec_float) : spec_float :=
  if is_nan x then x else if is_nan y then y
  else if SFltb y x then y else x.

(** [ndarray.clip(lo, hi)] element-wise: [minimum(maximum(x, lo), hi)]. *)
Definition clip (lo hi x : spec_float) : spec_float :=
  minimum (maximum x lo) hi.

(** Truncation toward zero: the C cast behind [astype('uint8')] for a
    value already inside the target range.  NaN and the infinities have no
    defined image; they are sent to 0 here. *)
Definition trunc (x : spec_float) : Z :=
  match x with
  | S754_finite s m e =>
      let a := match e with
               | Z0 => Zpos m
               | Zpos p => Zpos m * 2 ^ e
               | Zneg p => Zpos m / 2 ^ (Zpos p)
               end in
      if s then - a else a
  | _ => 0
  end.

(** [astype('uint8')]: truncate, then wrap modulo 256. *)
Definition to_u8 (x : spec_float) : Z := (trunc x) mod 256.

(** Truthiness of a float ([np.logical_and] operands): non-zero. *)
Definition nonzero (x : spec_float) : bool :=
  match x with S754_zero _ => false | _ => true end.

(** The rational number a finite value denotes. *)
Definition value (x : spec_float) : Q :=
  match x with
  | S754_finite s m e =>
      let v := (inject_Z (Zpos m) * Qpower 2 e)%Q in
      if s then Qopp v else v
  | _ => 0%Q
  end.

Definition is_finite (x : spec_float) : bool :=
  match x with
  | S754_zero _ | S754_finite _ _ _ => true
  | _ => false
  end.

(** A finite value in the closed interval [0, 1]. *)
Definition in_unit_interval (x : spec_float) : Prop :=
  is_finite x = true /\ (0 <= value x <= 1)%Q.

(** An integer as the operand [z * 2^0], not normalised. *)
Definition exact (z : Z) : spec_float :=
  match z with
  | Z0 => S754_zero false
  | Zpos p => S754_finite false p 0
  | Zneg p => S754_finite true p 0
  end.

(** The binary32 / binary64 value nearest to a rational number, ties to
    even: the correctly rounded quotient of its numerator by its
    denominator.  On a rational that a float denotes this is that float,
    so it is the inverse of [value]. *)
Definition of_Q32 (q : Q) : spec_float :=
  SFdiv prec32 emax32 (exact (Qnum q)) (exact (Zpos (Qden q))).

Definition of_Q64 (q : Q) : spec_float :=
  SFdiv prec64 emax64 (exact (Qnum q)) (exact (Zpos (Qden q))).

End Float.

(* ================================================================= *)
(** ** Ranges of binary32 values

    Predicates on the representation [m * 2^e], used to follow a value
    through the rounding of [SpecFloat]. *)

Module FloatRange.

(** The mantissa of a shift record lies in [0, B). *)
Definition below (B : Z) (mrs : shr_record) : Prop := 0 <= shr_m mrs < B.

(** A non-zero bit was shifted out. *)
Definition inexact (mrs : shr_record) : bool := shr_r mrs || shr_s mrs.

(** The mantissa lies in [0, B], and strictly below [B] when a non-zero
    bit was shifted out. *)
Definition at_most (B : Z) (mrs : shr_record) : Prop :=
  0 <= shr_m mrs <= B /\ (inexact mrs = true -> shr_m mrs < B).

(** A sum of non-negative terms: zero, a positive finite number with a
    mantissa of at most 24 bits, or plus infinity. *)
Definition accumulated (x : spec_float) : Prop :=
  x = S754_zero false \/ x = S754_infinity false \/
  exists m e, x = S754_finite false m e /\ Zpos m < 2 ^ 24.

(** A value [m * 2^e] in [0, 255]. *)
Definition clipped (x : spec_float) : Prop :=
  x = S754_zero false \/
  exists m e, x = S754_finite false m e /\ e <= -16 /\ Zpos m <= 255 * 2 ^ (- e).

(** A value [m * 2^e] in [0, 1]. *)
Definition unit_result (x : spec_float) : Prop :=
  x = S754_zero false \/
  exists m e, x = S754_finite false m e /\ e <= 0 /\ Zpos m <= 2 ^ (- e).

(** A finite value whose mantissa has at most 53 bits. *)
Definition rounded64 (x : spec_float) : Prop :=
  match x with
  | S754_finite _ m _ => Zpos m < 2 ^ 53
  | _ => True
  end.

(** The float32 values 0.0 and 255.0. *)
Definition zero32 : spec_float := S754_zero false.
Definition top32 : spec_float := S754_finite false 16711680 (-16).

End FloatRange.

(* ================================================================= *)
(** ** Python exceptions and the error monad *)

Inductive exn : Type :=
| AssertionError (msg : string)
| IndexError
| ValueError
| OverflowError
| ZeroDivisionError
| TypeError.

Inductive result (A : Type) : Type :=
| Ok (a : A)
| Raise (e : exn).

Arguments Ok {A} a.
Arguments Raise {A} e.

Definition bind {A B} (m : result A) (k : A -> result B) : result B :=
  match m with
  | Ok a => k a
  | Raise e => Raise e
  end.

Declare Scope result_scope.
Delimit Scope result_scope with result.
Notation "x <- m ;; k" := (bind m (fun x => k))
  (at level 61, m at next level, right associativity) : result_scope.
Notation "' p <- m ;; k" := (bind m (fun x => match x with p => k end))
  (at level 61, p pattern, m at next level, right associativity) : result_scope.

(** A result that is a value or the [ValueError] exception. *)
Definition ok_or_value_error {A} (r : result A) : Prop :=
  (exists a, r = Ok a) \/ r = Raise ValueError.

(** [assert cond, msg] *)
Definition assert (cond : bool) (msg : string) : result unit :=
  if cond then Ok tt else Raise (AssertionError msg).

(** [l[i]] on a Python sequence, for a non-negative index. *)
Definition getitem {A} (l : list A) (i : nat) : result A :=
  match nth_error l i with
  | Some a => Ok a
  | None => Raise IndexError
  end.

(* ================================================================= *)
(** ** Two-dimensional arrays *)

(** Row-major: a list of rows. *)
Definition matrix (A : Type) : Type := list (list A).

Definition matrix_map {A B} (f : A -> B) (m : matrix A) : matrix B :=
  map (map f) m.

Fixpoint zip_with {A B C} (f : A -> B -> C) (l : list A) (l' : list B) : list C :=
  match l, l' with
  | a :: l, b :: l' => f a b :: zip_with f l l'
  | _, _ => []
  end.

Definition matrix_map2 {A B C} (f : A -> B -> C) (m : matrix A) (m' : matrix B) : matrix C :=
  zip_with (zip_with f) m m'.

Definition matrix_all {A} (P : A -> Prop) (m : matrix A) : Prop :=
  Forall (Forall P) m.

(** [a.shape] of a 2-D array: (rows, columns). *)
Definition shape {A} (m : matrix A) : nat * nat :=
  (length m, length (hd [] m)).

(** An array of [h] rows of [w] elements. *)
Definition has_shape {A} (h w : nat) (m : matrix A) : Prop :=
  length m = h /\ Forall (fun row => length row = w) m.

(** Two arrays of one and the same shape. *)
Definition same_shape {A B} (m : matrix A) (m' : matrix B) : bool :=
  Nat.eqb (length m) (length m') &&
  forallb (fun rr => Nat.eqb (length (fst rr)) (length (snd rr))) (combine m m').

(** [np.zeros((h, w))] *)
Definition zeros {A} (zero : A) (h w : nat) : matrix A :=
  repeat (repeat zero w) h.

(* ================================================================= *)
(** ** Images *)

(** One pixel: the three channels, in R, G, B order. *)
Definition rgb (A : Type) : Type := (A * A * A)%type.

Definition rgb_map2 {A B C} (f : A -> B -> C) (p : rgb A) (q : rgb B) : rgb C :=
  let '(r1, g1, b1) := p in
  let '(r2, g2, b2) := q in
  (f r1 r2, f g1 g2, f b1 b2).

Definition rgb_map {A B} (f : A -> B) (p : rgb A) : rgb B :=
  let '(r, g, b) := p in (f r, f g, f b).

Definition rgb_all {A} (P : A -> Prop) (p : rgb A) : Prop :=
  let '(r, g, b) := p in P r /\ P g /\ P b.

Definition rgb_all2 {A B} (P : A -> B -> Prop) (p : rgb A) (q : rgb B) : Prop :=
  let '(r1, g1, b1) := p in
  let '(r2, g2, b2) := q in
  P r1 r2 /\ P g1 g2 /\ P b1 b2.

(** A height x width x 3 array, row-major, channel-last. *)
Definition image (A : Type) : Type := list (list (rgb A)).

Definition image_map {A B} (f : rgb A -> rgb B) (im : image A) : image B :=
  map (map f) im.

Definition image_all {A} (P : A -> Prop) (im : image A) : Prop :=
  Forall (Forall (rgb_all P)) im.

Definition image_all2 {A B} (P : A -> B -> Prop) (im : image A) (im' : image B) : Prop :=
  Forall2 (Forall2 (rgb_all2 P)) im im'.

Definition valid_u8 (v : Z) : Prop := 0 <= v <= 255.

(* ================================================================= *)
(** ** [compute_input] and [invert_input] *)

Module Normalise.
Import Float.

(** [mean = np.array([0.485, 0.456, 0.406])] *)
Definition mean : rgb spec_float :=
  (literal64 485 1000, literal64 456 1000, literal64 406 1000).

(** [variance = np.array([0.229, 0.224, 0.225])] *)
Definition variance : rgb spec_float :=
  (literal64 229 1000, literal64 224 1000, literal64 225 1000).

(** [mean * 255], [variance * 255]: float64 arrays. *)
Definition mean255 : rgb spec_float := rgb_map (fun m => mul64 m (of_Z64 255)) mean.
Definition variance255 : rgb spec_float := rgb_map (fun m => mul64 m (of_Z64 255)) variance.

(** An in-place operation [x op= y] on a float32 array [x] with a float64
    operand: the loop runs in float64 and the result is cast back. *)
Definition inplace32 (op : spec_float -> spec_float -> spec_float)
           (x y : spec_float) : spec_float :=
  to_f32 (op (to_f64 x) y).

(** The body of [compute_input] on one pixel of the float32 copy. *)
Definition compute_input_px (p : rgb spec_float) : rgb spec_float :=
  let p := rgb_map2 (inplace32 sub64) p mean255 in       (* image -= mean * 255 *)
  let p := rgb_map2 (inplace32 div64) p variance255 in   (* image /= variance * 255 *)
  p.

(** [compute_input(image)] for a uint8 image. *)
Definition compute_input (im : image Z) : image spec_float :=
  let im := image_map (rgb_map of_Z32) im in             (* image.astype('float32') *)
  image_map compute_input_px im.

(** The body of [invert_input] on one pixel. *)
Definition invert_input_px (p : rgb spec_float) : rgb Z :=
  let p := rgb_map2 (inplace32 mul64) p variance255 in   (* X *= variance * 255 *)
  let p := rgb_map2 (inplace32 add64) p mean255 in       (* X += mean * 255 *)
  rgb_map (fun x => to_u8 (clip (of_Z32 0) (of_Z32 255) x)) p.

(** [invert_input(X)] for a float32 array. *)
Definition invert_input (X : image spec_float) : image Z :=
  image_map invert_input_px X.

(** Tolerance of the round trip. *)
Definition within1 (v w : Z) : Prop := v - 1 <= w <= v + 1.

Definition within1b (v w : Z) : bool := (v - 1 <=? w) && (w <=? v + 1).

(** The round trip of one value [v] through the channel of mean [m] and
    deviation [s]. *)
Definition roundtrip_channel (m s : spec_float) (v : Z) : Z :=
  to_u8 (clip (of_Z32 0) (of_Z32 255)
              (inplace32 add64
                 (inplace32 mul64
                    (inplace32 div64 (inplace32 sub64 (of_Z32 v) m) s) s) m)).

Definition sample_image : image Z :=
  [[(0, 1, 2); (255, 128, 64)]; [(17, 242, 249); (59, 64, 100)]].

End Normalise.

(* ================================================================= *)
(** ** [get_gaussian_heatmap]

    Every array of the function is float64.  Its operations are those of
    IEEE-754, which [SpecFloat] gives bit for bit, but for [np.exp], which
    is the exponential of the platform's mathematical library: it is a
    parameter of the model, with what C99 (F.9.3.1) fixes of it. *)

Class Libm : Type := {
(** [np.exp] on one float64. *)
  np_exp : spec_float -> spec_float;
(** [exp(+-0)] is 1 and [exp(-inf)] is +0, both exactly. *)
  np_exp_zero : forall s, np_exp (S754_zero s) = Float.of_Z64 1;
  np_exp_neg_infinity : np_exp (S754_infinity true) = S754_zero false
}.

Module Kernel.
Import Float.

(** [np.linspace(start, stop, num=num)] on float64 bounds:
    [arange(0, num) * step + start] with [step = (stop - start) / (num - 1)],
    the last element then set to [stop]; a step of zero and a single
    sample take the other branches of NumPy's function. *)
Definition linspace (start stop : spec_float) (num : nat) : list spec_float :=
  let div := Z.of_nat num - 1 in
  let delta := sub64 stop start in
  let y := map (fun i => of_Z64 (Z.of_nat i)) (seq 0 num) in
  let y :=
    if 0 <? div then
      let step := div64 delta (of_Z64 div) in
      if SFeqb step (of_Z64 0)
      then map (fun y => mul64 (div64 y (of_Z64 div)) delta) y
      else map (fun y => mul64 y step) y
    else map (fun y => mul64 y delta) y in
  let y := map (fun y => add64 y start) y in
  if 0 <? div then firstn (num - 1) y ++ [stop] else y.

(** [x, y = np.meshgrid(v, w)]: [x[i][j] = v[j]] and [y[i][j] = w[i]]. *)
Definition meshgrid {A} (v w : list A) : matrix A * matrix A :=
  (map (fun _ => v) w, map (fun wi => map (fun _ => wi) v) w).

(** [a ** 2] on a float array: the square, one multiplication. *)
Definition square (x : spec_float) : spec_float := mul64 x x.

(** The literal [-(1 / 2)]. *)
Definition minus_half : spec_float := SFopp (div64 (of_Z64 1) (of_Z64 2)).

Section WithLibm.
Context {L : Libm}.

Definition get_gaussian_heatmap (size : Z) (distanceRatio : spec_float)
  : result (matrix Z) :=
  if size <? 0 then Raise ValueError                (* linspace: negative num *)
  else if size =? 0 then Raise ZeroDivisionError    (* distanceRatio / (0 / 2) *)
  else
    let v := map SFabs (linspace (div64 (of_Z64 (- size)) (of_Z64 2))
                                 (div64 (of_Z64 size) (of_Z64 2))
                                 (Z.to_nat size)) in
    let '(x, y) := meshgrid v v in
    let g := matrix_map2 (fun x y => sqrt64 (add64 (square x) (square y))) x y in
    let g := matrix_map
               (fun g => mul64 g (div64 distanceRatio (div64 (of_Z64 size) (of_Z64 2)))) g in
    let g := matrix_map (fun g => np_exp (mul64 minus_half (square g))) g in
    let g := matrix_map (fun g => mul64 g (of_Z64 255)) g in
    Ok (matrix_map (fun g => to_u8 (clip (of_Z64 0) (of_Z64 255) g)) g).

End WithLibm.

(** Entry [k[i][j]] of a kernel. *)
Definition entry (k : matrix Z) (i j : nat) : Z := nth j (nth i k []) 0%Z.

(** The coordinate the code gives to index [n]: element [n] of [size]
    evenly spaced points from [-size/2] to [size/2], in absolute value. *)
Definition grid_coord (size : Z) (n : nat) : spec_float :=
  SFabs (nth n (linspace (div64 (of_Z64 (- size)) (of_Z64 2))
                         (div64 (of_Z64 size) (of_Z64 2))
                         (Z.to_nat size))
             S754_nan).

(** The scaled distance of pixel (row [i], column [j]) from the centre. *)
Definition scaled_distance (size : Z) (distanceRatio : spec_float) (i j : nat)
  : spec_float :=
  mul64 (sqrt64 (add64 (square (grid_coord size j)) (square (grid_coord size i))))
        (div64 distanceRatio (div64 (of_Z64 size) (of_Z64 2))).

(** [255 * exp(- d^2 / 2)] as the code computes it, before the clip. *)
Definition intensity {L : Libm} (size : Z) (distanceRatio : spec_float) (i j : nat)
  : spec_float :=
  mul64 (np_exp (mul64 minus_half (square (scaled_distance size distanceRatio i j))))
        (of_Z64 255).

(** *** The kernel as the specification words it

    Integer coordinates centred at the origin, the intensity rounded to
    the nearest integer and clipped; the exponential is the mathematical
    one. *)
Local Open Scope R_scope.

Definition round (x : R) : Z := Int_part (x + 1 / 2).

Definition spec_coord (size : Z) (n : nat) : R :=
  IZR (Z.of_nat n - size / 2).

Definition spec_distance (size : Z) (distanceRatio : R) (i j : nat) : R :=
  sqrt (spec_coord size i ^ 2 + spec_coord size j ^ 2) * (distanceRatio / (IZR size / 2)).

Definition spec_kernel_px (size : Z) (distanceRatio : R) (i j : nat) : Z :=
  Z.max 0 (Z.min 255 (round (255 * exp (- (1 / 2) * spec_distance size distanceRatio i j ^ 2)))).

(** The real number a float denotes. *)
Definition real (x : spec_float) : R := Q2R (value x).

End Kernel.

(* ================================================================= *)
(** ** [compute_maps] *)

(** A point [(x, y)] with floating-point coordinates. *)
Definition point : Type := (spec_float * spec_float)%type.

(** The two OpenCV routines of target synthesis.  [transform] is the 3x3
    homography; a warped [uint8] image is again [uint8]. *)
Class Warp : Type := {
  transform : Type;
  getPerspectiveTransform : list point -> list point -> transform;
  warpPerspective : matrix Z -> transform -> Z * Z -> matrix Z;
  warpPerspective_u8 :
    forall heatmap M dsize,
      matrix_all valid_u8 heatmap ->
      matrix_all valid_u8 (warpPerspective heatmap M dsize);
  (** [dsize = (width, height)] is the size of the result. *)
  warpPerspective_shape :
    forall heatmap M w h,
      0 < w -> 0 < h ->
      has_shape (Z.to_nat h) (Z.to_nat w) (warpPerspective heatmap M (w, h))
}.

Module Synthesis.
Import Float.
Local Open Scope result_scope.

(** One entry [x1, y1, x2, y2, x3, y3, x4, y4, c] of a line. *)
Record char_box : Type := {
  x1 : spec_float; y1 : spec_float;
  x2 : spec_float; y2 : spec_float;
  x3 : spec_float; y3 : spec_float;
  x4 : spec_float; y4 : spec_float;
  c : string
}.

Definition line : Type := list char_box.

(** [c == ' '] *)
Definition is_space (c : string) : bool := String.eqb c " ".

Definition half64 (x : spec_float) : spec_float := div64 x (of_Z64 2).

(** [current_link_points]: a 2x2 float64 array. *)
Definition current_link_points (q : char_box) : point * point :=
  let yc := div64 (add64 (add64 (add64 (y4 q) (y1 q)) (y3 q)) (y2 q)) (of_Z64 4) in
  let xc := div64 (add64 (add64 (add64 (x1 q) (x2 q)) (x3 q)) (x4 q)) (of_Z64 4) in
  let p0 := (half64 (add64 xc (half64 (add64 (x1 q) (x2 q)))),
             half64 (add64 yc (half64 (add64 (y1 q) (y2 q))))) in
  let p1 := (half64 (add64 xc (half64 (add64 (x3 q) (x4 q)))),
             half64 (add64 yc (half64 (add64 (y3 q) (y4 q))))) in
  ((half64 (fst p0), half64 (snd p0)), (half64 (fst p1), half64 (snd p1))).

(** [character_points]: a 4x2 float32 array, halved. *)
Definition character_points (q : char_box) : list point :=
  let h x := div32 (to_f32 x) (of_Z32 2) in
  [(h (x1 q), h (y1 q)); (h (x2 q), h (y2 q)); (h (x3 q), h (y3 q)); (h (x4 q), h (y4 q))].

Definition point_f32 (p : point) : point := (to_f32 (fst p), to_f32 (snd p)).

(** [m += warped.astype('float32')] for a float32 map [m]. *)
Definition iadd (m : matrix spec_float) (warped : matrix Z) : result (matrix spec_float) :=
  if same_shape m warped
  then Ok (matrix_map2 (fun a b => add32 a (of_Z32 b)) m warped)
  else Raise ValueError.

Fixpoint foldM {A S} (f : S -> A -> result S) (l : list A) (s : S) : result S :=
  match l with
  | [] => Ok s
  | a :: l => s' <- f s a ;; foldM f l s'
  end.

(** The state of the loops: the two maps and [previous_link_points]. *)
Record maps : Type := { textmap : matrix spec_float; linkmap : matrix spec_float }.

Section WithWarp.
Context {W : Warp}.
Variable heatmap : matrix Z.
Variable dsize : Z * Z.

(** [src]: the four corners of the kernel, float32. *)
Definition src : list point :=
  let '(rows, cols) := shape heatmap in
  let w := of_Z32 (Z.of_nat cols) in
  let h := of_Z32 (Z.of_nat rows) in
  [(of_Z32 0, of_Z32 0); (w, of_Z32 0); (w, h); (of_Z32 0, h)].

(** The body of the inner loop. *)
Definition char_step (st : maps * option (point * point)) (q : char_box)
  : result (maps * option (point * point)) :=
  let '(m, previous_link_points) := st in
  if is_space (c q) then Ok (m, None)
  else
    let cur := current_link_points q in
    linkmap' <-
      match previous_link_points with
      | Some prev =>
          let link_points := [fst prev; fst cur; snd cur; snd prev] in
          let ML := getPerspectiveTransform src (map point_f32 link_points) in
          iadd (linkmap m) (warpPerspective heatmap ML dsize)
      | None => Ok (linkmap m)
      end ;;
    let MA := getPerspectiveTransform src (character_points q) in
    textmap' <- iadd (textmap m) (warpPerspective heatmap MA dsize) ;;
    Ok ({| textmap := textmap'; linkmap := linkmap' |}, Some cur).

(** The body of the outer loop. *)
Definition line_step (m : maps) (l : line) : result maps :=
  st <- foldM char_step l (m, None) ;; Ok (fst st).

End WithWarp.

(** [x.clip(0, 255) / 255] on a float32 element. *)
Definition normalise (x : spec_float) : spec_float :=
  div32 (clip (of_Z32 0) (of_Z32 255) x) (of_Z32 255).

Definition compute_maps {W : Warp} (heatmap : matrix Z) (image_height image_width : Z)
           (lines : list line) : result (matrix (spec_float * spec_float)) :=
  _ <- assert (image_height mod 2 =? 0) "Height must be an even number" ;;
  _ <- assert (image_width mod 2 =? 0) "Width must be an even number" ;;
  let h := image_height / 2 in
  let w := image_width / 2 in
  (* np.zeros refuses a negative dimension *)
  if (h <? 0) || (w <? 0) then Raise ValueError
  else
    let zero := zeros (of_Z32 0) (Z.to_nat h) (Z.to_nat w) in
    m <- foldM (line_step heatmap (w, h)) lines {| textmap := zero; linkmap := zero |} ;;
    Ok (matrix_map (fun tl => (normalise (fst tl), normalise (snd tl)))
                   (matrix_map2 pair (textmap m) (linkmap m))).

(** Two entries with the same quadrilateral, whose labels are both the
    space or both not. *)
Definition same_layout (q q' : char_box) : Prop :=
  x1 q = x1 q' /\ y1 q = y1 q' /\ x2 q = x2 q' /\ y2 q = y2 q' /\
  x3 q = x3 q' /\ y3 q = y3 q' /\ x4 q = x4 q' /\ y4 q = y4 q' /\
  is_space (c q) = is_space (c q').

(** Both maps have [h] rows of [w] elements. *)
Definition maps_shaped (w h : Z) (m : maps) : Prop :=
  has_shape (Z.to_nat h) (Z.to_nat w) (textmap m) /\
  has_shape (Z.to_nat h) (Z.to_nat w) (linkmap m).

(** Both maps hold sums of non-negative terms. *)
Definition maps_accumulated (m : maps) : Prop :=
  matrix_all FloatRange.accumulated (textmap m) /\
  matrix_all FloatRange.accumulated (linkmap m).

(** A 4 x 4 kernel and a line of two characters separated by a space,
    for an 8 x 12 image. *)
Definition sample_kernel : matrix Z :=
  [[10; 80; 80; 10]; [80; 255; 255; 80]; [80; 255; 255; 80]; [10; 80; 80; 10]].

Definition sample_box (x y : Z) (label : string) : char_box :=
  {| x1 := of_Z64 x; y1 := of_Z64 y;
     x2 := of_Z64 (x + 4); y2 := of_Z64 y;
     x3 := of_Z64 (x + 4); y3 := of_Z64 (y + 4);
     x4 := of_Z64 x; y4 := of_Z64 (y + 4);
     c := label |}.

Definition sample_lines (a b : string) : list line :=
  [[sample_box 0 2 a; sample_box 4 2 b; sample_box 6 2 " "; sample_box 8 2 a]].

End Synthesis.

(* ================================================================= *)
(** ** Plane geometry of the returned boxes

    Box corners are [float32] pairs in the source.  They are modelled by the
    rational numbers they denote.  The sum [x + y] that orders the corners
    is the float32 addition of the source, rounding included; the doubling
    [2 * box] is exact. *)

Definition qpoint : Type := (Q * Q)%type.

Module Geometry.
Local Open Scope Q_scope.

(** The z-component of [(b - a) x (c - b)].  With the y axis pointing
    down, as in image coordinates, it is non-negative exactly when the
    path a, b, c turns clockwise on screen (or goes straight). *)
Definition cross (a b c : qpoint) : Q :=
  (fst b - fst a) * (snd c - snd b) - (snd b - snd a) * (fst c - fst b).

(** A quadrilateral traversed clockwise: every corner turns clockwise. *)
Definition clockwise (box : list qpoint) : Prop :=
  match box with
  | [p0; p1; p2; p3] =>
      0 <= cross p0 p1 p2 /\ 0 <= cross p1 p2 p3 /\
      0 <= cross p2 p3 p0 /\ 0 <= cross p3 p0 p1
  | _ => False
  end.



(** One row of [box.sum(axis=1)] on the float32 array [box]: the two
    coordinates added in float32. *)
Definition sum32 (p : qpoint) : spec_float :=
  Float.add32 (Float.of_Q32 (fst p)) (Float.of_Q32 (snd p)).

(** [a.argmin()] on a non-empty 1-D float array: the first index of the
    least element.  The scan keeps the running minimum [best] and moves to
    an element [a] unless [a >= best]; a NaN, once met, is the result. *)
Fixpoint argmin_from (best : spec_float) (ibest : nat) (i : nat)
         (l : list spec_float) : nat :=
  match l with
  | [] => ibest
  | a :: l => if Float.is_nan best then ibest
              else if SFleb best a then argmin_from best ibest (S i) l
              else argmin_from a i (S i) l
  end.

Definition argmin (l : list spec_float) : nat :=
  match l with
  | [] => O
  | a :: l => argmin_from a 0%nat 1%nat l
  end.


(** [np.roll(a, shift, 0)] for [shift >= 0]: element [i] moves to index
    [(i + shift) mod n]. *)
Definition roll {A} (l : list A) (shift : nat) : list A :=
  let n := length l in
  let r := (shift mod n)%nat in
  skipn (n - r) l ++ firstn (n - r) l.

(** [2 * box] *)
Definition scale2 (box : list qpoint) : list qpoint :=
  map (fun p => (2 * fst p, 2 * snd p)) box.


End Geometry.

(* ================================================================= *)
(** ** The OpenCV / NumPy routines of box extraction *)

(** One row of the [stats] array of [cv2.connectedComponentsWithStats]. *)
Record cc_stat : Type := {
  CC_STAT_LEFT : Z;
  CC_STAT_TOP : Z;
  CC_STAT_WIDTH : Z;
  CC_STAT_HEIGHT : Z;
  CC_STAT_AREA : Z
}.

(** A contour: its points [(x, y)]. *)
Definition contour : Type := list (Z * Z).

(** An image without a non-zero pixel. *)
Definition blank (img : matrix Z) : bool :=
  forallb (forallb (Z.eqb 0)) img.

Class Vision : Type := {
(** [cv2.connectedComponentsWithStats(img, connectivity=4)]:
    [n_components], [labels], [stats]. *)
  connectedComponentsWithStats : matrix Z -> Z * matrix Z * list cc_stat;
(** [cv2.findContours(img, mode=RETR_TREE, method=CHAIN_APPROX_SIMPLE)]. *)
  findContours : matrix Z -> list contour;
(** [cv2.boxPoints(cv2.minAreaRect(contour))]: the 4 corners. *)
  minAreaRect_boxPoints : contour -> qpoint * qpoint * qpoint * qpoint;
(** [np.linalg.norm(p - q)] on float32 points: the float32 result, as the
    rational number it denotes. *)
  norm : qpoint -> qpoint -> Q;
(** An image with no foreground pixel has no contour. *)
  findContours_blank : forall img, blank img = true -> findContours img = [];
(** [boxPoints] lists the corners bottom-left, top-left, top-right,
    bottom-right of the rotated rectangle: clockwise on screen. *)
  boxPoints_clockwise :
    forall c, let '(p0, p1, p2, p3) := minAreaRect_boxPoints c in
              Geometry.clockwise [p0; p1; p2; p3]
}.

(* ================================================================= *)
(** ** [getBoxes] *)

Module Boxes.
Import Float Geometry.
Local Open Scope result_scope.

(** [cv2.threshold(src, thresh, maxval, cv2.THRESH_BINARY)] on a float32
    image: [maxval] where [src > thresh], 0 elsewhere; the threshold is
    cast to the element type first. *)
Definition threshold (src : matrix spec_float) (thresh maxval : spec_float)
  : matrix spec_float :=
  matrix_map (fun v => if SFltb (to_f32 thresh) v then to_f32 maxval else of_Z32 0) src.

(** Binarisation as the specification words it: [1] where the value is
    greater than or equal to the threshold. *)
Definition spec_threshold (src : matrix spec_float) (thresh : spec_float)
  : matrix spec_float :=
  matrix_map (fun v => if SFleb thresh (to_f64 v) then of_Z32 1 else of_Z32 0) src.

(** [np.clip(text_score + link_score, 0, 1).astype('uint8')] *)
Definition union_mask (text_score link_score : matrix spec_float) : matrix Z :=
  matrix_map (fun v => to_u8 (clip (of_Z32 0) (of_Z32 1) v))
             (matrix_map2 add32 text_score link_score).

(** [labels == component_id] *)
Definition label_mask (labels : matrix Z) (component_id : Z) : matrix bool :=
  matrix_map (Z.eqb component_id) labels.

(** [np.logical_and(a, b)] *)
Definition logical_and (a b : matrix spec_float) : matrix bool :=
  matrix_map2 (fun x y => nonzero x && nonzero y) a b.

(** [a[mask]] for a boolean mask: the selected elements, row-major. *)
Definition select {A} (a : matrix A) (mask : matrix bool) : result (list A) :=
  if same_shape a mask
  then Ok (concat (zip_with (fun row m => map fst (filter snd (combine row m))) a mask))
  else Raise IndexError.

(** [a[mask] = v] *)
Definition assign {A} (a : matrix A) (mask : matrix bool) (v : A) : result (matrix A) :=
  if same_shape a mask
  then Ok (matrix_map2 (fun x (b : bool) => if b then v else x) a mask)
  else Raise IndexError.

(** [np.max] of a 1-D float array. *)
Definition np_max (l : list spec_float) : result spec_float :=
  match l with
  | [] => Raise ValueError
  | x :: l => Ok (fold_left maximum l x)
  end.

(** [a.min()] and [a.max()] of a 1-D integer array. *)
Definition int_min (l : list Z) : result Z :=
  match l with
  | [] => Raise ValueError
  | x :: l => Ok (fold_left Z.min l x)
  end.

Definition int_max (l : list Z) : result Z :=
  match l with
  | [] => Raise ValueError
  | x :: l => Ok (fold_left Z.max l x)
  end.

(** Arithmetic on [np.int32] scalars wraps around. *)
Definition wrap32 (z : Z) : Z := (z + 2 ^ 31) mod 2 ^ 32 - 2 ^ 31.

(** [int(x)] for a float [x]. *)
Definition py_int (x : spec_float) : result Z :=
  match x with
  | S754_nan => Raise ValueError
  | S754_infinity _ => Raise OverflowError
  | _ => Ok (trunc x)
  end.

(** [niter = int(np.sqrt(size * min(w, h) / (w * h)) * 2)] *)
Definition dilation_iterations (size w h : Z) : result Z :=
  let num := wrap32 (size * Z.min w h) in
  let den := wrap32 (w * h) in
  py_int (mul64 (sqrt64 (div64 (of_Z64 num) (of_Z64 den))) (of_Z64 2)).

(** A slice bound of Python: negative bounds count from the end, all
    bounds are clamped to the length. *)
Definition slice_bound (len : nat) (i : Z) : nat :=
  Z.to_nat (if i <? 0 then Z.max 0 (Z.of_nat len + i) else Z.min i (Z.of_nat len)).

(** [l[lo:hi]] *)
Definition slice {A} (l : list A) (lo hi : Z) : list A :=
  let a := slice_bound (length l) lo in
  let b := slice_bound (length l) hi in
  firstn (b - a) (skipn a l).

(** [l[lo:hi] = v], for [v] of the length of the slice. *)
Definition set_slice {A} (l : list A) (lo hi : Z) (v : list A) : list A :=
  let a := slice_bound (length l) lo in
  firstn a l ++ v ++ skipn (a + length v) l.

(** [m[sy:ey, sx:ex]] *)
Definition window {A} (m : matrix A) (sy ey sx ex : Z) : matrix A :=
  map (fun row => slice row sx ex) (slice m sy ey).

(** [m[sy:ey, sx:ex] = d] *)
Definition set_window {A} (m : matrix A) (sy ey sx ex : Z) (d : matrix A) : matrix A :=
  set_slice m sy ey
            (zip_with (fun row drow => set_slice row sx ex drow) (slice m sy ey) d).

(** The part of [l] with indices in [lo, hi), bounds clamped at 0. *)
Definition segment {A} (l : list A) (lo hi : Z) : list A :=
  let a := Z.to_nat (Z.max 0 lo) in
  let b := Z.to_nat (Z.max 0 hi) in
  firstn (b - a) (skipn a l).

(** [cv2.dilate(src, cv2.getStructuringElement(cv2.MORPH_RECT, (k, k)))]:
    each pixel becomes the maximum over the k x k window anchored at its
    centre [k / 2]; pixels outside the image do not take part. *)
Definition dilate (src : matrix spec_float) (k : Z) : matrix spec_float :=
  let a := k / 2 in
  map (fun i =>
         let rows := segment src (Z.of_nat i - a) (Z.of_nat i - a + k) in
         map (fun j =>
                fold_left maximum
                          (concat (map (fun row => segment row (Z.of_nat j - a) (Z.of_nat j - a + k)) rows))
                          (S754_infinity true))
             (seq 0 (length (nth i src []))))
      (seq 0 (length src)).

Definition q_of_Z (z : Z) : Q := inject_Z z.

Section WithVision.
Context {V : Vision}.
Variables detection_threshold text_threshold link_threshold : spec_float.
Variable size_threshold : Z.

(** [max(w, h) / (min(w, h) + 1e-5)] for two float32 scalars: the sum
    with the Python float, and with it the quotient, are float64. *)
Definition box_ratio (w h : Q) : spec_float :=
  div64 (of_Q64 (Qmax w h)) (add64 (of_Q64 (Qmin w h)) (literal64 1 100000)).

(** [abs(1 - box_ratio) <= 0.1] *)
Definition near_square (w h : Q) : bool :=
  SFleb (SFabs (sub64 (of_Z64 1) (box_ratio w h))) (literal64 1 10).

(** Lines 222-233: the rotated box of a contour, put in order. *)
Definition ordered_box (cnt : contour) : result (list qpoint) :=
  let '(p0, p1, p2, p3) := minAreaRect_boxPoints cnt in
  let box := [p0; p1; p2; p3] in
  let w := norm p0 p1 in
  let h := norm p1 p2 in
  if near_square w h then
    l <- int_min (map fst cnt) ;;
    r <- int_max (map fst cnt) ;;
    t <- int_min (map snd cnt) ;;
    b <- int_max (map snd cnt) ;;
    Ok [(q_of_Z l, q_of_Z t); (q_of_Z r, q_of_Z t);
        (q_of_Z r, q_of_Z b); (q_of_Z l, q_of_Z b)]
  else
    Ok (roll box (4 - argmin (map sum32 box))).

(** The body of the loop over the components: [None] is [continue]. *)
Definition component_box
           (textmap text_score link_score : matrix spec_float)
           (labels : matrix Z) (stats : list cc_stat)
           (component_id : Z) : result (option (list qpoint)) :=
  let '(img_h, img_w) := shape textmap in
  st <- getitem stats (Z.to_nat component_id) ;;
  let size := CC_STAT_AREA st in
  if size <? size_threshold then Ok None
  else
    inside <- select textmap (label_mask labels component_id) ;;
    peak <- np_max inside ;;
    if SFltb (to_f64 peak) detection_threshold then Ok None
    else
      let segmap := matrix_map (fun _ => of_Z32 0) textmap in
      segmap <- assign segmap (label_mask labels component_id) (of_Z32 255) ;;
      segmap <- assign segmap (logical_and link_score text_score) (of_Z32 0) ;;
      let x := CC_STAT_LEFT st in
      let y := CC_STAT_TOP st in
      let w := CC_STAT_WIDTH st in
      let h := CC_STAT_HEIGHT st in
      niter <- dilation_iterations size w h ;;
      let sx := Z.max (x - niter) 0 in
      let sy := Z.max (y - niter) 0 in
      let ex := Z.min (x + w + niter + 1) (Z.of_nat img_w) in
      let ey := Z.min (y + h + niter + 1) (Z.of_nat img_h) in
      let segmap :=
        set_window segmap sy ey sx ex
                   (dilate (window segmap sy ey sx ex) (1 + niter)) in
      let contours := findContours (matrix_map to_u8 segmap) in
      cnt <- getitem contours 0 ;;
      box <- ordered_box cnt ;;
      Ok (Some (scale2 box)).

(** The loop over [range(1, n_components)], collecting [boxes]. *)
Fixpoint component_loop
         (textmap text_score link_score : matrix spec_float)
         (labels : matrix Z) (stats : list cc_stat)
         (ids : list Z) : result (list (list qpoint)) :=
  match ids with
  | [] => Ok []
  | component_id :: ids =>
      b <- component_box textmap text_score link_score labels stats component_id ;;
      boxes <- component_loop textmap text_score link_score labels stats ids ;;
      Ok (match b with Some box => box :: boxes | None => boxes end)
  end.

(** [range(1, n)] *)
Definition range1 (n : Z) : list Z := map Z.of_nat (seq 1 (Z.to_nat n - 1)).

(** The body of the loop over the images of the batch. *)
Definition image_boxes (y_pred_cur : matrix (spec_float * spec_float))
  : result (list (list qpoint)) :=
  let textmap := matrix_map fst y_pred_cur in
  let linkmap := matrix_map snd y_pred_cur in
  let text_score := threshold textmap text_threshold (of_Z64 1) in
  let link_score := threshold linkmap link_threshold (of_Z64 1) in
  let '(n_components, labels, stats) :=
    connectedComponentsWithStats (union_mask text_score link_score) in
  component_loop textmap text_score link_score labels stats (range1 n_components).

Fixpoint getBoxes (y_pred : list (matrix (spec_float * spec_float)))
  : result (list (list (list qpoint))) :=
  match y_pred with
  | [] => Ok []
  | y_pred_cur :: y_pred =>
      boxes <- image_boxes y_pred_cur ;;
      box_groups <- getBoxes y_pred ;;
      Ok (boxes :: box_groups)
  end.

End WithVision.

(** The default thresholds of the signature. *)
Definition default_detection_threshold : spec_float := literal64 7 10.
Definition default_text_threshold : spec_float := literal64 4 10.
Definition default_link_threshold : spec_float := literal64 4 10.
Definition default_size_threshold : Z := 10.

(** A 2 x 5 prediction on which the text and the link score are both 0.9
    everywhere: one component of 10 pixels, all of it overlap. *)
Definition overlap_prediction : matrix (spec_float * spec_float) :=
  repeat (repeat (to_f32 (literal64 9 10), to_f32 (literal64 9 10)) 5) 2.

(** A 10 x 12 prediction with one text blob of 4 x 6 pixels at 0.9 and no
    link score. *)
Definition blob_prediction : matrix (spec_float * spec_float) :=
  map (fun i =>
         map (fun j =>
                if (2 <=? i) && (i <? 6) && (3 <=? j) && (j <? 9)
                then (to_f32 (literal64 9 10), of_Z32 0)
                else (of_Z32 0, of_Z32 0))
             (map Z.of_nat (seq 0 12)))
      (map Z.of_nat (seq 0 10)).

End Boxes.

(* ================================================================= *)
(** ** A reference implementation of the [Vision] interface

    Connected components are labelled for real (4-connectivity, labels in
    raster order of the first pixel).  The contour and rectangle routines
    are those of OpenCV on the inputs they are used with below: a blank
    image, and a foreground that is one filled axis-parallel rectangle. *)

Module Reference.
Local Open Scope Z_scope.

Definition get (m : matrix Z) (i j : Z) : Z :=
  if (i <? 0) || (j <? 0) then 0
  else nth (Z.to_nat j) (nth (Z.to_nat i) m []) 0.

Fixpoint mapi_from {A B} (f : nat -> A -> B) (i : nat) (l : list A) : list B :=
  match l with
  | [] => []
  | a :: l => f i a :: mapi_from f (S i) l
  end.

Definition mapij {A B} (f : Z -> Z -> A -> B) (m : matrix A) : matrix B :=
  mapi_from (fun i row => mapi_from (fun j x => f (Z.of_nat i) (Z.of_nat j) x) 0 row) 0 m.

(** Provisional labels: one per foreground pixel. *)
Definition provisional (img : matrix Z) : matrix Z :=
  let w := Z.of_nat (length (hd [] img)) in
  mapij (fun i j v => if v =? 0 then 0 else i * w + j + 1) img.

Definition min_label (a b : Z) : Z := if b =? 0 then a else Z.min a b.

(** One round of propagation along the 4 neighbours. *)
Definition relax (lab : matrix Z) : matrix Z :=
  mapij (fun i j v =>
           if v =? 0 then 0
           else fold_left min_label
                          [get lab (i - 1) j; get lab (i + 1) j;
                           get lab i (j - 1); get lab i (j + 1)] v)
        lab.

Fixpoint iterate {A} (f : A -> A) (n : nat) (a : A) : A :=
  match n with
  | O => a
  | S n => iterate f n (f a)
  end.

Fixpoint index_of (x : Z) (l : list Z) : Z :=
  match l with
  | [] => 0
  | y :: l => if x =? y then 0 else 1 + index_of x l
  end.

Definition label_image (img : matrix Z) : Z * matrix Z :=
  let n := (length img * length (hd [] img))%nat in
  let lab := iterate relax n (provisional img) in
  let roots := nodup Z.eq_dec (filter (fun v => negb (v =? 0)) (concat lab)) in
  (1 + Z.of_nat (length roots),
   matrix_map (fun v => if v =? 0 then 0 else 1 + index_of v roots) lab).

(** The pixels [(x, y)] carrying the label [id]. *)
Definition pixels_of (labels : matrix Z) (id : Z) : list (Z * Z) :=
  concat (concat (mapij (fun i j v => if v =? id then [(j, i)] else []) labels)).

Definition least (l : list Z) : Z :=
  match l with [] => 0 | x :: l => fold_left Z.min l x end.

Definition greatest (l : list Z) : Z :=
  match l with [] => 0 | x :: l => fold_left Z.max l x end.

Definition stat_of (labels : matrix Z) (id : Z) : cc_stat :=
  let px := pixels_of labels id in
  let xs := map fst px in
  let ys := map snd px in
  {| CC_STAT_LEFT := least xs;
     CC_STAT_TOP := least ys;
     CC_STAT_WIDTH := greatest xs - least xs + 1;
     CC_STAT_HEIGHT := greatest ys - least ys + 1;
     CC_STAT_AREA := Z.of_nat (length px) |}.

Definition connectedComponentsWithStats (img : matrix Z) : Z * matrix Z * list cc_stat :=
  let '(n, labels) := label_image img in
  (n, labels, map (fun k => stat_of labels (Z.of_nat k)) (seq 0 (Z.to_nat n))).

(** The non-zero pixels [(x, y)]. *)
Definition foreground (img : matrix Z) : list (Z * Z) :=
  concat (concat (mapij (fun i j v => if v =? 0 then [] else [(j, i)]) img)).

(** The outer contour of a filled axis-parallel rectangle, compressed to
    its corners, anticlockwise from the top-left one. *)
Definition findContours (img : matrix Z) : list contour :=
  match foreground img with
  | [] => []
  | px =>
      let xs := map fst px in
      let ys := map snd px in
      [[(least xs, least ys); (least xs, greatest ys);
        (greatest xs, greatest ys); (greatest xs, least ys)]]
  end.

(** Corners of the bounding rectangle: bottom-left, top-left, top-right,
    bottom-right. *)
Definition minAreaRect_boxPoints (c : contour) : qpoint * qpoint * qpoint * qpoint :=
  let l := inject_Z (least (map fst c)) in
  let r := inject_Z (greatest (map fst c)) in
  let t := inject_Z (least (map snd c)) in
  let b := inject_Z (greatest (map snd c)) in
  ((l, b), (l, t), (r, t), (r, b)).

(** The length of an axis-parallel segment. *)
Definition norm (p q : qpoint) : Q :=
  (Qabs (fst p - fst q) + Qabs (snd p - snd q))%Q.

(** The homography of [getPerspectiveTransform], kept as the pair of its
    two quadrilaterals. *)
Definition getPerspectiveTransform (src dst : list point) : list point * list point :=
  (src, dst).

(** Nearest-neighbour sampling of the kernel over the bounding rectangle
    of the destination corners, zero outside: the perspective warp onto an
    axis-parallel rectangle, without interpolation. *)
Definition warpPerspective (heatmap : matrix Z) (M : list point * list point)
           (dsize : Z * Z) : matrix Z :=
  let xs := map (fun p => Float.trunc (fst p)) (snd M) in
  let ys := map (fun p => Float.trunc (snd p)) (snd M) in
  let l := least xs in
  let r := greatest xs in
  let t := least ys in
  let b := greatest ys in
  let kh := Z.of_nat (length heatmap) in
  let kw := Z.of_nat (length (hd [] heatmap)) in
  map (fun i =>
         map (fun j =>
                if (l <=? j) && (j <? r) && (t <=? i) && (i <? b)
                then nth (Z.to_nat ((j - l) * kw / (r - l)))
                         (nth (Z.to_nat ((i - t) * kh / (b - t))) heatmap []) 0
                else 0)
             (map Z.of_nat (seq 0 (Z.to_nat (fst dsize)))))
      (map Z.of_nat (seq 0 (Z.to_nat (snd dsize)))).

End Reference.

#[export] Instance reference_vision : Vision.
Proof.
  refine {| connectedComponentsWithStats := Reference.connectedComponentsWithStats;
            findContours := Reference.findContours;
            minAreaRect_boxPoints := Reference.minAreaRect_boxPoints;
            norm := Reference.norm |}.
  - (* a blank image has no foreground pixel, hence no contour *)
    intros img Hblank. unfold Reference.findContours.
    enough (Hfg : Reference.foreground img = []) by (rewrite Hfg; reflexivity).
    assert (Hrow : forall (i : nat) row j,
               forallb (Z.eqb 0) row = true ->
               concat (Reference.mapi_from
                         (fun j x => if (x =? 0)%Z then []
                                     else [(Z.of_nat j, Z.of_nat i)]) j row) = []).
    { intros i. induction row as [|v row IH]; intros j Hrow; simpl; [reflexivity|].
      cbn [forallb] in Hrow. apply andb_true_iff in Hrow as [Hv Hrow].
      apply Z.eqb_eq in Hv. subst v. simpl. apply IH, Hrow. }
    unfold Reference.foreground, Reference.mapij, blank in *.
    generalize 0%nat at 2 as i.
    induction img as [|row img IH]; intros i; simpl; [reflexivity|].
    cbn [forallb] in Hblank. apply andb_true_iff in Hblank as [Hr Himg].
    rewrite concat_app, (IH Himg (S i)), app_nil_r.
    apply Hrow, Hr.
  - (* the corners of the bounding rectangle go round clockwise *)
    intros c. unfold Reference.minAreaRect_boxPoints.
    assert (Hmin : forall l x, (fold_left Z.min l x <= x)%Z).
    { induction l as [|y l IH]; intros x; simpl; [lia|].
      specialize (IH (Z.min x y)). lia. }
    assert (Hmax : forall l x, (x <= fold_left Z.max l x)%Z).
    { induction l as [|y l IH]; intros x; simpl; [lia|].
      specialize (IH (Z.max x y)). lia. }
    assert (Hneg : forall l x y, (x <= y)%Z -> (fold_left Z.min l x <= fold_left Z.max l y)%Z).
    { induction l as [|z l IH]; intros x y Hxy; simpl; [lia|]. apply IH. lia. }
    assert (Hle : forall l, (Reference.least l <= Reference.greatest l)%Z).
    { destruct l as [|x l]; simpl; [lia|]. apply Hneg. lia. }
    pose proof (Hle (map fst c)) as Hx. pose proof (Hle (map snd c)) as Hy.
    rewrite Zle_Qle in Hx. rewrite Zle_Qle in Hy.
    set (l := inject_Z (Reference.least (map fst c))) in *.
    set (r := inject_Z (Reference.greatest (map fst c))) in *.
    set (t := inject_Z (Reference.least (map snd c))) in *.
    set (b := inject_Z (Reference.greatest (map snd c))) in *.
    assert (Hprod : (0 <= (b - t) * (r - l))%Q).
    { apply Qmult_le_0_compat.
      - setoid_replace 0%Q with (t - t)%Q by ring. apply Qplus_le_compat; [exact Hy | apply Qle_refl].
      - setoid_replace 0%Q with (l - l)%Q by ring. apply Qplus_le_compat; [exact Hx | apply Qle_refl]. }
    unfold Geometry.clockwise, Geometry.cross; simpl.
    repeat split.
    + setoid_replace ((l - l) * (t - t) - (t - b) * (r - l))%Q with ((b - t) * (r - l))%Q by ring. exact Hprod.
    + setoid_replace ((r - l) * (b - t) - (t - t) * (r - r))%Q with ((b - t) * (r - l))%Q by ring. exact Hprod.
    + setoid_replace ((r - r) * (b - b) - (b - t) * (l - r))%Q with ((b - t) * (r - l))%Q by ring. exact Hprod.
    + setoid_replace ((l - r) * (t - b) - (b - b) * (l - l))%Q with ((b - t) * (r - l))%Q by ring. exact Hprod.
Defined.

#[export] Instance reference_warp : Warp.
Proof.
  refine {| transform := (list point * list point)%type;
            getPerspectiveTransform := Reference.getPerspectiveTransform;
            warpPerspective := Reference.warpPerspective |}.
  (* a sample of an 8-bit kernel, or zero, is an 8-bit value *)
  - intros heatmap M dsize Hk. unfold Reference.warpPerspective, matrix_all.
    apply Forall_map, Forall_forall. intros i _.
    apply Forall_map, Forall_forall. intros j _.
    destruct (_ && _); [|unfold valid_u8; lia].
    assert (Hnth : forall (A : Type) (P : A -> Prop) (l : list A) (n : nat) (d : A),
               Forall P l -> P d -> P (nth n l d)).
    { intros A P l. induction l as [|a l IH]; intros [|n] d Hl Hd; cbn;
        try exact Hd; inversion Hl; subst; auto. }
    apply Hnth; [|unfold valid_u8; lia].
    apply Hnth; [exact Hk | constructor].
  - (* one row per line of [dsize], one element per column *)
    intros heatmap M w h _ _. unfold Reference.warpPerspective, has_shape.
    cbn [fst snd]. split.
    + rewrite !length_map, length_seq. reflexivity.
    + apply Forall_map, Forall_forall. intros i _.
      rewrite !length_map, length_seq. reflexivity.
Defined.

(* ================================================================= *)
(** ** A reference exponential

    The exponential of a float64 by exact rational arithmetic: the
    argument is reduced by a multiple of [ln 2], the Taylor polynomial of
    degree 40 of the rest is evaluated to 256 binary places, and the result
    is rounded once to binary64.  It serves to evaluate the kernel on
    concrete inputs. *)

Module Exponential.
Local Open Scope Q_scope.

(** [ln 2], truncated to 256 binary places. *)
Definition ln2 : Q :=
  80260960185991308862233904206310070533990667611589946606122867505419956976171
  # (2 ^ 256).

(** Truncation to 256 binary places. *)
Definition chop (q : Q) : Q := Qfloor (q * inject_Z (2 ^ 256)) # (2 ^ 256).

(** [1 + r/1 * (1 + r/2 * (... (1 + r/n * acc)))], by Horner's rule. *)
Fixpoint taylor (r : Q) (n : nat) (acc : Q) : Q :=
  match n with
  | O => acc
  | S m => taylor r m (chop (1 + r * acc / inject_Z (Z.of_nat n)))
  end.

Definition exp (x : spec_float) : spec_float :=
  match x with
  | S754_nan => S754_nan
  | S754_infinity false => S754_infinity false
  | S754_infinity true => S754_zero false
  | S754_zero _ => Float.of_Z64 1
  | S754_finite _ _ _ =>
      let q := Float.value x in
      if Qle_bool 710 q then S754_infinity false          (* above the largest double *)
      else if Qle_bool q (-746) then S754_zero false      (* below half the least one *)
      else
        let k := Qfloor (q / ln2 + (1 # 2)) in
        let r := chop (q - inject_Z k * ln2) in
        Float.of_Q64 (taylor r 40 1 * Qpower 2 k)
  end.

End Exponential.

#[export] Instance reference_libm : Libm :=
  {| np_exp := Exponential.exp;
     np_exp_zero := fun _ => eq_refl;
     np_exp_neg_infinity := eq_refl |}.

(* ================================================================= *)
(** ** A slanted component

    An implementation of the [Vision] interface for a component that lies
    at 45 degrees.  Labels and contours are those of the reference
    implementation.  The rotated rectangle has the corners (8, 11), (2, 5),
    (5, 2), (11, 8), in the order of [boxPoints], with the two corners of
    least [x + y] off by one or two units in the last place of a float32
    coordinate, as the float32 arithmetic of [boxPoints] leaves them. *)

Module Slanted.
Import Float.

Definition bottom : qpoint := (8, 11)%Q.
(** (2 + 2^-22, 5 + 2^-20) *)
Definition left : qpoint := (8388609 # 4194304, 5242881 # 1048576)%Q.
(** (5 + 2^-21, 2 + 2^-22) *)
Definition top : qpoint := (10485761 # 2097152, 8388609 # 4194304)%Q.
Definition right : qpoint := (11, 8)%Q.

Definition minAreaRect_boxPoints (c : contour) : qpoint * qpoint * qpoint * qpoint :=
  (bottom, left, top, right).

(** [np.linalg.norm(p - q)] on float32 points: the square root of the dot
    product of the difference with itself, in float32. *)
Definition norm (p q : qpoint) : Q :=
  let dx := sub32 (of_Q32 (fst p)) (of_Q32 (fst q)) in
  let dy := sub32 (of_Q32 (snd p)) (of_Q32 (snd q)) in
  value (sqrt32 (add32 (mul32 dx dx) (mul32 dy dy))).


End Slanted.


(* ================================================================= *)
(** ** The same functions over a store of arrays

    NumPy arrays are mutable objects: an in-place operator ([-=], [/=],
    [a[mask] = v], [a[sy:ey, sx:ex] = d]) writes into the array its left
    operand names, while [astype], [copy], [zeros_like] and the OpenCV
    calls build a new array.  Here every array that some statement of
    [compute_input], [invert_input] or [getBoxes] writes to, and every
    argument of these functions, lives in a store; a raised exception
    leaves the store as it was at that point. *)

Module Heap.
Import Float Geometry.

Inductive ndarray : Type :=
| U8Image (a : image Z)                                   (* H x W x 3, uint8 *)
| F32Image (a : image spec_float)                         (* H x W x 3, float32 *)
| F32Batch (a : list (matrix (spec_float * spec_float)))  (* N x H x W x 2, float32 *)
| F32Map (a : matrix spec_float).                         (* H x W, float32 *)

Definition loc : Type := nat.
Definition store : Type := list ndarray.

Definition M (A : Type) : Type := store -> result A * store.

Definition ret {A} (a : A) : M A := fun s => (Ok a, s).

Definition raise {A} (e : exn) : M A := fun s => (Raise e, s).

Definition lift {A} (r : result A) : M A := fun s => (r, s).

Definition mbind {A B} (m : M A) (k : A -> M B) : M B :=
  fun s => match m s with
           | (Ok a, s') => k a s'
           | (Raise e, s') => (Raise e, s')
           end.

Declare Scope heap_scope.
Delimit Scope heap_scope with heap.
Notation "x <- m ;; k" := (mbind m (fun x => k))
  (at level 61, m at next level, right associativity) : heap_scope.
Notation "m ;;; k" := (mbind m (fun _ => k))
  (at level 61, right associativity) : heap_scope.
Local Open Scope heap_scope.

(** A new array object. *)
Definition alloc (a : ndarray) : M loc :=
  fun s => (Ok (length s), s ++ [a]).

Definition load (l : loc) : M ndarray :=
  fun s => match nth_error s l with
           | Some a => (Ok a, s)
           | None => (Raise TypeError, s)
           end.

Fixpoint update_nth {A} (l : nat) (a : A) (s : list A) : list A :=
  match s, l with
  | [], _ => []
  | _ :: s, O => a :: s
  | b :: s, S l => b :: update_nth l a s
  end.

(** Overwrite the contents of an array object. *)
Definition store_at (l : loc) (a : ndarray) : M unit :=
  fun s => (Ok tt, update_nth l a s).

(** *** [compute_input] *)

(** [image.astype('float32')]: always a new array. *)
Definition astype_float32 (image : loc) : M loc :=
  a <- load image ;;
  match a with
  | U8Image im => alloc (F32Image (image_map (rgb_map of_Z32) im))
  | F32Image im => alloc (F32Image im)
  | _ => raise TypeError
  end.

(** [X op= v] for a float32 image [X] and a float64 vector [v] of 3
    channels. *)
Definition inplace (op : spec_float -> spec_float -> spec_float)
           (X : loc) (v : rgb spec_float) : M unit :=
  a <- load X ;;
  match a with
  | F32Image im =>
      store_at X (F32Image (image_map (fun p => rgb_map2 (Normalise.inplace32 op) p v) im))
  | _ => raise TypeError
  end.

Definition compute_input (image : loc) : M loc :=
  image <- astype_float32 image ;;
  inplace sub64 image Normalise.mean255 ;;;
  inplace div64 image Normalise.variance255 ;;;
  ret image.

(** *** [invert_input] *)

(** [X.copy()] *)
Definition copy (X : loc) : M loc :=
  a <- load X ;; alloc a.

(** [X.clip(0, 255).astype('uint8')]: a new array. *)
Definition clip_astype_uint8 (X : loc) : M loc :=
  a <- load X ;;
  match a with
  | F32Image im =>
      alloc (U8Image (image_map (rgb_map (fun x => to_u8 (clip (of_Z32 0) (of_Z32 255) x))) im))
  | _ => raise TypeError
  end.

Definition invert_input (X : loc) : M loc :=
  X <- copy X ;;
  inplace mul64 X Normalise.variance255 ;;;
  inplace add64 X Normalise.mean255 ;;;
  clip_astype_uint8 X.

(** *** [getBoxes] *)

Definition load_map (l : loc) : M (matrix spec_float) :=
  a <- load l ;;
  match a with
  | F32Map m => ret m
  | _ => raise TypeError
  end.

(** An in-place update of a 2-D float32 array. *)
Definition update_map (l : loc) (f : matrix spec_float -> result (matrix spec_float)) : M unit :=
  m <- load_map l ;;
  m' <- lift (f m) ;;
  store_at l (F32Map m').

Section WithVision.
Context {V : Vision}.
Variables detection_threshold text_threshold link_threshold : spec_float.
Variable size_threshold : Z.

Definition component_box
           (textmap : loc) (text_score link_score : matrix spec_float)
           (labels : matrix Z) (stats : list cc_stat)
           (component_id : Z) : M (option (list qpoint)) :=
  tm <- load_map textmap ;;
  let '(img_h, img_w) := shape tm in
  st <- lift (getitem stats (Z.to_nat component_id)) ;;
  let size := CC_STAT_AREA st in
  if size <? size_threshold then ret None
  else
    inside <- lift (Boxes.select tm (Boxes.label_mask labels component_id)) ;;
    peak <- lift (Boxes.np_max inside) ;;
    if SFltb (to_f64 peak) detection_threshold then ret None
    else
      (* segmap = np.zeros_like(textmap) *)
      segmap <- alloc (F32Map (matrix_map (fun _ => of_Z32 0) tm)) ;;
      (* segmap[labels == component_id] = 255 *)
      update_map segmap
        (fun s => Boxes.assign s (Boxes.label_mask labels component_id) (of_Z32 255)) ;;;
      (* segmap[np.logical_and(link_score, text_score)] = 0 *)
      update_map segmap
        (fun s => Boxes.assign s (Boxes.logical_and link_score text_score) (of_Z32 0)) ;;;
      let x := CC_STAT_LEFT st in
      let y := CC_STAT_TOP st in
      let w := CC_STAT_WIDTH st in
      let h := CC_STAT_HEIGHT st in
      niter <- lift (Boxes.dilation_iterations size w h) ;;
      let sx := Z.max (x - niter) 0 in
      let sy := Z.max (y - niter) 0 in
      let ex := Z.min (x + w + niter + 1) (Z.of_nat img_w) in
      let ey := Z.min (y + h + niter + 1) (Z.of_nat img_h) in
      (* segmap[sy:ey, sx:ex] = cv2.dilate(segmap[sy:ey, sx:ex], ...) *)
      update_map segmap
        (fun s => Ok (Boxes.set_window s sy ey sx ex
                        (Boxes.dilate (Boxes.window s sy ey sx ex) (1 + niter)))) ;;;
      s <- load_map segmap ;;
      cnt <- lift (getitem (findContours (matrix_map to_u8 s)) 0) ;;
      box <- lift (Boxes.ordered_box cnt) ;;
      ret (Some (scale2 box)).

Fixpoint component_loop
         (textmap : loc) (text_score link_score : matrix spec_float)
         (labels : matrix Z) (stats : list cc_stat)
         (ids : list Z) : M (list (list qpoint)) :=
  match ids with
  | [] => ret []
  | component_id :: ids =>
      b <- component_box textmap text_score link_score labels stats component_id ;;
      boxes <- component_loop textmap text_score link_score labels stats ids ;;
      ret (match b with Some box => box :: boxes | None => boxes end)
  end.

(** The body of the loop over the batch; [y_pred_cur] is the view
    [y_pred[i]], read when the iteration copies its two channels. *)
Definition image_boxes (y_pred : loc) (i : nat) : M (list (list qpoint)) :=
  a <- load y_pred ;;
  match a with
  | F32Batch images =>
      y_pred_cur <- lift (getitem images i) ;;
      (* y_pred_cur[..., 0].copy(), y_pred_cur[..., 1].copy() *)
      textmap <- alloc (F32Map (matrix_map fst y_pred_cur)) ;;
      linkmap <- alloc (F32Map (matrix_map snd y_pred_cur)) ;;
      tm <- load_map textmap ;;
      lm <- load_map linkmap ;;
      let text_score := Boxes.threshold tm text_threshold (of_Z64 1) in
      let link_score := Boxes.threshold lm link_threshold (of_Z64 1) in
      let '(n_components, labels, stats) :=
        connectedComponentsWithStats (Boxes.union_mask text_score link_score) in
      component_loop textmap text_score link_score labels stats (Boxes.range1 n_components)
  | _ => raise TypeError
  end.

Fixpoint image_loop (y_pred : loc) (indices : list nat) : M (list (list (list qpoint))) :=
  match indices with
  | [] => ret []
  | i :: indices =>
      boxes <- image_boxes y_pred i ;;
      box_groups <- image_loop y_pred indices ;;
      ret (boxes :: box_groups)
  end.

Definition getBoxes (y_pred : loc) : M (list (list (list qpoint))) :=
  a <- load y_pred ;;
  match a with
  | F32Batch images => image_loop y_pred (seq 0 (length images))
  | _ => raise TypeError
  end.

End WithVision.

(** The arrays that existed before a call hold what they held. *)
Definition unchanged (s s' : store) : Prop :=
  forall l a, nth_error s l = Some a -> nth_error s' l = Some a.

(** [local s0 m Q]: started in a store that extends [s0], the
    computation [m] ends, normally or with an exception, in a store that
    still extends [s0]; a value it returns satisfies [Q]. *)
Definition local (s0 : store) {A} (m : M A) (Q : A -> Prop) : Prop :=
  forall ext, exists ext',
    snd (m (s0 ++ ext)) = s0 ++ ext' /\
    forall a, fst (m (s0 ++ ext)) = Ok a -> Q a.

End Heap.

(* ================================================================= *)
(** ** Auxiliary notions of the further properties *)

(** [sublist l l']: [l] is [l'] with some elements left out, the order
    of the others kept. *)
Inductive sublist {A : Type} : list A -> list A -> Prop :=
| sublist_nil : sublist [] []
| sublist_skip (a : A) (l l' : list A) : sublist l l' -> sublist l (a :: l')
| sublist_keep (a : A) (l l' : list A) : sublist l l' -> sublist (a :: l) (a :: l').

(** The order of two finite floating-point numbers of sign [+], given by
    exponent and mantissa: exponent first. *)
Definition lex (e1 : Z) (m1 : positive) (e2 : Z) (m2 : positive) : comparison :=
  match Z.compare e1 e2 with
  | Lt => Lt
  | Gt => Gt
  | Eq => Pos.compare_cont Eq m1 m2
  end.

(* ================================================================= *)
(** ** Target synthesis: the characters of the lines *)

Module Targets.
Import Float Synthesis.

(** [c != ' '] *)
Definition is_character (q : char_box) : bool := negb (is_space (c q)).

(** The entries of all lines that are not spaces, in reading order. *)
Definition characters (lines : list line) : list char_box :=
  filter is_character (concat lines).

(** No two neighbours in the line are both characters. *)
Fixpoint isolated (l : line) : bool :=
  match l with
  | [] => true
  | q :: l' =>
      match l' with
      | [] => true
      | q' :: _ => (is_space (c q) || is_space (c q')) && isolated l'
      end
  end.

Section WithWarp.
Context {W : Warp}.
Variable heatmap : matrix Z.
Variable dsize : Z * Z.

(** Lines 136-141: what one character adds to the text map. *)
Definition text_step (t : matrix spec_float) (q : char_box) : result (matrix spec_float) :=
  iadd t (warpPerspective heatmap
                          (getPerspectiveTransform (src heatmap) (character_points q))
                          dsize).

End WithWarp.

End Targets.

(* ================================================================= *)
(** ** Strings and ordered dictionaries *)

Module Py.

(** [s.split(".")]: the pieces between the dots; never empty. *)
Fixpoint split_dot (s : string) : list string :=
  match s with
  | EmptyString => [EmptyString]
  | String ch s' =>
      if Ascii.eqb ch "."%char then EmptyString :: split_dot s'
      else match split_dot s' with
           | [] => [String ch EmptyString]
           | w :: ws => String ch w :: ws
           end
  end.

(** [".".join(l)] *)
Fixpoint join_dot (l : list string) : string :=
  match l with
  | [] => EmptyString
  | w :: ws =>
      match ws with
      | [] => w
      | _ :: _ => String.append w (String "."%char (join_dot ws))
      end
  end.

(** [s.startswith(p)] *)
Definition startswith (s p : string) : bool := String.prefix p s.

(** An [OrderedDict] with string keys: the items in insertion order, no
    key twice. *)
Definition dict (V : Type) : Type := list (string * V).

(** [d[k] = v]: a key already present keeps its place and takes the new
    value; a new key goes to the end. *)
Fixpoint setitem {V} (d : dict V) (k : string) (v : V) : dict V :=
  match d with
  | [] => [(k, v)]
  | (k', v') :: d' =>
      if String.eqb k' k then (k', v) :: d' else (k', v') :: setitem d' k v
  end.

(** [d.get(k)] *)
Fixpoint get {V} (d : dict V) (k : string) : option V :=
  match d with
  | [] => None
  | (k', v') :: d' => if String.eqb k' k then Some v' else get d' k
  end.

(** [l[start:]] for [start >= 0] *)
Definition slice_from {A} (start : nat) (l : list A) : list A := skipn start l.

(** [l[1:-1]] *)
Definition slice_inner {A} (l : list A) : list A := removelast (skipn 1 l).

End Py.

(* ================================================================= *)
(** ** [copyStateDict] of [build_torch_model] *)

Module StateDict.
Import Py.

Section WithTensor.
Variable tensor : Type.

(** [".".join(k.split(".")[start_idx:])] *)
Definition rename (start_idx : nat) (k : string) : string :=
  join_dot (slice_from start_idx (split_dot k)).

Definition copyStateDict (state_dict : dict tensor) : result (dict tensor) :=
  (* list(state_dict.keys())[0] *)
  match state_dict with
  | [] => Raise IndexError
  | (k0, _) :: _ =>
      let start_idx := if startswith k0 "module" then 1%nat else 0%nat in
      Ok (fold_left (fun new_state_dict kv =>
                       setitem new_state_dict (rename start_idx (fst kv)) (snd kv))
                    state_dict [])
  end.

End WithTensor.

(** The key of a parameter of a model wrapped in [DataParallel]. *)
Definition wrapped (k : string) : string := String.append "module." k.

(** The last value [d] holds for a key that [f] sends to [name]. *)
Fixpoint last_value {V} (f : string -> string) (d : dict V) (name : string) : option V :=
  match d with
  | [] => None
  | (k, v) :: d' =>
      match last_value f d' name with
      | Some v' => Some v'
      | None => if String.eqb (f k) name then Some v else None
      end
  end.

End StateDict.

(* ================================================================= *)
(** ** [Detector.detect] *)

Module Detection.
Import Float.
Local Open Scope result_scope.

(** An element of [images]: an array, or the path of a file. *)
Inductive input : Type :=
| Array (a : image Z)
| Path (filepath : string).


Section WithModel.
Context {V : Vision}.
(** [tools.read] *)
Variable read : string -> result (image Z).
(** [self.model.predict]: from a batch of images to a batch of maps. *)
Variable predict :
  list (image spec_float) -> result (list (matrix (spec_float * spec_float))).

(** [compute_input(tools.read(image) if isinstance(image, str) else image)] *)
Definition load (i : input) : result (image spec_float) :=
  a <- match i with
       | Path filepath => read filepath
       | Array a => Ok a
       end ;;
  Ok (Normalise.compute_input a).



End WithModel.

End Detection.

(* ================================================================= *)
(** ** [drawBoxes] *)

(** [cv2.polylines(img, pts, isClosed, color, thickness)] writes the
    polygons into [img]; the function gives the contents of [img] after the
    call. *)
Class Drawing : Type := {
  polylines : Heap.ndarray -> list (list (Z * Z)) -> bool -> rgb Z -> Z -> Heap.ndarray
}.

Module Draw.
Import Heap.
Local Open Scope heap_scope.

(** [astype('int32')] on a coordinate within the range of [int32]:
    truncation toward zero. *)
Definition astype_int32 (q : Q) : Z := Z.quot (Qnum q) (Zpos (Qden q)).

(** [box[np.newaxis].astype('int32')]: one polygon. *)
Definition pts (box : list qpoint) : list (list (Z * Z)) :=
  [map (fun p => (astype_int32 (fst p), astype_int32 (snd p))) box].

Section WithDrawing.
Context {D : Drawing}.
Variable color : rgb Z.
Variable thickness : Z.

(** The loop over [boxes]: every call writes into [canvas]. *)
Fixpoint draw_loop (canvas : loc) (boxes : list (list qpoint)) : M unit :=
  match boxes with
  | [] => ret tt
  | box :: boxes =>
      a <- load canvas ;;
      store_at canvas (polylines a (pts box) true color thickness) ;;;
      draw_loop canvas boxes
  end.

Definition drawBoxes (image : loc) (boxes : list (list qpoint)) : M loc :=
  canvas <- copy image ;;
  draw_loop canvas boxes ;;;
  ret canvas.

End WithDrawing.

(** The defaults of the signature. *)
Definition default_color : rgb Z := (255, 0, 0).
Definition default_thickness : Z := 5.

(** A drawing routine for evaluation: it marks the first pixel of the
    image with the colour, once per polygon. *)
Definition mark_first (a : ndarray) (color : rgb Z) : ndarray :=
  match a with
  | U8Image ((_ :: row) :: rows) => U8Image ((color :: row) :: rows)
  | _ => a
  end.

End Draw.

#[export] Instance reference_drawing : Drawing :=
  {| polylines := fun a pts _ color _ => fold_left (fun a _ => Draw.mark_first a color) pts a |}.

(* ================================================================= *)
(** ** [map_to_rgb] *)

Module Colour.
Import Float.

(** One channel of the float64 array: [x * 255], then [astype('uint8')]. *)
Definition channel (x : spec_float) : Z := to_u8 (mul64 x (of_Z64 255)).

(** [np.concatenate([y, np.zeros((h, w, 1))], axis=-1)] is a float64 array
    of three channels: the two of [y], widened, and a channel of zeros. *)
Definition map_to_rgb (y : matrix (spec_float * spec_float)) : image Z :=
  matrix_map (fun tl => (channel (to_f64 (fst tl)),
                         channel (to_f64 (snd tl)),
                         channel (of_Z64 0))) y.

(** [255 * x], truncated to an integer: no reduction modulo 256. *)
Definition scaled (x : spec_float) : Z := trunc (mul64 (to_f64 x) (of_Z64 255)).

(** A value [m * 2^e] in [0, K]. *)
Definition within (K : Z) (x : spec_float) : Prop :=
  (exists s, x = S754_zero s) \/
  exists m e, x = S754_finite false m e /\ e <= 0 /\ Zpos m <= K * 2 ^ (- e).

End Colour.

(* ================================================================= *)
(** ** [load_torch_weights] *)

Module Weights.
Import Py.
Local Open Scope string_scope.

(** What [isinstance] tells the loader about a layer. *)
Inductive kind : Type :=
| BatchNormalization
| Conv2D
| Other.

(** The exceptions of the loader. *)
Inductive error : Type :=
| UnboundLocalError
| KeyError (k : string)
| NotImplementedError
| ValueError
| AssertionError.

Inductive outcome (A : Type) : Type :=
| Returns (a : A)
| Raises (e : error).

Arguments Returns {A} a.
Arguments Raises {A} e.

Definition and_then {A B} (m : outcome A) (k : A -> outcome B) : outcome B :=
  match m with
  | Returns a => k a
  | Raises e => Raises e
  end.

(** ['.'.join(k.split('.')[1:-1])] *)
Definition layer_name_of (k : string) : string :=
  join_dot (slice_inner (split_dot k)).

(** [k.split('.')[-1] != 'num_batches_tracked'] *)
Definition is_parameter (k : string) : bool :=
  negb (String.eqb (last (split_dot k) "") "num_batches_tracked").

(** [f'module.{layer_name}.{suffix}'] *)
Definition key (layer_name suffix : string) : string :=
  "module." ++ layer_name ++ "." ++ suffix.

(** [list(set(names))]: the names without repetition, in some order. *)
Definition enumerates (layer_names names : list string) : Prop :=
  NoDup layer_names /\ forall n, In n layer_names <-> In n names.

Section WithTensor.
Variable tensor : Type.
(** [w.transpose(2, 3, 1, 0)]; [None] for an array that has not four
    axes. *)
Variable transpose : tensor -> option tensor.

Record layer : Type := {
  name : string;
  layer_kind : kind;
  weights : list tensor
}.

(** Whether [layer.set_weights(ws)] takes [ws]: number and shapes. *)
Variable accepts : layer -> list tensor -> bool.

(** [model.layers] *)
Definition model : Type := list layer.

(** [model.get_layer(name)]: the first layer of that name. *)
Definition get_layer (m : model) (n : string) : option layer :=
  find (fun l => String.eqb (name l) n) m.

(** The effect of [layer.set_weights(ws)] on the model that holds the
    layer found under the name [n]. *)
Fixpoint set_weights (m : model) (n : string) (ws : list tensor) : model :=
  match m with
  | [] => []
  | l :: m' =>
      if String.eqb (name l) n
      then {| name := name l; layer_kind := layer_kind l; weights := ws |} :: m'
      else l :: set_weights m' n ws
  end.

(** [pretrained[k]] *)
Definition getitem (pretrained : dict tensor) (k : string) : outcome tensor :=
  match get pretrained k with
  | Some t => Returns t
  | None => Raises (KeyError k)
  end.

(** The names the comprehension collects, with repetitions. *)
Definition names (pretrained : dict tensor) : list string :=
  map layer_name_of (filter is_parameter (map fst pretrained)).

(** The state of the first loop: the layers, the name of the layer the
    variable [layer] is bound to ([None] before the first assignment), and
    what has been printed. *)
Record state : Type := {
  layers : model;
  layer_var : option string;
  printed : list string
}.

Definition assign (st : state) (l : layer) (ws : list tensor) : outcome state :=
  if accepts l ws
  then Returns {| layers := set_weights (layers st) (name l) ws;
                  layer_var := Some (name l);
                  printed := printed st |}
  else Raises ValueError.

(** The body of the first loop. *)
Definition step (pretrained : dict tensor) (st : state) (layer_name : string)
  : outcome state :=
  match get_layer (layers st) layer_name with
  | None =>
      (* except Exception: print('Skipping', layer.name); continue *)
      match layer_var st with
      | None => Raises UnboundLocalError
      | Some stale =>
          Returns {| layers := layers st;
                     layer_var := layer_var st;
                     printed := printed st ++ ["Skipping " ++ stale] |}
      end
  | Some l =>
      match layer_kind l with
      | BatchNormalization =>
          and_then (getitem pretrained (key layer_name "weight")) (fun gamma =>
          and_then (getitem pretrained (key layer_name "bias")) (fun beta =>
          and_then (getitem pretrained (key layer_name "running_mean")) (fun running_mean =>
          and_then (getitem pretrained (key layer_name "running_var")) (fun running_std =>
          assign st l [gamma; beta; running_mean; running_std]))))
      | Conv2D =>
          and_then (getitem pretrained (key layer_name "weight")) (fun w =>
          and_then (getitem pretrained (key layer_name "bias")) (fun bias =>
          match transpose w with
          | Some w' => assign st l [w'; bias]
          | None => Raises ValueError
          end))
      | Other => Raises NotImplementedError
      end
  end.

Fixpoint first_loop (pretrained : dict tensor) (layer_names : list string) (st : state)
  : outcome state :=
  match layer_names with
  | [] => Returns st
  | layer_name :: layer_names =>
      and_then (step pretrained st layer_name) (first_loop pretrained layer_names)
  end.

(** The second loop: [assert layer.name in layer_names]. *)
Definition all_named (m : model) (layer_names : list string) : bool :=
  forallb (fun l =>
             match layer_kind l with
             | Other => true
             | _ => existsb (String.eqb (name l)) layer_names
             end) m.

(** [load_torch_weights], with the order in which the set of names is
    gone through given: the layers after the call and what was printed. *)
Definition load_torch_weights (layer_names : list string)
           (m : model) (pretrained : dict tensor) : outcome (model * list string) :=
  and_then (first_loop pretrained layer_names
                       {| layers := m; layer_var := None; printed := [] |})
           (fun st =>
              if all_named (layers st) layer_names
              then Returns (layers st, printed st)
              else Raises AssertionError).

(** What the file holds for the layer [l]: the weights the loader is to
    give it. *)
Definition loaded (pretrained : dict tensor) (l : layer) : Prop :=
  match layer_kind l with
  | BatchNormalization =>
      exists gamma beta running_mean running_std,
        get pretrained (key (name l) "weight") = Some gamma /\
        get pretrained (key (name l) "bias") = Some beta /\
        get pretrained (key (name l) "running_mean") = Some running_mean /\
        get pretrained (key (name l) "running_var") = Some running_std /\
        weights l = [gamma; beta; running_mean; running_std]
  | Conv2D =>
      exists w bias w',
        get pretrained (key (name l) "weight") = Some w /\
        get pretrained (key (name l) "bias") = Some bias /\
        transpose w = Some w' /\
        weights l = [w'; bias]
  | Other => False
  end.

(** The variable [layer] and the lines printed name layers of the model
    [m]. *)
Definition names_layers (m : model) (st : state) : Prop :=
  map name (layers st) = map name m /\
  (forall stale, layer_var st = Some stale -> In stale (map name m)) /\
  Forall (fun line => exists n, In n (map name m) /\ line = "Skipping " ++ n)
         (printed st).

(** A layer [l'] of the model once the names [visited] have been gone
    through, against the layer [l] it was before the call. *)
Definition progress (pretrained : dict tensor) (visited : list string) (l l' : layer)
  : Prop :=
  name l' = name l /\ layer_kind l' = layer_kind l /\
  (In (name l) visited -> loaded pretrained l') /\
  (~ In (name l) visited -> weights l' = weights l).

End WithTensor.

Arguments name {tensor} l.
Arguments layer_kind {tensor} l.
Arguments weights {tensor} l.
Arguments layers {tensor} s.
Arguments layer_var {tensor} s.
Arguments printed {tensor} s.
Arguments get_layer {tensor} m n.
Arguments set_weights {tensor} m n ws.
Arguments getitem {tensor} pretrained k.
Arguments names {tensor} pretrained.
Arguments assign {tensor} accepts st l ws.
Arguments step {tensor} transpose accepts pretrained st layer_name.
Arguments first_loop {tensor} transpose accepts pretrained layer_names st.
Arguments all_named {tensor} m layer_names.
Arguments load_torch_weights {tensor} transpose accepts layer_names m pretrained.
Arguments loaded {tensor} transpose pretrained l.
Arguments names_layers {tensor} m st.
Arguments progress {tensor} transpose pretrained visited l l'.

End Weights.

(** A model of three layers and a file with the parameters of two of
    them; tensors are numbers, transposing adds 100. *)
Module WeightsSample.
Import Weights.
Local Open Scope string_scope.

Definition sample_model : model Z :=
  [ {| name := "conv"; layer_kind := Conv2D; weights := [] |};
    {| name := "relu"; layer_kind := Other; weights := [] |};
    {| name := "bn"; layer_kind := BatchNormalization; weights := [] |} ].

Definition sample_pretrained : Py.dict Z :=
  [ ("module.conv.weight", 1); ("module.conv.bias", 2);
    ("module.bn.weight", 3); ("module.bn.bias", 4);
    ("module.bn.running_mean", 5); ("module.bn.running_var", 6);
    ("module.bn.num_batches_tracked", 7) ].

Definition sample_transpose (t : Z) : option Z := Some (t + 100).

Definition sample_accepts (l : layer Z) (ws : list Z) : bool := true.

End WeightsSample.

(* ================================================================= *)
(** ** Normalising and denormalising in sequence *)

Module RoundTrip.

(** [invert_input(compute_input(image))] *)
Definition roundtrip (im : image Z) : image Z :=
  Normalise.invert_input (Normalise.compute_input im).

(** The same on the store: the location of the result. *)
Definition roundtrip_store (arg : Heap.loc) : Heap.M Heap.loc :=
  Heap.mbind (Heap.compute_input arg) Heap.invert_input.

End RoundTrip.

(* ################################################################# *)
(** * Properties *)

(* ================================================================= *)
(** ** Generic facts *)

(** A decidable property of an 8-bit value holds as soon as it holds on
    the 256 of them. *)
Lemma forall_u8 (P : Z -> bool) :
  forallb P (map Z.of_nat (seq 0 256)) = true ->
  forall v, valid_u8 v -> P v = true.
Proof.
  intros Hall v [Hlo Hhi].
  rewrite forallb_forall in Hall. apply Hall.
  apply in_map_iff. exists (Z.to_nat v). split.
  - apply Z2Nat.id. exact Hlo.
  - apply in_seq. lia.
Qed.

Lemma Forall2_map_r {A B} (P : A -> B -> Prop) (f : A -> B) (l : list A) :
  Forall (fun a => P a (f a)) l -> Forall2 P l (map f l).
Proof.
  induction 1; simpl; constructor; assumption.
Qed.

(* ================================================================= *)
(** ** Normalisation *)

Section NormaliseFacts.
Import Float Normalise.

Lemma roundtrip_px_channels (r g b : Z) :
  invert_input_px (compute_input_px (rgb_map of_Z32 (r, g, b))) =
  (roundtrip_channel (fst (fst mean255)) (fst (fst variance255)) r,
   roundtrip_channel (snd (fst mean255)) (snd (fst variance255)) g,
   roundtrip_channel (snd mean255) (snd variance255) b).
Proof.
  unfold invert_input_px, compute_input_px, mean255, variance255, mean, variance,
    roundtrip_channel.
  cbn [rgb_map rgb_map2 fst snd]. reflexivity.
Qed.

Lemma roundtrip_red (v : Z) :
  valid_u8 v ->
  within1 v (roundtrip_channel (fst (fst mean255)) (fst (fst variance255)) v).
Proof.
  intros Hv.
  assert (H : within1b v (roundtrip_channel (fst (fst mean255)) (fst (fst variance255)) v) = true).
  { revert v Hv.
    apply (forall_u8 (fun v => within1b v (roundtrip_channel (fst (fst mean255))
                                                              (fst (fst variance255)) v))).
    vm_compute. reflexivity. }
  unfold within1b in H. apply andb_true_iff in H as [H1 H2].
  unfold within1. split; [apply Z.leb_le, H1 | apply Z.leb_le, H2].
Qed.

Lemma roundtrip_green (v : Z) :
  valid_u8 v ->
  within1 v (roundtrip_channel (snd (fst mean255)) (snd (fst variance255)) v).
Proof.
  intros Hv.
  assert (H : within1b v (roundtrip_channel (snd (fst mean255)) (snd (fst variance255)) v) = true).
  { revert v Hv.
    apply (forall_u8 (fun v => within1b v (roundtrip_channel (snd (fst mean255))
                                                              (snd (fst variance255)) v))).
    vm_compute. reflexivity. }
  unfold within1b in H. apply andb_true_iff in H as [H1 H2].
  unfold within1. split; [apply Z.leb_le, H1 | apply Z.leb_le, H2].
Qed.

Lemma roundtrip_blue (v : Z) :
  valid_u8 v ->
  within1 v (roundtrip_channel (snd mean255) (snd variance255) v).
Proof.
  intros Hv.
  assert (H : within1b v (roundtrip_channel (snd mean255) (snd variance255) v) = true).
  { revert v Hv.
    apply (forall_u8 (fun v => within1b v (roundtrip_channel (snd mean255)
                                                              (snd variance255) v))).
    vm_compute. reflexivity. }
  unfold within1b in H. apply andb_true_iff in H as [H1 H2].
  unfold within1. split; [apply Z.leb_le, H1 | apply Z.leb_le, H2].
Qed.

Lemma roundtrip_pixel (p : rgb Z) :
  rgb_all valid_u8 p ->
  rgb_all2 within1 p (invert_input_px (compute_input_px (rgb_map of_Z32 p))).
Proof.
  destruct p as [[r g] b]. intros (Hr & Hg & Hb).
  rewrite roundtrip_px_channels. cbn [rgb_all2].
  split; [exact (roundtrip_red r Hr) | split].
  - exact (roundtrip_green g Hg).
  - exact (roundtrip_blue b Hb).
Qed.

(** C5: for every 8-bit RGB image, [invert_input (compute_input I)] has
    the shape of [I] and differs from it by at most 1 in every channel of
    every pixel. *)
Theorem invert_compute_input_within_one (im : image Z) :
  image_all valid_u8 im ->
  image_all2 within1 im (invert_input (compute_input im)).
Proof.
  unfold image_all, image_all2, invert_input, compute_input, image_map.
  intros Hall. rewrite !map_map.
  apply Forall2_map_r.
  eapply Forall_impl; [|exact Hall].
  intros row Hrow. rewrite !map_map. apply Forall2_map_r.
  eapply Forall_impl; [|exact Hrow].
  intros p Hp. apply roundtrip_pixel, Hp.
Qed.

Lemma invert_compute_input_within_one_witness :
  image_all valid_u8 sample_image /\
  image_all2 within1 sample_image (invert_input (compute_input sample_image)).
Proof.
  assert (H : image_all valid_u8 sample_image).
  { unfold sample_image, image_all, valid_u8.
    repeat constructor; cbn; lia. }
  split; [exact H | apply (invert_compute_input_within_one sample_image H)].
Defined.

(** The tolerance cannot be dropped: value 1 comes back as 0 in the red
    channel. *)
Example roundtrip_not_exact :
  invert_input (compute_input [[(1, 1, 1)]]) = [[(0, 1, 1)]].
Proof. vm_compute. reflexivity. Qed.

End NormaliseFacts.

(* ================================================================= *)
(** ** Comparison of floating-point values *)

Lemma SFcompare_antisym (x y : spec_float) :
  SFcompare y x = option_map CompOpp (SFcompare x y).
Proof.
  destruct x as [sx|sx| |sx mx ex], y as [sy|sy| |sy my ey]; simpl;
    try reflexivity;
    try (destruct sx; reflexivity); try (destruct sy; reflexivity);
    try (destruct sx, sy; reflexivity).
  destruct sx, sy; simpl; try reflexivity.
  - rewrite (Z.compare_antisym ex ey).
    destruct (ex ?= ey)%Z; simpl; try reflexivity.
    exact (f_equal (fun c => Some (CompOpp c))
                   (eq_sym (Pos.compare_cont_antisym mx my Eq))).
  - rewrite (Z.compare_antisym ex ey).
    destruct (ex ?= ey)%Z; simpl; try reflexivity.
    exact (f_equal Some (eq_sym (Pos.compare_cont_antisym mx my Eq))).
Qed.

Lemma SFeqb_not_SFltb (x y : spec_float) :
  SFeqb x y = true -> SFltb y x = false.
Proof.
  unfold SFeqb, SFltb. rewrite (SFcompare_antisym x y).
  destruct (SFcompare x y) as [[]|]; simpl; congruence.
Qed.

Lemma lex_Lt e1 m1 e2 m2 :
  lex e1 m1 e2 m2 = Lt <-> (e1 < e2 \/ (e1 = e2 /\ Zpos m1 < Zpos m2)).
Proof.
  unfold lex. change (Pos.compare_cont Eq m1 m2) with (Pos.compare m1 m2).
  destruct (Z.compare_spec e1 e2) as [He|He|He];
    destruct (Pos.compare_spec m1 m2) as [Hm|Hm|Hm];
    split; intros H; try discriminate; try reflexivity; try lia.
Qed.

Lemma lex_Gt e1 m1 e2 m2 :
  lex e1 m1 e2 m2 = Gt <-> (e2 < e1 \/ (e1 = e2 /\ Zpos m2 < Zpos m1)).
Proof.
  unfold lex. change (Pos.compare_cont Eq m1 m2) with (Pos.compare m1 m2).
  destruct (Z.compare_spec e1 e2) as [He|He|He];
    destruct (Pos.compare_spec m1 m2) as [Hm|Hm|Hm];
    split; intros H; try discriminate; try reflexivity; try lia.
Qed.

Lemma lex_Eq e1 m1 e2 m2 :
  lex e1 m1 e2 m2 = Eq <-> (e1 = e2 /\ Zpos m1 = Zpos m2).
Proof.
  unfold lex. change (Pos.compare_cont Eq m1 m2) with (Pos.compare m1 m2).
  destruct (Z.compare_spec e1 e2) as [He|He|He];
    destruct (Pos.compare_spec m1 m2) as [Hm|Hm|Hm];
    split; intros H; try discriminate; try reflexivity; try lia.
Qed.

Lemma SFcompare_finite s1 m1 e1 s2 m2 e2 :
  SFcompare (S754_finite s1 m1 e1) (S754_finite s2 m2 e2)
  = Some (match s1, s2 with
          | true, false => Lt
          | false, true => Gt
          | false, false => lex e1 m1 e2 m2
          | true, true => CompOpp (lex e1 m1 e2 m2)
          end).
Proof.
  unfold lex. cbn [SFcompare]. destruct s1, s2; try reflexivity.
  destruct (e1 ?= e2); reflexivity.
Qed.

Ltac lex_destruct_in H :=
  match type of H with
  | context [lex ?a ?b ?c ?d] =>
      let E := fresh "E" in
      destruct (lex a b c d) eqn:E; cbn [CompOpp] in H; try discriminate H
  | _ => idtac
  end.

Ltac lex_destruct_goal :=
  match goal with
  | |- context [lex ?a ?b ?c ?d] =>
      let E := fresh "E" in
      destruct (lex a b c d) eqn:E; cbn [CompOpp]
  | _ => idtac
  end.

Ltac lex_facts :=
  repeat match goal with
         | E : lex _ _ _ _ = Lt |- _ => apply lex_Lt in E
         | E : lex _ _ _ _ = Gt |- _ => apply lex_Gt in E
         | E : lex _ _ _ _ = Eq |- _ => apply lex_Eq in E
         end.

Lemma SFltb_SFleb_trans (x y z : spec_float) :
  SFltb x y = true -> SFleb y z = true -> SFltb x z = true.
Proof.
  unfold SFltb, SFleb.
  destruct x as [sx|sx| |sx mx ex], y as [sy|sy| |sy my ey], z as [sz|sz| |sz mz ez];
    rewrite ?SFcompare_finite;
    try (cbn [SFcompare]; try destruct sx; try destruct sy; try destruct sz;
         intros H1 H2; first [discriminate H1 | discriminate H2 | reflexivity]).
  destruct sx, sy, sz; cbn [CompOpp]; intros H1 H2;
    first [discriminate H1 | discriminate H2 | reflexivity | idtac];
    lex_destruct_in H1; lex_destruct_in H2; lex_destruct_goal;
    first [reflexivity | lex_facts; exfalso; lia].
Qed.

Lemma SFleb_of_SFltb (x y : spec_float) : SFltb x y = true -> SFleb x y = true.
Proof.
  unfold SFltb, SFleb. destruct (SFcompare x y) as [[]|]; congruence.
Qed.

Lemma SFltb_trans (x y z : spec_float) :
  SFltb x y = true -> SFltb y z = true -> SFltb x z = true.
Proof.
  intros Hxy Hyz. exact (SFltb_SFleb_trans x y z Hxy (SFleb_of_SFltb y z Hyz)).
Qed.

Lemma SFltb_irrefl (x : spec_float) : SFltb x x = false.
Proof.
  unfold SFltb. pose proof (SFcompare_antisym x x) as H.
  destruct (SFcompare x x) as [[]|]; try reflexivity. discriminate H.
Qed.




(* ================================================================= *)
(** ** Binarisation *)

Section ThresholdFacts.
Import Float Boxes.

(** C2 as stated fails: a pixel equal to the threshold is mapped to 0 by
    the code, to 1 by the specification. *)
Lemma threshold_equal_pixel_differs :
  threshold [[to_f32 (literal64 5 10)]] (literal64 5 10) (of_Z64 1)
  <> spec_threshold [[to_f32 (literal64 5 10)]] (literal64 5 10).
Proof. vm_compute. discriminate. Qed.

(** At the default threshold 0.4 likewise: the pixel holding the float32
    nearest to 0.4 is not foreground. *)
Example threshold_default_equal_pixel :
  threshold [[to_f32 (literal64 4 10)]] (literal64 4 10) (of_Z64 1) = [[of_Z32 0]].
Proof. vm_compute. reflexivity. Qed.

(** C2, amended: a pixel becomes 1 exactly when its value is strictly
    greater than the threshold, and 0 otherwise; a pixel equal to the
    threshold becomes 0. *)
Theorem threshold_strictly_greater (src : matrix spec_float) (thresh : spec_float) :
  Forall2 (Forall2 (fun v o =>
                      (SFltb (to_f32 thresh) v = true -> o = of_Z32 1) /\
                      (SFltb (to_f32 thresh) v = false -> o = of_Z32 0) /\
                      (SFeqb v (to_f32 thresh) = true -> o = of_Z32 0)))
          src (threshold src thresh (of_Z64 1)).
Proof.
  unfold threshold, matrix_map.
  apply Forall2_map_r, Forall_forall. intros row _.
  apply Forall2_map_r, Forall_forall. intros v _.
  assert (Hone : to_f32 (of_Z64 1) = of_Z32 1) by (vm_compute; reflexivity).
  rewrite Hone.
  repeat split.
  - intros H. rewrite H. reflexivity.
  - intros H. rewrite H. reflexivity.
  - intros H. apply SFeqb_not_SFltb in H. rewrite H. reflexivity.
Qed.

End ThresholdFacts.

(* ================================================================= *)
(** ** Target synthesis: dimensions and labels *)

Section SynthesisFacts.
Import Float Synthesis.
Context {W : Warp}.

Lemma iadd_ok_or_value_error m warped : ok_or_value_error (iadd m warped).
Proof.
  unfold iadd. destruct (same_shape m warped); [left; eauto | right; reflexivity].
Qed.

Lemma char_step_ok_or_value_error heatmap dsize st q :
  ok_or_value_error (char_step heatmap dsize st q).
Proof.
  unfold char_step. destruct st as [m prev].
  destruct (is_space (c q)); [left; eauto|].
  destruct prev as [prev|]; cbn [bind].
  - destruct (iadd_ok_or_value_error (linkmap m)
                (warpPerspective heatmap
                   (getPerspectiveTransform (src heatmap)
                      (map point_f32
                           [fst prev; fst (current_link_points q);
                            snd (current_link_points q); snd prev])) dsize))
      as [[l Hl]|Hl]; rewrite Hl; cbn [bind]; [|right; reflexivity].
    destruct (iadd_ok_or_value_error (textmap m)
                (warpPerspective heatmap
                   (getPerspectiveTransform (src heatmap) (character_points q)) dsize))
      as [[t Ht]|Ht]; rewrite Ht; cbn [bind]; [left; eauto | right; reflexivity].
  - destruct (iadd_ok_or_value_error (textmap m)
                (warpPerspective heatmap
                   (getPerspectiveTransform (src heatmap) (character_points q)) dsize))
      as [[t Ht]|Ht]; rewrite Ht; cbn [bind]; [left; eauto | right; reflexivity].
Qed.

Lemma foldM_ok_or_value_error {A S} (f : S -> A -> result S) :
  (forall s a, ok_or_value_error (f s a)) ->
  forall l s, ok_or_value_error (foldM f l s).
Proof.
  intros Hf. induction l as [|a l IH]; intros s; cbn [foldM].
  - left. eauto.
  - destruct (Hf s a) as [[s' Hs]|Hs]; rewrite Hs; cbn [bind].
    + apply IH.
    + right. reflexivity.
Qed.

Lemma line_step_ok_or_value_error heatmap dsize m l :
  ok_or_value_error (line_step heatmap dsize m l).
Proof.
  unfold line_step.
  destruct (foldM_ok_or_value_error (char_step heatmap dsize)
              (char_step_ok_or_value_error heatmap dsize) l (m, None))
    as [[st Hst]|Hst]; rewrite Hst; cbn [bind]; [left; eauto | right; reflexivity].
Qed.

Lemma mod2_odd (z : Z) : (z mod 2 =? 0) = negb (Z.odd z).
Proof.
  rewrite Zmod_odd. destruct (Z.odd z); reflexivity.
Qed.

(** C4: [compute_maps] raises the assertion error of an invalid dimension
    if and only if the height or the width is odd. *)
Theorem compute_maps_assertion_iff_odd
        (heatmap : matrix Z) (image_height image_width : Z) (lines : list line) :
  (exists msg, compute_maps heatmap image_height image_width lines
               = Raise (AssertionError msg))
  <-> (Z.odd image_height = true \/ Z.odd image_width = true).
Proof.
  unfold compute_maps, assert. rewrite !mod2_odd.
  destruct (Z.odd image_height) eqn:Hh; cbn [negb bind].
  { split; [intros _; left; reflexivity | intros _; eauto]. }
  destruct (Z.odd image_width) eqn:Hw; cbn [negb bind].
  { split; [intros _; right; reflexivity | intros _; eauto]. }
  split; [|intros [H|H]; discriminate].
  intros [msg Hmsg]. exfalso.
  destruct ((image_height / 2 <? 0) || (image_width / 2 <? 0)); [discriminate|].
  match type of Hmsg with
  | bind (foldM ?f ?l ?s) _ = _ =>
      destruct (foldM_ok_or_value_error f
                  (line_step_ok_or_value_error heatmap _) l s) as [[m Hm]|Hm];
        rewrite Hm in Hmsg; cbn [bind] in Hmsg; discriminate
  end.
Qed.

(** An odd dimension is refused with the message of the assertion; it is
    not rounded down to the even number below. *)
Example compute_maps_odd_height heatmap lines :
  compute_maps heatmap 7 8 lines = Raise (AssertionError "Height must be an even number").
Proof. reflexivity. Qed.

Example compute_maps_odd_width heatmap lines :
  compute_maps heatmap 8 7 lines = Raise (AssertionError "Width must be an even number").
Proof. reflexivity. Qed.

Lemma char_step_same_layout heatmap dsize st q q' :
  same_layout q q' ->
  char_step heatmap dsize st q = char_step heatmap dsize st q'.
Proof.
  intros (H1 & H2 & H3 & H4 & H5 & H6 & H7 & H8 & Hc).
  unfold char_step, current_link_points, character_points.
  rewrite H1, H2, H3, H4, H5, H6, H7, H8, Hc. reflexivity.
Qed.

Lemma line_step_same_layout heatmap dsize m l l' :
  Forall2 same_layout l l' ->
  line_step heatmap dsize m l = line_step heatmap dsize m l'.
Proof.
  intros Hl. unfold line_step. f_equal.
  generalize (m, @None (point * point)) as st.
  induction Hl as [|q q' l l' Hq Hl IH]; intros st; cbn [foldM]; [reflexivity|].
  rewrite (char_step_same_layout heatmap dsize st q q' Hq).
  destruct (char_step heatmap dsize st q'); cbn [bind]; [apply IH | reflexivity].
Qed.

(** C10: two inputs with the same quadrilaterals, whose labels agree on
    being the space, give the same text and link maps. *)
Theorem compute_maps_label_independent
        (heatmap : matrix Z) (image_height image_width : Z) (lines lines' : list line) :
  Forall2 (Forall2 same_layout) lines lines' ->
  compute_maps heatmap image_height image_width lines
  = compute_maps heatmap image_height image_width lines'.
Proof.
  intros Hlines. unfold compute_maps.
  destruct (assert (image_height mod 2 =? 0) _); cbn [bind]; [|reflexivity].
  destruct (assert (image_width mod 2 =? 0) _); cbn [bind]; [|reflexivity].
  destruct ((image_height / 2 <? 0) || (image_width / 2 <? 0)); [reflexivity|].
  f_equal.
  generalize {| textmap := zeros (of_Z32 0) (Z.to_nat (image_height / 2))
                                 (Z.to_nat (image_width / 2));
                linkmap := zeros (of_Z32 0) (Z.to_nat (image_height / 2))
                                 (Z.to_nat (image_width / 2)) |} as m.
  induction Hlines as [|l l' ls ls' Hl Hls IH]; intros m; cbn [foldM]; [reflexivity|].
  rewrite (line_step_same_layout heatmap _ m l l' Hl).
  destruct (line_step heatmap _ m l'); cbn [bind]; [apply IH | reflexivity].
Qed.

End SynthesisFacts.

(* ================================================================= *)
(** ** Order of the corners of a box *)

Section GeometryFacts.
Import Geometry.
Local Open Scope Q_scope.









End GeometryFacts.

(* ================================================================= *)
(** ** Box extraction *)

Section BoxesFacts.
Import Float Geometry Boxes.
Context {V : Vision}.


(** Whatever implements the interface: when [boxPoints] returns the
    corners of the slanted rectangle, the sums of [left] and [top] are one
    and the same float32, [argmin] stops at [left], the first of the two,
    and the box starts there. *)
Lemma ordered_box_float32_tie (cnt : contour) :
  minAreaRect_boxPoints cnt = (Slanted.bottom, Slanted.left, Slanted.top, Slanted.right) ->
  near_square (norm Slanted.bottom Slanted.left) (norm Slanted.left Slanted.top) = false ->
  SFeqb (sum32 Slanted.left) (sum32 Slanted.top) = true /\
  ordered_box cnt = Ok [Slanted.left; Slanted.top; Slanted.right; Slanted.bottom].
Proof.
  intros Hbox Hsq. split; [vm_compute; reflexivity|].
  unfold ordered_box. rewrite Hbox, Hsq.
  replace (argmin (map sum32 [Slanted.bottom; Slanted.left; Slanted.top; Slanted.right]))
    with 1%nat by (vm_compute; reflexivity).
  reflexivity.
Qed.




(** Raising the size threshold turns some components into skipped ones
    and changes nothing else. *)
Lemma component_box_size_threshold det s1 s2 tm ts ls labels stats id b1 :
  s1 <= s2 ->
  component_box det s1 tm ts ls labels stats id = Ok b1 ->
  exists b2, component_box det s2 tm ts ls labels stats id = Ok b2 /\
             (b2 = None \/ b2 = b1).
Proof.
  intros Hs. unfold component_box. destruct (shape tm) as [img_h img_w].
  destruct (getitem stats (Z.to_nat id)) as [st|]; cbn [bind]; [|discriminate].
  destruct (CC_STAT_AREA st <? s1) eqn:H1, (CC_STAT_AREA st <? s2) eqn:H2.
  - intros H. exists None. split; [reflexivity | left; reflexivity].
  - apply Z.ltb_lt in H1. apply Z.ltb_ge in H2. lia.
  - intros _. exists None. split; [reflexivity | left; reflexivity].
  - intros H. exists b1. split; [exact H | right; reflexivity].
Qed.

Lemma component_loop_size_threshold det s1 s2 tm ts ls labels stats ids boxes1 :
  s1 <= s2 ->
  component_loop det s1 tm ts ls labels stats ids = Ok boxes1 ->
  exists boxes2, component_loop det s2 tm ts ls labels stats ids = Ok boxes2 /\
                 (length boxes2 <= length boxes1)%nat.
Proof.
  intros Hs. revert boxes1.
  induction ids as [|id ids IH]; intros boxes1; cbn [component_loop].
  - intros H. exists []. split; [reflexivity|]. injection H as <-. apply Nat.le_refl.
  - destruct (component_box det s1 tm ts ls labels stats id) as [b1|] eqn:Hb1;
      cbn [bind]; [|discriminate].
    destruct (component_loop det s1 tm ts ls labels stats ids) as [bs1|];
      cbn [bind]; [|discriminate].
    intros H. injection H as <-.
    destruct (component_box_size_threshold _ _ _ _ _ _ _ _ _ _ Hs Hb1) as (b2 & Hb2 & Hrel).
    destruct (IH bs1 eq_refl) as (bs2 & Hbs2 & Hlen).
    rewrite Hb2, Hbs2. cbn [bind]. eexists. split; [reflexivity|].
    destruct Hrel as [-> | ->].
    + destruct b1; cbn [length]; lia.
    + destruct b1; cbn [length]; lia.
Qed.

(** C7: with every other argument fixed, a call with a size threshold at
    least as large returns whenever the call with the smaller one does,
    and returns no more boxes for any image of the batch. *)
Theorem getBoxes_size_threshold_monotone
        (detection_threshold text_threshold link_threshold : spec_float)
        (sizeThreshold1 sizeThreshold2 : Z)
        (y_pred : list (matrix (spec_float * spec_float)))
        (box_groups1 : list (list (list qpoint))) :
  sizeThreshold1 <= sizeThreshold2 ->
  getBoxes detection_threshold text_threshold link_threshold sizeThreshold1 y_pred
  = Ok box_groups1 ->
  exists box_groups2,
    getBoxes detection_threshold text_threshold link_threshold sizeThreshold2 y_pred
    = Ok box_groups2 /\
    Forall2 (fun boxes2 boxes1 => (length boxes2 <= length boxes1)%nat)
            box_groups2 box_groups1.
Proof.
  intros Hs. revert box_groups1.
  induction y_pred as [|y_pred_cur y_pred IH]; intros groups1; cbn [getBoxes].
  - intros H. injection H as <-. exists []. split; [reflexivity | constructor].
  - destruct (image_boxes _ _ _ sizeThreshold1 y_pred_cur) as [boxes1|] eqn:Hb1;
      cbn [bind]; [|discriminate].
    destruct (getBoxes _ _ _ sizeThreshold1 y_pred) as [gs1|]; cbn [bind]; [|discriminate].
    intros H. injection H as <-.
    destruct (IH gs1 eq_refl) as (gs2 & Hgs2 & Hall).
    unfold image_boxes in Hb1 |- *.
    destruct (connectedComponentsWithStats _) as [[n labels] stats].
    destruct (component_loop_size_threshold _ _ _ _ _ _ _ _ _ _ Hs Hb1)
      as (boxes2 & Hb2 & Hlen).
    rewrite Hb2, Hgs2. cbn [bind]. eexists. split; [reflexivity|].
    constructor; assumption.
Qed.

End BoxesFacts.

(* ================================================================= *)
(** ** A component that is all overlap *)

Section OverlapFacts.
Import Float Boxes.

(** A component that passes both filters and whose segmentation map is
    blank after the dilation: [contours[0]] raises. *)
Lemma component_box_blank (V : Vision) det size_threshold tm ts ls labels stats id
      (img_h img_w : nat) st inside peak seg1 seg2 niter :
  shape tm = (img_h, img_w) ->
  getitem stats (Z.to_nat id) = Ok st ->
  (CC_STAT_AREA st <? size_threshold) = false ->
  select tm (label_mask labels id) = Ok inside ->
  np_max inside = Ok peak ->
  SFltb (to_f64 peak) det = false ->
  assign (matrix_map (fun _ => of_Z32 0) tm) (label_mask labels id) (of_Z32 255) = Ok seg1 ->
  assign seg1 (logical_and ls ts) (of_Z32 0) = Ok seg2 ->
  dilation_iterations (CC_STAT_AREA st) (CC_STAT_WIDTH st) (CC_STAT_HEIGHT st) = Ok niter ->
  blank (matrix_map to_u8
           (let sx := Z.max (CC_STAT_LEFT st - niter) 0 in
            let sy := Z.max (CC_STAT_TOP st - niter) 0 in
            let ex := Z.min (CC_STAT_LEFT st + CC_STAT_WIDTH st + niter + 1)
                            (Z.of_nat img_w) in
            let ey := Z.min (CC_STAT_TOP st + CC_STAT_HEIGHT st + niter + 1)
                            (Z.of_nat img_h) in
            set_window seg2 sy ey sx ex (dilate (window seg2 sy ey sx ex) (1 + niter))))
  = true ->
  component_box det size_threshold tm ts ls labels stats id = Raise IndexError.
Proof.
  intros Hshape Hst Hsize Hin Hpeak Hdet Hseg1 Hseg2 Hniter Hblank.
  unfold component_box. rewrite Hshape, Hst. cbn [bind].
  rewrite Hsize, Hin. cbn [bind]. rewrite Hpeak. cbn [bind].
  rewrite Hdet, Hseg1. cbn [bind]. rewrite Hseg2. cbn [bind].
  rewrite Hniter. cbn [bind].
  cbv zeta in Hblank. rewrite (findContours_blank _ Hblank).
  reflexivity.
Qed.

(** Whatever implements the OpenCV interface: if the labelling of the
    all-foreground 2 x 5 mask is the one component it is, [getBoxes] raises
    [IndexError] at [contours[0]].  The row of the background, which the
    loop never reads, is left open. *)
Lemma overlap_raises_for_any_vision (V : Vision) (background : cc_stat) :
  connectedComponentsWithStats (repeat (repeat 1 5%nat) 2%nat)
  = (2, repeat (repeat 1 5%nat) 2%nat,
     [ background;
       {| CC_STAT_LEFT := 0; CC_STAT_TOP := 0; CC_STAT_WIDTH := 5;
          CC_STAT_HEIGHT := 2; CC_STAT_AREA := 10 |} ]) ->
  getBoxes default_detection_threshold default_text_threshold default_link_threshold
           default_size_threshold [overlap_prediction]
  = Raise IndexError.
Proof.
  intros Hcc. cbn [getBoxes]. unfold image_boxes.
  assert (Hmask : union_mask
                    (threshold (matrix_map fst overlap_prediction)
                               default_text_threshold (of_Z64 1))
                    (threshold (matrix_map snd overlap_prediction)
                               default_link_threshold (of_Z64 1))
                  = repeat (repeat 1 5%nat) 2%nat)
    by (vm_compute; reflexivity).
  rewrite Hmask, Hcc.
  change (range1 2) with [1]. cbn [component_loop].
  erewrite component_box_blank; [reflexivity | vm_compute; reflexivity ..].
Qed.

(** C1, the failing input: one component that passes the size and the
    detection filter and consists of overlap pixels only.  The
    segmentation map is blank after the carving, dilation keeps it blank,
    no contour is found, and [contours[0]] raises. *)
Theorem getBoxes_overlap_component_raises :
  getBoxes (V := reference_vision)
           default_detection_threshold default_text_threshold default_link_threshold
           default_size_threshold [overlap_prediction]
  = Raise IndexError.
Proof. vm_compute. reflexivity. Qed.



Lemma getBoxes_size_threshold_monotone_witness :
  exists box_groups2,
    getBoxes (V := reference_vision)
             default_detection_threshold default_text_threshold default_link_threshold
             25 [blob_prediction] = Ok box_groups2 /\
    Forall2 (fun boxes2 boxes1 => (length boxes2 <= length boxes1)%nat)
            box_groups2
            [[[(2%Q, 0%Q); (20%Q, 0%Q); (20%Q, 14%Q); (2%Q, 14%Q)]]].
Proof.
  apply (getBoxes_size_threshold_monotone (V := reference_vision)
           default_detection_threshold default_text_threshold default_link_threshold
           10 25 [blob_prediction]).
  - lia.
  - vm_compute. reflexivity.
Defined.

End OverlapFacts.

(* ================================================================= *)
(** ** The arrays of the caller are left as they were *)

Section HeapFacts.
Import Heap.
Local Open Scope nat_scope.

Lemma local_ret s0 {A} (a : A) (Q : A -> Prop) : Q a -> local s0 (ret a) Q.
Proof.
  intros Ha ext. exists ext. split; [reflexivity|].
  cbn. intros a' H. injection H as <-. exact Ha.
Qed.

Lemma local_raise s0 {A} (e : exn) (Q : A -> Prop) : local s0 (raise e) Q.
Proof.
  intros ext. exists ext. split; [reflexivity | cbn; discriminate].
Qed.

Lemma local_lift s0 {A} (r : result A) : local s0 (lift r) (fun _ => True).
Proof.
  intros ext. exists ext. split; [reflexivity | trivial].
Qed.

Lemma local_bind s0 {A B} (m : M A) (k : A -> M B) (Q : A -> Prop) (R : B -> Prop) :
  local s0 m Q -> (forall a, Q a -> local s0 (k a) R) -> local s0 (mbind m k) R.
Proof.
  intros Hm Hk ext. unfold mbind.
  destruct (Hm ext) as (ext1 & Hs & Hq).
  destruct (m (s0 ++ ext)) as [[a|e] s1]; cbn [fst snd] in *; subst s1.
  - apply (Hk a (Hq a eq_refl) ext1).
  - exists ext1. split; [reflexivity | cbn; discriminate].
Qed.

Lemma local_weaken s0 {A} (m : M A) (Q Q' : A -> Prop) :
  local s0 m Q -> (forall a, Q a -> Q' a) -> local s0 m Q'.
Proof.
  intros Hm HQ ext. destruct (Hm ext) as (ext' & Hs & Hq).
  exists ext'. split; [exact Hs | intros a Ha; apply HQ, Hq, Ha].
Qed.

(** A new array is outside [s0]. *)
Lemma local_alloc s0 (a : ndarray) : local s0 (alloc a) (fun l => length s0 <= l).
Proof.
  intros ext. exists (ext ++ [a]). unfold alloc. cbn [fst snd]. split.
  - rewrite app_assoc. reflexivity.
  - intros l H. injection H as <-. rewrite length_app. lia.
Qed.

Lemma local_load s0 (l : loc) : local s0 (load l) (fun _ => True).
Proof.
  intros ext. exists ext. unfold load.
  destruct (nth_error (s0 ++ ext) l); split; trivial.
Qed.

Lemma update_nth_app {A} (s0 ext : list A) (k : nat) (a : A) :
  update_nth (length s0 + k) a (s0 ++ ext) = s0 ++ update_nth k a ext.
Proof.
  induction s0 as [|b s0 IH]; cbn; [reflexivity|].
  destruct ext, s0; cbn in *; rewrite ?IH; reflexivity.
Qed.

(** Writing into an array outside [s0] leaves [s0] alone. *)
Lemma local_store_at s0 (l : loc) (a : ndarray) :
  length s0 <= l -> local s0 (store_at l a) (fun _ => True).
Proof.
  intros Hl ext. exists (update_nth (l - length s0) a ext).
  unfold store_at. cbn [fst snd]. split; [|trivial].
  replace l with (length s0 + (l - length s0)) at 1 by lia.
  apply update_nth_app.
Qed.

Lemma local_astype_float32 s0 image :
  local s0 (astype_float32 image) (fun l => length s0 <= l).
Proof.
  unfold astype_float32. eapply local_bind; [apply local_load|].
  intros [im|im|b|m] _; first [apply local_alloc | apply local_raise].
Qed.

Lemma local_inplace s0 op X v :
  length s0 <= X -> local s0 (inplace op X v) (fun _ => True).
Proof.
  intros HX. unfold inplace. eapply local_bind; [apply local_load|].
  intros [im|im|b|m] _; first [apply local_store_at, HX | apply local_raise].
Qed.

Lemma local_compute_input s0 image :
  local s0 (compute_input image) (fun l => length s0 <= l).
Proof.
  unfold compute_input.
  eapply local_bind; [apply local_astype_float32|]. intros X HX.
  eapply local_bind; [apply local_inplace, HX|]. intros _ _.
  eapply local_bind; [apply local_inplace, HX|]. intros _ _.
  apply local_ret, HX.
Qed.

Lemma local_invert_input s0 X :
  local s0 (invert_input X) (fun l => length s0 <= l).
Proof.
  unfold invert_input, copy, clip_astype_uint8.
  eapply local_bind.
  { eapply local_bind; [apply local_load|]. intros a _. apply local_alloc. }
  intros X' HX.
  eapply local_bind; [apply local_inplace, HX|]. intros _ _.
  eapply local_bind; [apply local_inplace, HX|]. intros _ _.
  eapply local_bind; [apply local_load|].
  intros [im|im|b|m] _; first [apply local_alloc | apply local_raise].
Qed.

Lemma local_load_map s0 l : local s0 (load_map l) (fun _ => True).
Proof.
  unfold load_map. eapply local_bind; [apply local_load|].
  intros [im|im|b|m] _; first [apply local_ret; exact I | apply local_raise].
Qed.

Lemma local_update_map s0 l f :
  length s0 <= l -> local s0 (update_map l f) (fun _ => True).
Proof.
  intros Hl. unfold update_map.
  eapply local_bind; [apply local_load_map|]. intros m _.
  eapply local_bind; [apply local_lift|]. intros m' _.
  apply local_store_at, Hl.
Qed.

Section WithVision.
Context {V : Vision}.
Variables detection_threshold text_threshold link_threshold : spec_float.
Variable size_threshold : Z.

Lemma local_component_box s0 textmap ts ls labels stats id :
  local s0 (component_box detection_threshold size_threshold
                          textmap ts ls labels stats id) (fun _ => True).
Proof.
  unfold component_box.
  eapply local_bind; [apply local_load_map|]. intros tm _.
  destruct (shape tm) as [img_h img_w].
  eapply local_bind; [apply local_lift|]. intros st _.
  destruct (CC_STAT_AREA st <? size_threshold)%Z; [apply local_ret; exact I|].
  eapply local_bind; [apply local_lift|]. intros inside _.
  eapply local_bind; [apply local_lift|]. intros peak _.
  destruct (SFltb (Float.to_f64 peak) detection_threshold); [apply local_ret; exact I|].
  eapply local_bind; [apply local_alloc|]. intros segmap Hseg.
  eapply local_bind; [apply local_update_map, Hseg|]. intros _ _.
  eapply local_bind; [apply local_update_map, Hseg|]. intros _ _.
  eapply local_bind; [apply local_lift|]. intros niter _.
  eapply local_bind; [apply local_update_map, Hseg|]. intros _ _.
  eapply local_bind; [apply local_load_map|]. intros s _.
  eapply local_bind; [apply local_lift|]. intros cnt _.
  eapply local_bind; [apply local_lift|]. intros box _.
  apply local_ret. exact I.
Qed.

Lemma local_component_loop s0 textmap ts ls labels stats ids :
  local s0 (component_loop detection_threshold size_threshold
                           textmap ts ls labels stats ids) (fun _ => True).
Proof.
  induction ids as [|id ids IH]; cbn [component_loop].
  - apply local_ret. exact I.
  - eapply local_bind; [apply local_component_box|]. intros b _.
    eapply local_bind; [apply IH|]. intros boxes _.
    apply local_ret. exact I.
Qed.

Lemma local_image_boxes s0 y_pred i :
  local s0 (image_boxes detection_threshold text_threshold link_threshold
                        size_threshold y_pred i) (fun _ => True).
Proof.
  unfold image_boxes. eapply local_bind; [apply local_load|].
  intros [im|im|images|m] _; try apply local_raise.
  eapply local_bind; [apply local_lift|]. intros y_pred_cur _.
  eapply local_bind; [apply local_alloc|]. intros textmap _.
  eapply local_bind; [apply local_alloc|]. intros linkmap _.
  eapply local_bind; [apply local_load_map|]. intros tm _.
  eapply local_bind; [apply local_load_map|]. intros lm _.
  destruct (connectedComponentsWithStats _) as [[n labels] stats].
  apply local_component_loop.
Qed.

Lemma local_getBoxes s0 y_pred :
  local s0 (getBoxes detection_threshold text_threshold link_threshold
                     size_threshold y_pred) (fun _ => True).
Proof.
  unfold getBoxes. eapply local_bind; [apply local_load|].
  intros [im|im|images|m] _; try apply local_raise.
  induction (seq 0 (length images)) as [|i indices IH]; cbn [image_loop].
  - apply local_ret. exact I.
  - eapply local_bind; [apply local_image_boxes|]. intros boxes _.
    eapply local_bind; [apply IH|]. intros groups _.
    apply local_ret. exact I.
Qed.

End WithVision.

Lemma local_unchanged (s : store) {A} (m : M A) (Q : A -> Prop) :
  local s m Q -> unchanged s (snd (m s)).
Proof.
  intros Hm l a Hl. destruct (Hm []) as (ext & Hs & _).
  rewrite app_nil_r in Hs. rewrite Hs.
  rewrite nth_error_app1; [exact Hl|].
  apply nth_error_Some. congruence.
Qed.

(** C9: whatever the store and the arguments, and whether the call
    returns or raises, every array that existed before a call of
    [compute_input], [invert_input] or [getBoxes] holds afterwards what it
    held before; the arrays written to are the copies made by the call. *)
Theorem inputs_left_unchanged (s : store) (arg : loc) :
  unchanged s (snd (compute_input arg s)) /\
  unchanged s (snd (invert_input arg s)) /\
  forall (V : Vision) (detection_threshold text_threshold link_threshold : spec_float)
         (size_threshold : Z),
    unchanged s (snd (getBoxes detection_threshold text_threshold link_threshold
                               size_threshold arg s)).
Proof.
  split; [|split].
  - exact (local_unchanged s _ _ (local_compute_input s arg)).
  - exact (local_unchanged s _ _ (local_invert_input s arg)).
  - intros V det tt lt st.
    exact (local_unchanged s _ _ (local_getBoxes det tt lt st s arg)).
Qed.

End HeapFacts.

(* ================================================================= *)
(** ** Elements of mapped and zipped lists *)

Lemma nth_map_lt {A B} (f : A -> B) (l : list A) (i : nat) (d : B) (d' : A) :
  (i < length l)%nat -> nth i (map f l) d = f (nth i l d').
Proof.
  intros Hi. rewrite (nth_indep _ d (f d')) by (rewrite length_map; exact Hi).
  apply map_nth.
Qed.

Lemma nth_zip_with {A B C} (f : A -> B -> C) (l : list A) (l' : list B)
      (i : nat) (d : C) (a : A) (b : B) :
  (i < length l)%nat -> (i < length l')%nat ->
  nth i (zip_with f l l') d = f (nth i l a) (nth i l' b).
Proof.
  revert l l'. induction i as [|i IH]; intros [|x l] [|y l']; cbn; intros H H';
    try lia; [reflexivity|].
  apply IH; lia.
Qed.

(* ================================================================= *)
(** ** Rounding to binary32 keeps a value inside its range *)

Section RoundingFacts.
Import Float FloatRange.

(** A number of [d] binary digits lies in [2^(d-1), 2^d). *)
Lemma digits2_pos_bounds (p : positive) :
  2 ^ (Zpos (digits2_pos p) - 1) <= Zpos p < 2 ^ (Zpos (digits2_pos p)).
Proof.
  induction p as [p IH|p IH|]; cbn [digits2_pos].
  - rewrite Pos2Z.inj_succ.
    replace (Z.succ (Zpos (digits2_pos p)) - 1) with (Z.succ (Zpos (digits2_pos p) - 1)) by lia.
    rewrite !Z.pow_succ_r by lia. lia.
  - rewrite Pos2Z.inj_succ.
    replace (Z.succ (Zpos (digits2_pos p)) - 1) with (Z.succ (Zpos (digits2_pos p) - 1)) by lia.
    rewrite !Z.pow_succ_r by lia. lia.
  - cbn. lia.
Qed.

Lemma pow2_xO (p : positive) : 2 ^ Zpos p~0 = 2 ^ Zpos p * 2 ^ Zpos p.
Proof.
  replace (Zpos p~0) with (Zpos p + Zpos p) by lia.
  apply Z.pow_add_r; lia.
Qed.

Lemma pow2_xI (p : positive) : 2 ^ Zpos p~1 = 2 * (2 ^ Zpos p * 2 ^ Zpos p).
Proof.
  replace (Zpos p~1) with (Z.succ (Zpos p + Zpos p)) by lia.
  rewrite Z.pow_succ_r, Z.pow_add_r by lia. reflexivity.
Qed.

(** Halving the mantissa halves its bound. *)
Lemma shr_1_below (B : Z) (mrs : shr_record) :
  below (2 * B) mrs -> below B (shr_1 mrs).
Proof.
  destruct mrs as [m r s]. unfold below. cbn [shr_m].
  destruct m as [|[p|p|]|[p|p|]]; cbn [shr_1 shr_m]; lia.
Qed.

(** Shifting by [p] bits divides the bound by [2^p]. *)
Lemma iter_shr_1_below (p : positive) : forall (B : Z) (mrs : shr_record),
  below (2 ^ Zpos p * B) mrs -> below B (SpecFloat.iter_pos shr_1 p mrs).
Proof.
  induction p as [p IH|p IH|]; intros B mrs H; cbn [SpecFloat.iter_pos].
  - apply IH, IH, shr_1_below.
    rewrite pow2_xI in H.
    replace (2 * (2 ^ Zpos p * (2 ^ Zpos p * B))) with (2 * (2 ^ Zpos p * 2 ^ Zpos p) * B) by ring.
    exact H.
  - apply IH, IH. rewrite pow2_xO in H.
    replace (2 ^ Zpos p * (2 ^ Zpos p * B)) with (2 ^ Zpos p * 2 ^ Zpos p * B) by ring.
    exact H.
  - apply shr_1_below. exact H.
Qed.

(** The same with the bound included: it is reached only by an exact
    shift. *)
Lemma shr_1_at_most (B : Z) (mrs : shr_record) :
  at_most (2 * B) mrs -> at_most B (shr_1 mrs).
Proof.
  destruct mrs as [m r s]. unfold at_most, inexact. cbn [shr_m shr_r shr_s].
  intros [Hm Hi].
  destruct m as [|[p|p|]|[p|p|]]; cbn [shr_1 shr_m shr_r shr_s];
    destruct r, s; cbn [orb] in *; try lia;
    (split; [lia | intros _; try lia; try (specialize (Hi eq_refl); lia); try discriminate]).
Qed.

Lemma iter_shr_1_at_most (p : positive) : forall (B : Z) (mrs : shr_record),
  at_most (2 ^ Zpos p * B) mrs -> at_most B (SpecFloat.iter_pos shr_1 p mrs).
Proof.
  induction p as [p IH|p IH|]; intros B mrs H; cbn [SpecFloat.iter_pos].
  - apply IH, IH, shr_1_at_most.
    rewrite pow2_xI in H.
    replace (2 * (2 ^ Zpos p * (2 ^ Zpos p * B))) with (2 * (2 ^ Zpos p * 2 ^ Zpos p) * B) by ring.
    exact H.
  - apply IH, IH. rewrite pow2_xO in H.
    replace (2 ^ Zpos p * (2 ^ Zpos p * B)) with (2 ^ Zpos p * 2 ^ Zpos p * B) by ring.
    exact H.
  - apply shr_1_at_most. exact H.
Qed.

Lemma Zdigits2_bounds (m : Z) : 0 <= m -> m < 2 ^ Zdigits2 m.
Proof.
  destruct m as [|p|p]; cbn [Zdigits2]; intros H; try lia.
  apply digits2_pos_bounds.
Qed.

Lemma Zdigits2_le (m : Z) (n : Z) : 0 <= n -> 0 <= m <= 2 ^ n -> Zdigits2 m <= n + 1.
Proof.
  intros Hn [H0 Hm]. destruct m as [|p|p]; cbn [Zdigits2]; try lia.
  destruct (digits2_pos_bounds p) as [Hlo _].
  assert (H : 2 ^ (Zpos (digits2_pos p) - 1) <= 2 ^ n) by lia.
  apply Z.pow_le_mono_r_iff in H; lia.
Qed.

Lemma shr_exponent mrs e n : snd (shr mrs e n) = e + Z.max 0 n.
Proof. destruct n; cbn; lia. Qed.

Lemma shr_below (B : Z) mrs e n :
  below (2 ^ Z.max 0 n * B) mrs -> below B (fst (shr mrs e n)).
Proof.
  destruct n as [|p|p]; cbn [shr fst Z.max]; intros H.
  - change (2 ^ Z.max 0 0) with 1 in H. rewrite Z.mul_1_l in H. exact H.
  - apply iter_shr_1_below. rewrite Z.max_r in H by lia. exact H.
  - rewrite Z.max_l in H by lia. change (2 ^ 0) with 1 in H. rewrite Z.mul_1_l in H. exact H.
Qed.

Lemma shr_at_most (B : Z) mrs e n :
  at_most (2 ^ Z.max 0 n * B) mrs -> at_most B (fst (shr mrs e n)).
Proof.
  destruct n as [|p|p]; cbn [shr fst Z.max]; intros H.
  - change (2 ^ Z.max 0 0) with 1 in H. rewrite Z.mul_1_l in H. exact H.
  - apply iter_shr_1_at_most. rewrite Z.max_r in H by lia. exact H.
  - rewrite Z.max_l in H by lia. change (2 ^ 0) with 1 in H. rewrite Z.mul_1_l in H. exact H.
Qed.

Lemma shr_nonneg mrs e n : 0 <= shr_m mrs -> 0 <= shr_m (fst (shr mrs e n)).
Proof.
  intros H.
  assert (Hb : below (2 ^ Z.max 0 n * (shr_m mrs + 1)) mrs).
  { unfold below. split; [exact H|].
    assert (0 < 2 ^ Z.max 0 n) by (apply Z.pow_pos_nonneg; lia). nia. }
  apply shr_below with (e := e) in Hb. apply Hb.
Qed.

(** Rounding to nearest adds at most one unit, and none to an exact
    mantissa: it stays within a bound that an inexact mantissa is strictly
    below. *)
Lemma round_nearest_even_bounds (mrs : shr_record) :
  0 <= shr_m mrs ->
  0 <= round_nearest_even (shr_m mrs) (loc_of_shr_record mrs) /\
  (forall B, at_most B mrs ->
             round_nearest_even (shr_m mrs) (loc_of_shr_record mrs) <= B).
Proof.
  destruct mrs as [m r s]. cbn [shr_m]. intros Hm. unfold at_most, inexact.
  cbn [shr_m shr_r shr_s].
  destruct r, s; cbn [loc_of_shr_record round_nearest_even orb];
    try destruct (Z.even m); (split; [lia|]); intros B [H1 H2];
      try specialize (H2 eq_refl); lia.
Qed.

Lemma shr_record_of_loc_m m l : shr_m (shr_record_of_loc m l) = m.
Proof. destruct l as [|[]]; reflexivity. Qed.

Lemma shr_record_of_loc_inexact m l :
  inexact (shr_record_of_loc m l) = true -> l <> loc_Exact.
Proof. destruct l as [|[]]; cbn; congruence. Qed.

Lemma fexp_ge (x : Z) : x - 24 <= fexp prec32 emax32 x.
Proof. unfold fexp, emin, prec32, emax32. lia. Qed.

Lemma fexp_small (x : Z) : x <= 1 -> fexp prec32 emax32 x <= -23.
Proof. unfold fexp, emin, prec32, emax32. lia. Qed.

(** The rounding of a non-negative mantissa is zero, a positive number of
    at most 24 bits, or an overflow to plus infinity: never NaN. *)
Lemma binary_round_aux_accumulated (m e : Z) (l : location) :
  0 <= m -> accumulated (binary_round_aux prec32 emax32 false m e l).
Proof.
  intros Hm. unfold binary_round_aux, shr_fexp.
  set (r1 := shr (shr_record_of_loc m l) e _).
  assert (H1 : 0 <= shr_m (fst r1)).
  { apply shr_nonneg. rewrite shr_record_of_loc_m. exact Hm. }
  destruct r1 as [mrs1 e1]. cbn [fst] in H1.
  destruct (round_nearest_even_bounds mrs1 H1) as [H2 _].
  set (m2 := round_nearest_even (shr_m mrs1) (loc_of_shr_record mrs1)) in *.
  set (k2 := fexp prec32 emax32 (Zdigits2 m2 + e1) - e1).
  assert (H3 : below (2 ^ 24) (fst (shr (shr_record_of_loc m2 loc_Exact) e1 k2))).
  { apply shr_below. unfold below. cbn [shr_record_of_loc shr_m].
    split; [exact H2|].
    pose proof (Zdigits2_bounds m2 H2) as Hd.
    pose proof (fexp_ge (Zdigits2 m2 + e1)) as Hf.
    assert (Hk : Zdigits2 m2 <= Z.max 0 k2 + 24) by (unfold k2; lia).
    assert (Hp : 2 ^ Zdigits2 m2 <= 2 ^ (Z.max 0 k2 + 24)).
    { apply Z.pow_le_mono_r; [lia | exact Hk]. }
    rewrite Z.pow_add_r in Hp by lia. lia. }
  destruct (shr (shr_record_of_loc m2 loc_Exact) e1 k2) as [mrs3 e3].
  cbn [fst] in H3. unfold below in H3.
  destruct (shr_m mrs3) as [|p|p]; [left; reflexivity | | lia].
  destruct (e3 <=? emax32 - prec32); right; [right | left; reflexivity].
  exists p, e3. split; [reflexivity | lia].
Qed.

(** The rounding of a value of [0, 1] is a value of [0, 1]. *)
Lemma binary_round_aux_unit (m e : Z) (l : location) :
  e <= 0 -> at_most (2 ^ (- e)) (shr_record_of_loc m l) ->
  unit_result (binary_round_aux prec32 emax32 false m e l).
Proof.
  intros He Hm. unfold binary_round_aux, shr_fexp.
  set (k1 := fexp prec32 emax32 (Zdigits2 m + e) - e).
  assert (Hm0 : 0 <= m <= 2 ^ (- e)).
  { destruct Hm as [Hm _]. rewrite shr_record_of_loc_m in Hm. exact Hm. }
  assert (Hd1 : Zdigits2 m + e <= 1).
  { pose proof (Zdigits2_le m (- e) ltac:(lia) Hm0). lia. }
  pose proof (fexp_small _ Hd1) as Hf1.
  pose proof (shr_exponent (shr_record_of_loc m l) e k1) as He1.
  assert (H1 : at_most (2 ^ (- (e + Z.max 0 k1))) (fst (shr (shr_record_of_loc m l) e k1))).
  { apply shr_at_most.
    rewrite <- Z.pow_add_r by (unfold k1; lia).
    replace (Z.max 0 k1 + - (e + Z.max 0 k1)) with (- e) by lia. exact Hm. }
  destruct (shr (shr_record_of_loc m l) e k1) as [mrs1 e1].
  cbn [fst snd] in *. subst e1.
  set (e1 := e + Z.max 0 k1) in *.
  assert (He1 : e1 <= 0) by (unfold e1, k1; lia).
  destruct (round_nearest_even_bounds mrs1 (proj1 (proj1 H1))) as [H2 H2'].
  specialize (H2' _ H1).
  set (m2 := round_nearest_even (shr_m mrs1) (loc_of_shr_record mrs1)) in *.
  set (k2 := fexp prec32 emax32 (Zdigits2 m2 + e1) - e1).
  assert (Hd2 : Zdigits2 m2 + e1 <= 1).
  { pose proof (Zdigits2_le m2 (- e1) ltac:(lia) (conj H2 H2')). lia. }
  pose proof (fexp_small _ Hd2) as Hf2.
  pose proof (shr_exponent (shr_record_of_loc m2 loc_Exact) e1 k2) as He3.
  assert (H3 : at_most (2 ^ (- (e1 + Z.max 0 k2)))
                       (fst (shr (shr_record_of_loc m2 loc_Exact) e1 k2))).
  { apply shr_at_most.
    rewrite <- Z.pow_add_r by (unfold k2; lia).
    replace (Z.max 0 k2 + - (e1 + Z.max 0 k2)) with (- e1) by lia.
    unfold at_most, inexact. cbn [shr_record_of_loc shr_m shr_r shr_s orb].
    split; [lia | discriminate]. }
  destruct (shr (shr_record_of_loc m2 loc_Exact) e1 k2) as [mrs3 e3].
  cbn [fst snd] in *. subst e3.
  assert (He3 : e1 + Z.max 0 k2 <= 0) by (unfold k2; lia).
  destruct H3 as [[H3 H3'] _].
  destruct (shr_m mrs3) as [|p|p]; [left; reflexivity | | lia].
  replace (e1 + Z.max 0 k2 <=? emax32 - prec32) with true
    by (symmetry; apply Z.leb_le; unfold emax32, prec32; lia).
  right. exists p, (e1 + Z.max 0 k2). split; [reflexivity | split; assumption].
Qed.

Lemma binary_round_accumulated (m : positive) (e : Z) :
  accumulated (binary_round prec32 emax32 false m e).
Proof.
  unfold binary_round.
  destruct (shl_align m e _) as [mz ez].
  apply binary_round_aux_accumulated. lia.
Qed.

Lemma binary_normalize_accumulated (m e : Z) :
  0 <= m -> accumulated (binary_normalize prec32 emax32 m e false).
Proof.
  intros Hm. destruct m as [|p|p]; cbn [binary_normalize]; [left; reflexivity | | lia].
  apply binary_round_accumulated.
Qed.

(** Sums of non-negative terms stay non-negative and are never NaN. *)
Lemma SFadd_accumulated (x y : spec_float) :
  accumulated x -> accumulated y -> accumulated (SFadd prec32 emax32 x y).
Proof.
  intros [->|[->|(mx & ex & -> & Hx)]] [->|[->|(my & ey & -> & Hy)]];
    cbn [SFadd];
    try (left; reflexivity);
    try (right; left; reflexivity);
    try (right; right; eauto; fail).
  apply binary_normalize_accumulated. cbn [cond_Zopp]. lia.
Qed.

(** [clip(0, 255)] of a non-negative value is a value of [0, 255]. *)
Lemma clip_clipped (x : spec_float) :
  accumulated x -> clipped (clip zero32 top32 x).
Proof.
  assert (Htop : clipped top32).
  { right. exists 16711680%positive, (-16). split; [reflexivity|]. cbn. lia. }
  intros [->|[->|(m & e & -> & Hm)]].
  - left. reflexivity.
  - exact Htop.
  - change (2 ^ 24) with 16777216 in Hm.
    unfold clip, maximum, minimum, zero32, top32, SFltb.
    cbn [is_nan SFcompare].
    destruct (Z.compare_spec (-16) e) as [He|He|He]; cbn [is_nan].
    + subst e.
      assert (Hp : Pos.compare_cont Eq 16711680 m = Pos.compare 16711680 m) by reflexivity.
      rewrite Hp.
      destruct (Pos.compare_spec 16711680 m) as [Hc|Hc|Hc]; try exact Htop.
      * subst m. exact Htop.
      * right. exists m, (-16). split; [reflexivity|].
        change (2 ^ (- -16)) with 65536.
        apply Pos2Z.pos_lt_pos in Hc. clear Hp Htop. lia.
    + exact Htop.
    + right. exists m, e. split; [reflexivity|]. split; [lia|].
      assert (H17 : 2 ^ 17 <= 2 ^ (- e)) by (apply Z.pow_le_mono_r; lia).
      change (2 ^ 17) with 131072 in H17. lia.
Qed.

Lemma new_location_exact (r : Z) : new_location 16711680 r <> loc_Exact -> r <> 0.
Proof.
  intros H ->. apply H. reflexivity.
Qed.

(** The rounded quotient by 255 of a value of [0, 255] is a value of
    [0, 1]. *)
Lemma SFdiv_unit (x : spec_float) :
  clipped x -> unit_result (SFdiv prec32 emax32 x top32).
Proof.
  intros [->|(m & e & -> & He & Hm)]; [left; reflexivity|].
  unfold top32. cbn [SFdiv xorb]. unfold SFdiv_core_binary.
  change (Zdigits2 16711680) with 24.
  set (e' := Z.min (fexp prec32 emax32 (Zdigits2 (Z.pos m) + e - (24 + -16))) (e - -16)).
  set (s := e - -16 - e').
  assert (Hs : 0 <= s) by (unfold s, e'; lia).
  set (m' := match s with Z.pos _ => Z.shiftl (Z.pos m) s | 0 => Z.pos m | Z.neg _ => 0 end).
  assert (Hm' : m' = Zpos m * 2 ^ s).
  { unfold m'. destruct s as [|p|p]; [lia | | lia].
    apply Z.shiftl_mul_pow2. lia. }
  assert (He' : e' <= 0) by (unfold e'; lia).
  assert (Hbound : m' <= 16711680 * 2 ^ (- e')).
  { rewrite Hm'.
    assert (Hpow : 2 ^ (- e) * 2 ^ s = 65536 * 2 ^ (- e')).
    { rewrite <- Z.pow_add_r by lia. replace (- e + s) with (16 + - e') by (unfold s; lia).
      rewrite Z.pow_add_r by lia. reflexivity. }
    assert (0 <= 2 ^ s) by (apply Z.pow_nonneg; lia).
    nia. }
  pose proof (Z_div_mod m' 16711680 ltac:(lia)) as Hdiv.
  destruct (Z.div_eucl m' 16711680) as [q r]. destruct Hdiv as [Hq Hr].
  apply binary_round_aux_unit; [exact He'|].
  assert (Hpos : 0 < 2 ^ (- e')) by (apply Z.pow_pos_nonneg; lia).
  unfold at_most. rewrite shr_record_of_loc_m. split.
  - assert (0 <= m') by (rewrite Hm'; apply Z.mul_nonneg_nonneg; [lia | apply Z.pow_nonneg; lia]).
    nia.
  - intros Hin. apply shr_record_of_loc_inexact, new_location_exact in Hin. nia.
Qed.

Lemma Qpower2_nonpos (e : Z) :
  e <= 0 -> (Qpower 2 e == / inject_Z (2 ^ (- e)))%Q.
Proof.
  intros He. rewrite Zpower_Qpower by lia.
  rewrite <- Qpower_opp. rewrite Z.opp_involutive. reflexivity.
Qed.

Lemma scaled_mantissa_unit (m : positive) (e : Z) :
  e <= 0 -> Zpos m <= 2 ^ (- e) ->
  (0 <= inject_Z (Zpos m) * Qpower 2 e <= 1)%Q.
Proof.
  intros He Hm. rewrite (Qpower2_nonpos e He).
  assert (Hpos : 0 < 2 ^ (- e)) by (apply Z.pow_pos_nonneg; lia).
  assert (HposQ : (0 < inject_Z (2 ^ (- e)))%Q).
  { change 0%Q with (inject_Z 0). rewrite <- Zlt_Qlt. exact Hpos. }
  split.
  - apply Qmult_le_0_compat.
    + change 0%Q with (inject_Z 0). rewrite <- Zle_Qle. lia.
    + apply Qinv_le_0_compat. apply Qlt_le_weak, HposQ.
  - apply Qle_shift_div_r; [exact HposQ|].
    rewrite Qmult_1_l. rewrite <- Zle_Qle. exact Hm.
Qed.

Lemma unit_result_in_unit_interval (x : spec_float) :
  unit_result x -> in_unit_interval x.
Proof.
  intros [->|(m & e & -> & He & Hm)]; unfold in_unit_interval; cbn [is_finite value].
  - split; [reflexivity|]. split; [apply Qle_refl | discriminate].
  - split; [reflexivity|]. apply scaled_mantissa_unit; assumption.
Qed.

End RoundingFacts.

(* ================================================================= *)
(** ** Target synthesis: range of the maps *)

Lemma Forall_zip_with {A B C} (P : A -> Prop) (Q : B -> Prop) (R : C -> Prop)
      (f : A -> B -> C) (l : list A) (l' : list B) :
  (forall a b, P a -> Q b -> R (f a b)) ->
  Forall P l -> Forall Q l' -> Forall R (zip_with f l l').
Proof.
  intros Hf Hl. revert l'. induction Hl as [|a l Ha Hl IH]; intros l' Hl'; cbn.
  - constructor.
  - destruct Hl' as [|b l' Hb Hl']; constructor; auto.
Qed.

Lemma foldM_invariant {A S} (f : S -> A -> result S) (I : S -> Prop) :
  (forall s a s', I s -> f s a = Ok s' -> I s') ->
  forall l s s', I s -> Synthesis.foldM f l s = Ok s' -> I s'.
Proof.
  intros Hf. induction l as [|a l IH]; intros s s' Hs; cbn [Synthesis.foldM].
  - intros H. injection H as <-. exact Hs.
  - destruct (f s a) as [s1|] eqn:H1; cbn [bind]; [|discriminate].
    apply IH. exact (Hf s a s1 Hs H1).
Qed.

Section SynthesisRange.
Import Float FloatRange Synthesis.
Context {W : Warp}.

Lemma of_Z32_accumulated (w : Z) : 0 <= w -> accumulated (of_Z32 w).
Proof. apply binary_normalize_accumulated. Qed.

Lemma iadd_accumulated (m : matrix spec_float) (warped : matrix Z) (m' : matrix spec_float) :
  matrix_all accumulated m -> matrix_all valid_u8 warped ->
  iadd m warped = Ok m' -> matrix_all accumulated m'.
Proof.
  intros Hm Hw. unfold iadd. destruct (same_shape m warped); [|discriminate].
  intros H. injection H as <-.
  unfold matrix_all, matrix_map2 in *.
  eapply Forall_zip_with; [|exact Hm|exact Hw].
  intros row wrow Hrow Hwrow.
  eapply Forall_zip_with; [|exact Hrow|exact Hwrow].
  intros a b Ha [Hb _]. apply SFadd_accumulated; [exact Ha|].
  apply of_Z32_accumulated, Hb.
Qed.

Lemma char_step_accumulated heatmap dsize st q st' :
  matrix_all valid_u8 heatmap ->
  maps_accumulated (fst st) ->
  char_step heatmap dsize st q = Ok st' -> maps_accumulated (fst st').
Proof.
  intros Hk Hst. unfold char_step. destruct st as [m prev]. cbn [fst] in Hst.
  destruct Hst as [Ht Hl].
  destruct (is_space (c q)).
  { intros H. injection H as <-. split; assumption. }
  destruct prev as [prev|]; cbn [bind].
  - destruct (iadd (linkmap m) _) as [l'|] eqn:Hl'; cbn [bind]; [|discriminate].
    destruct (iadd (textmap m) _) as [t'|] eqn:Ht'; cbn [bind]; [|discriminate].
    intros H. injection H as <-. cbn [fst]. split; cbn [textmap linkmap].
    + exact (iadd_accumulated _ _ _ Ht (warpPerspective_u8 _ _ _ Hk) Ht').
    + exact (iadd_accumulated _ _ _ Hl (warpPerspective_u8 _ _ _ Hk) Hl').
  - destruct (iadd (textmap m) _) as [t'|] eqn:Ht'; cbn [bind]; [|discriminate].
    intros H. injection H as <-. cbn [fst]. split; cbn [textmap linkmap].
    + exact (iadd_accumulated _ _ _ Ht (warpPerspective_u8 _ _ _ Hk) Ht').
    + exact Hl.
Qed.

Lemma line_step_accumulated heatmap dsize m l m' :
  matrix_all valid_u8 heatmap ->
  maps_accumulated m ->
  line_step heatmap dsize m l = Ok m' -> maps_accumulated m'.
Proof.
  intros Hk Hm. unfold line_step.
  destruct (foldM (char_step heatmap dsize) l (m, None)) as [st|] eqn:Hst;
    cbn [bind]; [|discriminate].
  intros H. injection H as <-.
  apply (foldM_invariant (char_step heatmap dsize)
           (fun st => maps_accumulated (fst st))
           (fun s a s' => char_step_accumulated heatmap dsize s a s' Hk)
           l (m, None) st Hm Hst).
Qed.

Lemma normalise_in_unit_interval (x : spec_float) :
  accumulated x -> in_unit_interval (normalise x).
Proof.
  intros Hx. unfold normalise.
  change (of_Z32 0) with zero32. change (of_Z32 255) with top32.
  apply unit_result_in_unit_interval, SFdiv_unit, clip_clipped, Hx.
Qed.

(** C8: for an 8-bit kernel, every element of both channels of the map
    [compute_maps] returns is a finite number in the closed interval
    [0, 1]. *)
Theorem compute_maps_in_unit_interval
        (heatmap : matrix Z) (image_height image_width : Z) (lines : list line)
        (maps : matrix (spec_float * spec_float)) :
  matrix_all valid_u8 heatmap ->
  compute_maps heatmap image_height image_width lines = Ok maps ->
  matrix_all (fun tl => in_unit_interval (fst tl) /\ in_unit_interval (snd tl)) maps.
Proof.
  intros Hk. unfold compute_maps.
  destruct (assert (image_height mod 2 =? 0) _); cbn [bind]; [|discriminate].
  destruct (assert (image_width mod 2 =? 0) _); cbn [bind]; [|discriminate].
  destruct ((image_height / 2 <? 0) || (image_width / 2 <? 0)); [discriminate|].
  set (zero := zeros (of_Z32 0) _ _).
  destruct (foldM _ lines _) as [m|] eqn:Hm; cbn [bind]; [|discriminate].
  intros H. injection H as <-.
  assert (Hzero : matrix_all accumulated zero).
  { unfold zero, zeros, matrix_all.
    apply Forall_forall. intros row Hrow. apply repeat_spec in Hrow. subst row.
    apply Forall_forall. intros x Hx. apply repeat_spec in Hx. subst x.
    left. reflexivity. }
  assert (Hacc : maps_accumulated m).
  { apply (foldM_invariant (line_step heatmap (image_width / 2, image_height / 2))
             maps_accumulated
             (fun s a s' => line_step_accumulated heatmap _ s a s' Hk)
             lines {| textmap := zero; linkmap := zero |} m); [|exact Hm].
    split; exact Hzero. }
  destruct Hacc as [Ht Hl].
  unfold matrix_all, matrix_map, matrix_map2 in *.
  apply Forall_map.
  eapply Forall_zip_with; [|exact Ht|exact Hl].
  intros trow lrow Htrow Hlrow. apply Forall_map.
  eapply Forall_zip_with; [|exact Htrow|exact Hlrow].
  intros t l Ht' Hl'. cbn [fst snd].
  split; apply normalise_in_unit_interval; assumption.
Qed.

End SynthesisRange.

(* ================================================================= *)
(** ** The theorems of target synthesis on a sample input *)

Section SynthesisSamples.
Import Float Synthesis.
Local Open Scope string_scope.

Lemma sample_kernel_u8 : matrix_all valid_u8 sample_kernel.
Proof.
  unfold sample_kernel, matrix_all, valid_u8. repeat constructor; lia.
Qed.

Lemma sample_lines_same_layout :
  Forall2 (Forall2 same_layout) (sample_lines "a" "b") (sample_lines "x" "y").
Proof.
  unfold sample_lines, same_layout, sample_box.
  repeat constructor.
Qed.

Lemma compute_maps_label_independent_witness :
  Forall2 (Forall2 same_layout) (sample_lines "a" "b") (sample_lines "x" "y") /\
  compute_maps (W := reference_warp) sample_kernel 8 12 (sample_lines "a" "b")
  = compute_maps (W := reference_warp) sample_kernel 8 12 (sample_lines "x" "y").
Proof.
  split; [exact sample_lines_same_layout|].
  apply (compute_maps_label_independent (W := reference_warp)
           sample_kernel 8 12 _ _ sample_lines_same_layout).
Defined.

Lemma compute_maps_in_unit_interval_witness :
  exists maps,
    compute_maps (W := reference_warp) sample_kernel 8 12 (sample_lines "a" "b")
    = Ok maps /\
    matrix_all (fun tl => in_unit_interval (fst tl) /\ in_unit_interval (snd tl)) maps.
Proof.
  eexists. split; [vm_compute; reflexivity|].
  apply (compute_maps_in_unit_interval (W := reference_warp)
           sample_kernel 8 12 (sample_lines "a" "b") _ sample_kernel_u8).
  vm_compute. reflexivity.
Defined.

End SynthesisSamples.

(* ================================================================= *)
(** ** Target synthesis returns for even dimensions *)

Lemma same_shape_of_has_shape {A B} (h w : nat) (m : matrix A) (m' : matrix B) :
  has_shape h w m -> has_shape h w m' -> same_shape m m' = true.
Proof.
  intros [Hh Hw] [Hh' Hw']. unfold same_shape.
  apply andb_true_iff. split; [apply Nat.eqb_eq; congruence|].
  clear Hh Hh'. revert m' Hw'.
  induction Hw as [|row m Hrow Hm IH]; intros m' Hw'; [reflexivity|].
  destruct Hw' as [|row' m' Hrow' Hm']; [reflexivity|].
  cbn [combine forallb fst snd]. apply andb_true_iff. split.
  - apply Nat.eqb_eq. congruence.
  - apply IH, Hm'.
Qed.

Lemma length_zip_with {A B C} (f : A -> B -> C) (l : list A) (l' : list B) :
  length l = length l' -> length (zip_with f l l') = length l.
Proof.
  revert l'. induction l as [|a l IH]; intros [|b l'] H; cbn in *; try lia.
  rewrite IH by lia. reflexivity.
Qed.

Lemma has_shape_matrix_map2 {A B C} (f : A -> B -> C) (h w : nat)
      (m : matrix A) (m' : matrix B) :
  has_shape h w m -> has_shape h w m' -> has_shape h w (matrix_map2 f m m').
Proof.
  intros [Hh Hw] [Hh' Hw']. unfold has_shape, matrix_map2. split.
  - rewrite length_zip_with; congruence.
  - eapply Forall_zip_with; [|exact Hw|exact Hw'].
    intros row row' Hrow Hrow'. cbn beta in *.
    rewrite length_zip_with; congruence.
Qed.

Lemma has_shape_zeros {A} (zero : A) (h w : nat) : has_shape h w (zeros zero h w).
Proof.
  unfold has_shape, zeros. split; [apply repeat_length|].
  apply Forall_forall. intros row Hrow. apply repeat_spec in Hrow. subst row.
  apply repeat_length.
Qed.

Lemma foldM_total {A S} (f : S -> A -> result S) (I : S -> Prop) :
  (forall s a, I s -> exists s', f s a = Ok s' /\ I s') ->
  forall l s, I s -> exists s', Synthesis.foldM f l s = Ok s' /\ I s'.
Proof.
  intros Hf. induction l as [|a l IH]; intros s Hs; cbn [Synthesis.foldM].
  - exists s. split; [reflexivity | exact Hs].
  - destruct (Hf s a Hs) as (s1 & H1 & Hs1). rewrite H1. cbn [bind].
    apply IH, Hs1.
Qed.

Section SynthesisTotal.
Import Float Synthesis.
Context {W : Warp}.
Variable heatmap : matrix Z.
Variables w h : Z.
Hypothesis Hw : 0 < w.
Hypothesis Hh : 0 < h.

Lemma iadd_total (m : matrix spec_float) (M : transform) :
  has_shape (Z.to_nat h) (Z.to_nat w) m ->
  exists m', iadd m (warpPerspective heatmap M (w, h)) = Ok m' /\
             has_shape (Z.to_nat h) (Z.to_nat w) m'.
Proof.
  intros Hm. pose proof (warpPerspective_shape heatmap M w h Hw Hh) as Hwarp.
  unfold iadd. rewrite (same_shape_of_has_shape _ _ _ _ Hm Hwarp).
  eexists. split; [reflexivity|].
  apply has_shape_matrix_map2; assumption.
Qed.

Lemma char_step_total st q :
  maps_shaped w h (fst st) ->
  exists st', char_step heatmap (w, h) st q = Ok st' /\ maps_shaped w h (fst st').
Proof.
  destruct st as [m prev]. cbn [fst]. intros [Ht Hl]. unfold char_step.
  destruct (is_space (c q)).
  { eexists. split; [reflexivity|]. split; assumption. }
  destruct prev as [prev|]; cbn [bind].
  - destruct (iadd_total (linkmap m)
                (getPerspectiveTransform (src heatmap)
                   (map point_f32 [fst prev; fst (current_link_points q);
                                   snd (current_link_points q); snd prev])) Hl)
      as (l' & Hl' & Hsl).
    rewrite Hl'. cbn [bind].
    destruct (iadd_total (textmap m)
                (getPerspectiveTransform (src heatmap) (character_points q)) Ht)
      as (t' & Ht' & Hst).
    rewrite Ht'. cbn [bind].
    eexists. split; [reflexivity|]. split; assumption.
  - destruct (iadd_total (textmap m)
                (getPerspectiveTransform (src heatmap) (character_points q)) Ht)
      as (t' & Ht' & Hst).
    rewrite Ht'. cbn [bind].
    eexists. split; [reflexivity|]. split; assumption.
Qed.

Lemma line_step_total m l :
  maps_shaped w h m ->
  exists m', line_step heatmap (w, h) m l = Ok m' /\ maps_shaped w h m'.
Proof.
  intros Hm. unfold line_step.
  destruct (foldM_total (char_step heatmap (w, h))
              (fun st => maps_shaped w h (fst st)) char_step_total l (m, None) Hm)
    as (st & Hst & Hshape).
  rewrite Hst. cbn [bind]. exists (fst st). split; [reflexivity | exact Hshape].
Qed.

End SynthesisTotal.

(** X25: for even dimensions of at least 2, [compute_maps] returns a map
    of half the height and half the width: no exception, no rounding. *)
Lemma compute_maps_even_returns {W : Warp}
      (heatmap : matrix Z) (image_height image_width : Z)
      (lines : list Synthesis.line) :
  Z.even image_height = true -> Z.even image_width = true ->
  2 <= image_height -> 2 <= image_width ->
  exists maps,
    Synthesis.compute_maps heatmap image_height image_width lines = Ok maps /\
    has_shape (Z.to_nat (image_height / 2)) (Z.to_nat (image_width / 2)) maps /\
    2 * (image_height / 2) = image_height /\ 2 * (image_width / 2) = image_width.
Proof.
  intros Hh Hw Hh2 Hw2. unfold Synthesis.compute_maps, assert.
  rewrite !mod2_odd, <- !Z.negb_even, Hh, Hw. cbn [negb bind].
  assert (Hh' : 0 < image_height / 2) by (apply Z.div_str_pos; lia).
  assert (Hw' : 0 < image_width / 2) by (apply Z.div_str_pos; lia).
  replace ((image_height / 2 <? 0) || (image_width / 2 <? 0)) with false
    by (symmetry; apply orb_false_iff; split; apply Z.ltb_ge; lia).
  destruct (foldM_total
              (Synthesis.line_step heatmap (image_width / 2, image_height / 2))
              (Synthesis.maps_shaped (image_width / 2) (image_height / 2))
              (fun m l => line_step_total heatmap _ _ Hw' Hh' m l)
              lines
              {| Synthesis.textmap := zeros (Float.of_Z32 0) (Z.to_nat (image_height / 2))
                                            (Z.to_nat (image_width / 2));
                 Synthesis.linkmap := zeros (Float.of_Z32 0) (Z.to_nat (image_height / 2))
                                            (Z.to_nat (image_width / 2)) |})
    as (m & Hm & Ht & Hl).
  { split; apply has_shape_zeros. }
  rewrite Hm. cbn [bind]. eexists. split; [reflexivity|]. split.
  - pose proof (has_shape_matrix_map2 (@pair spec_float spec_float) _ _ _ _ Ht Hl)
      as [H1 H2].
    unfold has_shape, matrix_map. split; [rewrite length_map; exact H1|].
    apply Forall_map. eapply Forall_impl; [|exact H2].
    intros row Hrow. rewrite length_map. exact Hrow.
  - apply Z.even_spec in Hh as [a ->]. apply Z.even_spec in Hw as [b ->].
    rewrite !(Z.mul_comm 2), !Z.div_mul by lia. lia.
Qed.

(* ================================================================= *)
(** ** The store model computes what the functional model computes *)

Section HeapRefinement.
Import Heap.
Local Open Scope nat_scope.

Lemma nth_error_app_here {A} (s ext : list A) (a : A) :
  nth_error (s ++ a :: ext) (length s) = Some a.
Proof.
  rewrite nth_error_app2 by lia. rewrite Nat.sub_diag. reflexivity.
Qed.

Lemma update_nth_app_here {A} (s ext : list A) (a b : A) :
  update_nth (length s) b (s ++ a :: ext) = s ++ b :: ext.
Proof.
  replace (length s) with (length s + 0) at 1 by lia.
  rewrite update_nth_app. reflexivity.
Qed.

(** An in-place operation on the array allocated last. *)
Lemma inplace_here s ext op v im :
  inplace op (length s) v (s ++ F32Image im :: ext)
  = (Ok tt, s ++ F32Image (image_map (fun p => rgb_map2 (Normalise.inplace32 op) p v) im)
                 :: ext).
Proof.
  unfold inplace, mbind, load, store_at.
  rewrite nth_error_app_here, update_nth_app_here. reflexivity.
Qed.

Lemma image_map_map {A B C} (f : rgb B -> rgb C) (g : rgb A -> rgb B) (im : image A) :
  image_map f (image_map g im) = image_map (fun p => f (g p)) im.
Proof.
  unfold image_map. rewrite map_map. apply map_ext. intros row. apply map_map.
Qed.

(** [compute_input] on a uint8 image: the input stays, one array is
    added, and it holds the normalised image. *)
Lemma heap_compute_input (s : store) (arg : loc) (im : image Z) :
  nth_error s arg = Some (U8Image im) ->
  compute_input arg s
  = (Ok (length s), s ++ [F32Image (Normalise.compute_input im)]).
Proof.
  intros Him. unfold compute_input, astype_float32.
  unfold mbind at 1. unfold mbind at 1. unfold load at 1. rewrite Him.
  unfold alloc at 1.
  unfold mbind at 1. rewrite inplace_here.
  unfold mbind at 1. rewrite inplace_here.
  unfold ret. rewrite image_map_map. reflexivity.
Qed.

(** [invert_input] on a float32 image: the input stays, the copy and the
    8-bit result are added. *)
Lemma heap_invert_input (s : store) (X : loc) (im : image spec_float) :
  nth_error s X = Some (F32Image im) ->
  exists work,
    invert_input X s
    = (Ok (S (length s)), s ++ [F32Image work; U8Image (Normalise.invert_input im)]).
Proof.
  intros HX. unfold invert_input, copy, clip_astype_uint8.
  unfold mbind at 1. unfold mbind at 1. unfold load at 1. rewrite HX.
  unfold alloc at 1.
  unfold mbind at 1. rewrite inplace_here.
  unfold mbind at 1. rewrite inplace_here.
  unfold mbind, load. rewrite nth_error_app_here. unfold alloc.
  rewrite !image_map_map. eexists. f_equal.
  - rewrite length_app. cbn [length]. f_equal. f_equal. lia.
  - rewrite <- app_assoc. reflexivity.
Qed.

Lemma heap_load_map (s : store) (l : loc) (m : matrix spec_float) :
  nth_error s l = Some (F32Map m) -> load_map l s = (Ok m, s).
Proof.
  intros H. unfold load_map, mbind, load. rewrite H. reflexivity.
Qed.

Lemma heap_update_map_here (s ext : store) (m : matrix spec_float)
      (f : matrix spec_float -> result (matrix spec_float)) :
  update_map (length s) f (s ++ F32Map m :: ext)
  = match f m with
    | Ok m' => (Ok tt, s ++ F32Map m' :: ext)
    | Raise e => (Raise e, s ++ F32Map m :: ext)
    end.
Proof.
  unfold update_map. unfold mbind at 1.
  rewrite (heap_load_map _ _ m) by apply nth_error_app_here.
  unfold mbind, lift, store_at. destruct (f m); [|reflexivity].
  rewrite update_nth_app_here. reflexivity.
Qed.

Section WithVision.
Context {V : Vision}.
Variables detection_threshold text_threshold link_threshold : spec_float.
Variable size_threshold : Z.

Ltac stay := exists []; rewrite app_nil_r; reflexivity.

Lemma heap_component_box (s : store) (textmap : loc) (tm ts ls : matrix spec_float)
      (labels : matrix Z) (stats : list cc_stat) (id : Z) :
  nth_error s textmap = Some (F32Map tm) ->
  exists ext,
    component_box detection_threshold size_threshold textmap ts ls labels stats id s
    = (Boxes.component_box detection_threshold size_threshold tm ts ls labels stats id,
       s ++ ext).
Proof.
  intros Htm. unfold component_box, Boxes.component_box.
  unfold mbind at 1. rewrite (heap_load_map s textmap tm Htm).
  destruct (shape tm) as [img_h img_w].
  unfold mbind at 1, lift at 1.
  destruct (getitem stats (Z.to_nat id)) as [st|e]; cbn [bind]; [|stay].
  destruct (CC_STAT_AREA st <? size_threshold)%Z; [unfold ret; stay|].
  unfold mbind at 1, lift at 1.
  destruct (Boxes.select tm _) as [inside|e]; cbn [bind]; [|stay].
  unfold mbind at 1, lift at 1.
  destruct (Boxes.np_max inside) as [peak|e]; cbn [bind]; [|stay].
  destruct (SFltb (Float.to_f64 peak) detection_threshold); [unfold ret; stay|].
  unfold mbind at 1, alloc at 1.
  unfold mbind at 1. rewrite heap_update_map_here.
  destruct (Boxes.assign _ (Boxes.label_mask labels id) _) as [seg1|e]; cbn [bind];
    [|eexists; reflexivity].
  unfold mbind at 1. rewrite heap_update_map_here.
  destruct (Boxes.assign seg1 _ _) as [seg2|e]; cbn [bind]; [|eexists; reflexivity].
  unfold mbind at 1, lift at 1.
  destruct (Boxes.dilation_iterations _ _ _) as [niter|e]; cbn [bind];
    [|eexists; reflexivity].
  unfold mbind at 1. rewrite heap_update_map_here.
  unfold mbind at 1.
  rewrite (heap_load_map _ (length s) _ (nth_error_app_here s [] _)).
  unfold mbind at 1, lift at 1.
  destruct (getitem (findContours _) 0) as [cnt|e]; cbn [bind]; [|eexists; reflexivity].
  unfold mbind at 1, lift at 1.
  destruct (Boxes.ordered_box cnt) as [box|e]; cbn [bind]; [|eexists; reflexivity].
  unfold ret. eexists. reflexivity.
Qed.

Lemma heap_component_loop (textmap : loc) (tm ts ls : matrix spec_float)
      (labels : matrix Z) (stats : list cc_stat) (ids : list Z) :
  forall s : store,
    nth_error s textmap = Some (F32Map tm) ->
    exists ext,
      component_loop detection_threshold size_threshold textmap ts ls labels stats ids s
      = (Boxes.component_loop detection_threshold size_threshold tm ts ls labels stats ids,
         s ++ ext).
Proof.
  induction ids as [|id ids IH]; intros s Htm;
    cbn [component_loop Boxes.component_loop].
  - unfold ret. stay.
  - destruct (heap_component_box s textmap tm ts ls labels stats id Htm) as (ext1 & H1).
    unfold mbind at 1. rewrite H1.
    destruct (Boxes.component_box _ _ tm ts ls labels stats id) as [b|e]; cbn [bind];
      [|eexists; reflexivity].
    assert (Htm1 : nth_error (s ++ ext1) textmap = Some (F32Map tm)).
    { rewrite nth_error_app1; [exact Htm|]. apply nth_error_Some. congruence. }
    destruct (IH (s ++ ext1) Htm1) as (ext2 & H2).
    unfold mbind at 1. rewrite H2. rewrite <- app_assoc.
    destruct (Boxes.component_loop _ _ tm ts ls labels stats ids) as [boxes|e];
      cbn [bind]; eexists; reflexivity.
Qed.

Lemma heap_image_boxes (s : store) (y_pred : loc)
      (images : list (matrix (spec_float * spec_float))) (i : nat)
      (y_pred_cur : matrix (spec_float * spec_float)) :
  nth_error s y_pred = Some (F32Batch images) ->
  nth_error images i = Some y_pred_cur ->
  exists ext,
    image_boxes detection_threshold text_threshold link_threshold size_threshold
                y_pred i s
    = (Boxes.image_boxes detection_threshold text_threshold link_threshold
                         size_threshold y_pred_cur,
       s ++ ext).
Proof.
  intros Hy Hi. unfold image_boxes, Boxes.image_boxes.
  unfold mbind at 1, load at 1. rewrite Hy.
  unfold mbind at 1, lift at 1, getitem. rewrite Hi.
  unfold mbind at 1, alloc at 1.
  unfold mbind at 1, alloc at 1.
  rewrite <- app_assoc. cbn [app].
  unfold mbind at 1. rewrite (heap_load_map _ (length s) _ (nth_error_app_here s _ _)).
  assert (Hlm : nth_error (s ++ [F32Map (matrix_map fst y_pred_cur);
                                 F32Map (matrix_map snd y_pred_cur)])
                          (length (s ++ [F32Map (matrix_map fst y_pred_cur)]))
                = Some (F32Map (matrix_map snd y_pred_cur))).
  { rewrite length_app. cbn [length]. rewrite nth_error_app2 by lia.
    replace (length s + 1 - length s) with 1 by lia. reflexivity. }
  unfold mbind at 1. rewrite (heap_load_map _ _ _ Hlm).
  destruct (connectedComponentsWithStats _) as [[n labels] stats].
  destruct (heap_component_loop (length s) (matrix_map fst y_pred_cur)
              (Boxes.threshold (matrix_map fst y_pred_cur) text_threshold (Float.of_Z64 1))
              (Boxes.threshold (matrix_map snd y_pred_cur) link_threshold (Float.of_Z64 1))
              labels stats (Boxes.range1 n)
              (s ++ [F32Map (matrix_map fst y_pred_cur);
                     F32Map (matrix_map snd y_pred_cur)])
              (nth_error_app_here s _ _)) as (ext & Hext).
  rewrite Hext. rewrite <- app_assoc. eexists. reflexivity.
Qed.

Lemma heap_image_loop (y_pred : loc) (images : list (matrix (spec_float * spec_float))) :
  forall (rest done : list (matrix (spec_float * spec_float))) (s : store),
    images = done ++ rest ->
    nth_error s y_pred = Some (F32Batch images) ->
    exists ext,
      image_loop detection_threshold text_threshold link_threshold size_threshold
                 y_pred (seq (length done) (length rest)) s
      = (Boxes.getBoxes detection_threshold text_threshold link_threshold
                        size_threshold rest,
         s ++ ext).
Proof.
  induction rest as [|y_pred_cur rest IH]; intros done s Himages Hy;
    cbn [length seq image_loop Boxes.getBoxes].
  - unfold ret. stay.
  - assert (Hi : nth_error images (length done) = Some y_pred_cur).
    { rewrite Himages. apply nth_error_app_here. }
    destruct (heap_image_boxes s y_pred images (length done) y_pred_cur Hy Hi)
      as (ext1 & H1).
    unfold mbind at 1. rewrite H1.
    destruct (Boxes.image_boxes _ _ _ _ y_pred_cur) as [boxes|e]; cbn [bind];
      [|eexists; reflexivity].
    assert (Hy1 : nth_error (s ++ ext1) y_pred = Some (F32Batch images)).
    { rewrite nth_error_app1; [exact Hy|]. apply nth_error_Some. congruence. }
    assert (Himages1 : images = (done ++ [y_pred_cur]) ++ rest).
    { rewrite <- app_assoc. exact Himages. }
    destruct (IH (done ++ [y_pred_cur]) (s ++ ext1) Himages1 Hy1) as (ext2 & H2).
    rewrite length_app in H2. cbn [length] in H2.
    replace (length done + 1) with (S (length done)) in H2 by lia.
    unfold mbind at 1. rewrite H2. rewrite <- app_assoc.
    destruct (Boxes.getBoxes _ _ _ _ rest) as [groups|e]; cbn [bind];
      eexists; reflexivity.
Qed.

(** X27: [getBoxes] on a batch in the store returns, or raises, what the
    functional [getBoxes] does on the contents of the batch, and only adds
    arrays to the store. *)
Lemma heap_getBoxes (s : store) (y_pred : loc)
      (images : list (matrix (spec_float * spec_float))) :
  nth_error s y_pred = Some (F32Batch images) ->
  exists ext,
    getBoxes detection_threshold text_threshold link_threshold size_threshold y_pred s
    = (Boxes.getBoxes detection_threshold text_threshold link_threshold
                      size_threshold images,
       s ++ ext).
Proof.
  intros Hy. unfold getBoxes. unfold mbind at 1, load at 1. rewrite Hy.
  exact (heap_image_loop y_pred images images [] s eq_refl Hy).
Qed.

End WithVision.

End HeapRefinement.


(* ================================================================= *)
(** ** [getBoxes]: the batch, the filters, the mask *)

Lemma sublist_refl {A} (l : list A) : sublist l l.
Proof. induction l; constructor; assumption. Qed.

Lemma sublist_length {A} (l l' : list A) : sublist l l' -> (length l <= length l')%nat.
Proof. induction 1; cbn [length]; lia. Qed.

Lemma zip_with_map {A A' B B' C} (f : A' -> B' -> C) (g : A -> A') (h : B -> B')
      (l : list A) (l' : list B) :
  zip_with f (map g l) (map h l') = zip_with (fun a b => f (g a) (h b)) l l'.
Proof.
  revert l'. induction l as [|a l IH]; intros [|b l']; cbn; try reflexivity.
  rewrite IH. reflexivity.
Qed.

Lemma map_zip_with {A B C D} (g : C -> D) (f : A -> B -> C) (l : list A) (l' : list B) :
  map g (zip_with f l l') = zip_with (fun a b => g (f a b)) l l'.
Proof.
  revert l'. induction l as [|a l IH]; intros [|b l']; cbn; try reflexivity.
  rewrite IH. reflexivity.
Qed.

Lemma zip_with_ext {A B C} (f g : A -> B -> C) (l : list A) (l' : list B) :
  (forall a b, f a b = g a b) -> zip_with f l l' = zip_with g l l'.
Proof.
  intros Hfg. revert l'. induction l as [|a l IH]; intros [|b l']; cbn; try reflexivity.
  rewrite Hfg, IH. reflexivity.
Qed.

Section BatchFacts.
Import Float Geometry Boxes.
Local Open Scope result_scope.
Context {V : Vision}.

(** X1: the images of a batch are processed one by one and independently:
    the result for a batch [a ++ b] is the result for [a] followed by the
    result for [b], and an exception of [a] comes first. *)
Theorem getBoxes_app (det tt lt : spec_float) (size : Z)
        (a b : list (matrix (spec_float * spec_float))) :
  getBoxes det tt lt size (a ++ b)
  = (ga <- getBoxes det tt lt size a ;;
     gb <- getBoxes det tt lt size b ;;
     Ok (ga ++ gb)).
Proof.
  induction a as [|y a IH]; cbn [app getBoxes].
  - cbn [bind]. destruct (getBoxes det tt lt size b); reflexivity.
  - destruct (image_boxes det tt lt size y) as [boxes|e]; cbn [bind]; [|reflexivity].
    rewrite IH.
    destruct (getBoxes det tt lt size a) as [ga|e]; cbn [bind]; [|reflexivity].
    destruct (getBoxes det tt lt size b) as [gb|e]; cbn [bind]; reflexivity.
Qed.

Lemma getBoxes_length (det tt lt : spec_float) (size : Z)
      (y_pred : list (matrix (spec_float * spec_float)))
      (box_groups : list (list (list qpoint))) :
  getBoxes det tt lt size y_pred = Ok box_groups ->
  length box_groups = length y_pred.
Proof.
  revert box_groups. induction y_pred as [|y y_pred IH]; intros groups; cbn [getBoxes].
  - intros H. injection H as <-. reflexivity.
  - destruct (image_boxes det tt lt size y) as [boxes|e]; cbn [bind]; [|discriminate].
    destruct (getBoxes det tt lt size y_pred) as [gs|e]; cbn [bind]; [|discriminate].
    intros H. injection H as <-. cbn [length]. rewrite (IH gs eq_refl). reflexivity.
Qed.

(** X2: a call that returns gives one group of boxes per image of the
    batch, in the order of the batch; in particular the group of index 0
    exists as soon as the batch has an image. *)
Theorem getBoxes_one_group_per_image (det tt lt : spec_float) (size : Z)
        (y_pred : list (matrix (spec_float * spec_float)))
        (box_groups : list (list (list qpoint))) :
  getBoxes det tt lt size y_pred = Ok box_groups ->
  length box_groups = length y_pred /\
  forall i y, nth_error y_pred i = Some y ->
              exists boxes, nth_error box_groups i = Some boxes /\
                            image_boxes det tt lt size y = Ok boxes.
Proof.
  intros H. split; [exact (getBoxes_length _ _ _ _ _ _ H)|].
  revert box_groups H. induction y_pred as [|y0 y_pred IH]; intros groups; cbn [getBoxes].
  - intros _ [|i] y Hy; discriminate Hy.
  - destruct (image_boxes det tt lt size y0) as [boxes|e] eqn:Hb; cbn [bind]; [|discriminate].
    destruct (getBoxes det tt lt size y_pred) as [gs|e]; cbn [bind]; [|discriminate].
    intros H. injection H as <-. intros [|i] y Hy; cbn [nth_error] in *.
    + injection Hy as <-. exists boxes. split; [reflexivity | exact Hb].
    + exact (IH gs eq_refl i y Hy).
Qed.

(** Tightening the two filters of the loop over the components turns
    some components into skipped ones and changes nothing else. *)
Lemma component_box_filters d1 d2 s1 s2 tm ts ls labels stats id b1 :
  SFleb d1 d2 = true -> s1 <= s2 ->
  component_box d1 s1 tm ts ls labels stats id = Ok b1 ->
  exists b2, component_box d2 s2 tm ts ls labels stats id = Ok b2 /\
             (b2 = None \/ b2 = b1).
Proof.
  intros Hd Hs. unfold component_box. destruct (shape tm) as [img_h img_w].
  destruct (getitem stats (Z.to_nat id)) as [st|]; cbn [bind]; [|discriminate].
  destruct (CC_STAT_AREA st <? s2) eqn:H2.
  { destruct (CC_STAT_AREA st <? s1); intros _;
      exists None; (split; [reflexivity | left; reflexivity]). }
  destruct (CC_STAT_AREA st <? s1) eqn:H1.
  { apply Z.ltb_lt in H1. apply Z.ltb_ge in H2. lia. }
  destruct (select tm (label_mask labels id)) as [inside|]; cbn [bind]; [|discriminate].
  destruct (np_max inside) as [peak|]; cbn [bind]; [|discriminate].
  destruct (SFltb (to_f64 peak) d1) eqn:Hp1.
  { rewrite (SFltb_SFleb_trans _ _ _ Hp1 Hd). intros _.
    exists None. split; [reflexivity | left; reflexivity]. }
  destruct (SFltb (to_f64 peak) d2).
  { intros _. exists None. split; [reflexivity | left; reflexivity]. }
  intros H. exists b1. split; [exact H | right; reflexivity].
Qed.

Lemma component_loop_filters d1 d2 s1 s2 tm ts ls labels stats ids boxes1 :
  SFleb d1 d2 = true -> s1 <= s2 ->
  component_loop d1 s1 tm ts ls labels stats ids = Ok boxes1 ->
  exists boxes2, component_loop d2 s2 tm ts ls labels stats ids = Ok boxes2 /\
                 sublist boxes2 boxes1.
Proof.
  intros Hd Hs. revert boxes1.
  induction ids as [|id ids IH]; intros boxes1; cbn [component_loop].
  - intros H. injection H as <-. exists []. split; [reflexivity | constructor].
  - destruct (component_box d1 s1 tm ts ls labels stats id) as [b1|] eqn:Hb1;
      cbn [bind]; [|discriminate].
    destruct (component_loop d1 s1 tm ts ls labels stats ids) as [bs1|];
      cbn [bind]; [|discriminate].
    intros H. injection H as <-.
    destruct (component_box_filters _ _ _ _ _ _ _ _ _ _ _ Hd Hs Hb1) as (b2 & Hb2 & Hrel).
    destruct (IH bs1 eq_refl) as (bs2 & Hbs2 & Hsub).
    rewrite Hb2, Hbs2. cbn [bind]. eexists. split; [reflexivity|].
    destruct Hrel as [-> | ->].
    + destruct b1; [apply sublist_skip|]; exact Hsub.
    + destruct b1; [apply sublist_keep|]; exact Hsub.
Qed.

(** X3: with the two binarisation thresholds fixed, a call with a
    detection threshold and a size threshold at least as large returns
    whenever the looser call does, and the boxes it returns for an image
    are boxes of the looser call, in the same order: boxes are dropped,
    none is added or changed. *)
Theorem getBoxes_filters_monotone
        (det1 det2 tt lt : spec_float) (size1 size2 : Z)
        (y_pred : list (matrix (spec_float * spec_float)))
        (box_groups1 : list (list (list qpoint))) :
  SFleb det1 det2 = true -> size1 <= size2 ->
  getBoxes det1 tt lt size1 y_pred = Ok box_groups1 ->
  exists box_groups2,
    getBoxes det2 tt lt size2 y_pred = Ok box_groups2 /\
    Forall2 sublist box_groups2 box_groups1.
Proof.
  intros Hd Hs. revert box_groups1.
  induction y_pred as [|y y_pred IH]; intros groups1; cbn [getBoxes].
  - intros H. injection H as <-. exists []. split; [reflexivity | constructor].
  - destruct (image_boxes det1 tt lt size1 y) as [boxes1|] eqn:Hb1;
      cbn [bind]; [|discriminate].
    destruct (getBoxes det1 tt lt size1 y_pred) as [gs1|]; cbn [bind]; [|discriminate].
    intros H. injection H as <-.
    destruct (IH gs1 eq_refl) as (gs2 & Hgs2 & Hall).
    unfold image_boxes in Hb1 |- *.
    destruct (connectedComponentsWithStats _) as [[n labels] stats].
    destruct (component_loop_filters _ _ _ _ _ _ _ _ _ _ _ Hd Hs Hb1)
      as (boxes2 & Hb2 & Hsub).
    rewrite Hb2, Hgs2. cbn [bind]. eexists. split; [reflexivity|].
    constructor; assumption.
Qed.

(** X4: the image handed to the labelling of connected components is
    binary: 1 where the text map exceeds the text threshold or the link
    map exceeds the link threshold, 0 elsewhere; the sum 2 of a pixel that
    exceeds both is clipped to 1. *)
Theorem union_mask_is_union (textmap linkmap : matrix spec_float) (tt lt : spec_float) :
  union_mask (threshold textmap tt (of_Z64 1)) (threshold linkmap lt (of_Z64 1))
  = matrix_map2 (fun t l => if SFltb (to_f32 tt) t || SFltb (to_f32 lt) l then 1 else 0)
                textmap linkmap.
Proof.
  unfold union_mask, threshold, matrix_map, matrix_map2.
  rewrite zip_with_map, map_zip_with.
  apply zip_with_ext. intros trow lrow.
  rewrite zip_with_map, map_zip_with.
  apply zip_with_ext. intros t l.
  destruct (SFltb (to_f32 tt) t), (SFltb (to_f32 lt) l); vm_compute; reflexivity.
Qed.

End BatchFacts.

Lemma getBoxes_one_group_per_image_witness :
  length [[[(2%Q, 0%Q); (20%Q, 0%Q); (20%Q, 14%Q); (2%Q, 14%Q)]]]
  = length [Boxes.blob_prediction] /\
  forall i y, nth_error [Boxes.blob_prediction] i = Some y ->
              exists boxes,
                nth_error [[[(2%Q, 0%Q); (20%Q, 0%Q); (20%Q, 14%Q); (2%Q, 14%Q)]]] i
                = Some boxes /\
                Boxes.image_boxes (V := reference_vision)
                  Boxes.default_detection_threshold Boxes.default_text_threshold
                  Boxes.default_link_threshold Boxes.default_size_threshold y = Ok boxes.
Proof.
  apply (getBoxes_one_group_per_image (V := reference_vision)
           Boxes.default_detection_threshold Boxes.default_text_threshold
           Boxes.default_link_threshold Boxes.default_size_threshold
           [Boxes.blob_prediction]).
  vm_compute. reflexivity.
Defined.

Lemma getBoxes_filters_monotone_witness :
  exists box_groups2,
    Boxes.getBoxes (V := reference_vision)
                   (Float.literal64 95 100) Boxes.default_text_threshold
                   Boxes.default_link_threshold 12 [Boxes.blob_prediction]
    = Ok box_groups2 /\
    Forall2 sublist box_groups2
            [[[(2%Q, 0%Q); (20%Q, 0%Q); (20%Q, 14%Q); (2%Q, 14%Q)]]].
Proof.
  apply (getBoxes_filters_monotone (V := reference_vision)
           Boxes.default_detection_threshold (Float.literal64 95 100)
           Boxes.default_text_threshold Boxes.default_link_threshold
           Boxes.default_size_threshold 12 [Boxes.blob_prediction]).
  - vm_compute. reflexivity.
  - unfold Boxes.default_size_threshold. lia.
  - vm_compute. reflexivity.
Defined.

(* ================================================================= *)
(** ** [getBoxes]: the number of dilation rounds *)

Section DilationFacts.
Import Float Boxes.

(** Rounding keeps the sign. *)
Lemma binary_round_aux_sign (prec emax : Z) (s : bool) (m e : Z) (l : location) :
  match binary_round_aux prec emax s m e l with
  | S754_zero s' | S754_infinity s' | S754_finite s' _ _ => s' = s
  | S754_nan => True
  end.
Proof.
  unfold binary_round_aux.
  destruct (shr_fexp prec emax m e l) as [mrs' e'].
  destruct (shr_fexp prec emax _ e' loc_Exact) as [mrs'' e''].
  destruct (shr_m mrs''); [reflexivity | | exact I].
  destruct (e'' <=? emax - prec); reflexivity.
Qed.

(** A square root is never a negative number. *)
Lemma sqrt64_not_negative (x : spec_float) :
  match sqrt64 x with
  | S754_finite true _ _ | S754_infinity true => False
  | _ => True
  end.
Proof.
  unfold sqrt64, SFsqrt.
  destruct x as [s|[|]| |[|] m e]; try exact I.
  destruct (SFsqrt_core_binary prec64 emax64 (Zpos m) e) as [[mz ez] lz].
  pose proof (binary_round_aux_sign prec64 emax64 false mz ez lz) as H.
  destruct (binary_round_aux prec64 emax64 false mz ez lz) as [s|s| |s m' e'];
    try exact I; subst s; exact I.
Qed.

Lemma mul64_two_not_negative (x : spec_float) :
  match x with
  | S754_finite true _ _ | S754_infinity true => False
  | _ => True
  end ->
  match mul64 x (of_Z64 2) with
  | S754_finite true _ _ | S754_infinity true => False
  | _ => True
  end.
Proof.
  assert (Htwo : of_Z64 2 = S754_finite false 4503599627370496 (-51))
    by (vm_compute; reflexivity).
  rewrite Htwo. unfold mul64, SFmul.
  destruct x as [s|[|]| |[|] m e]; intros H; try exact I; try contradiction.
  cbn [xorb].
  pose proof (binary_round_aux_sign prec64 emax64 false
                (Zpos (m * 4503599627370496)) (e + -51) loc_Exact) as Hs.
  destruct (binary_round_aux prec64 emax64 false _ _ loc_Exact) as [s|s| |s m' e'];
    try exact I; subst s; exact I.
Qed.

Lemma trunc_nonneg (x : spec_float) :
  match x with S754_finite true _ _ => False | _ => True end -> 0 <= trunc x.
Proof.
  destruct x as [s|s| |[|] m e]; cbn [trunc]; intros H; try lia; try contradiction.
  destruct e as [|p|p]; [lia | | ].
  - apply Z.mul_nonneg_nonneg; [lia|]. apply Z.pow_nonneg. lia.
  - apply Z.div_pos; [lia|]. apply Z.pow_pos_nonneg; lia.
Qed.

(** X5: the number of dilation rounds [niter], when it is computed at
    all, is not negative, whatever the statistics of the component are (a
    square root is never negative, and [int] truncates toward zero): the
    structuring element of side [1 + niter] is never empty. *)
Theorem dilation_iterations_nonneg (size w h niter : Z) :
  dilation_iterations size w h = Ok niter -> 0 <= niter.
Proof.
  unfold dilation_iterations, py_int. intros H.
  pose proof (mul64_two_not_negative _
                (sqrt64_not_negative
                   (div64 (of_Z64 (wrap32 (size * Z.min w h)))
                          (of_Z64 (wrap32 (w * h)))))) as Hsign.
  destruct (mul64 _ (of_Z64 2)) as [s|s| |s m e]; try discriminate H.
  - injection H as <-. cbn [trunc]. lia.
  - injection H as <-. change (0 <= trunc (S754_finite s m e)).
    apply trunc_nonneg. destruct s; [contradiction | exact I].
Qed.

Lemma dilation_iterations_nonneg_witness :
  dilation_iterations 24 6 4 = Ok 4 /\ 0 <= 4.
Proof.
  assert (H : dilation_iterations 24 6 4 = Ok 4) by (vm_compute; reflexivity).
  split; [exact H | apply (dilation_iterations_nonneg 24 6 4 4 H)].
Defined.

End DilationFacts.

(* ================================================================= *)
(** ** [getBoxes] over the store, on a sample batch *)

Lemma heap_getBoxes_witness :
  exists ext,
    Heap.getBoxes (V := reference_vision)
                  Boxes.default_detection_threshold Boxes.default_text_threshold
                  Boxes.default_link_threshold Boxes.default_size_threshold
                  0%nat [Heap.F32Batch [Boxes.blob_prediction]]
    = (Boxes.getBoxes (V := reference_vision)
                      Boxes.default_detection_threshold Boxes.default_text_threshold
                      Boxes.default_link_threshold Boxes.default_size_threshold
                      [Boxes.blob_prediction],
       [Heap.F32Batch [Boxes.blob_prediction]] ++ ext).
Proof.
  apply (heap_getBoxes (V := reference_vision)
           Boxes.default_detection_threshold Boxes.default_text_threshold
           Boxes.default_link_threshold Boxes.default_size_threshold
           [Heap.F32Batch [Boxes.blob_prediction]] 0%nat [Boxes.blob_prediction]).
  reflexivity.
Defined.

(* ================================================================= *)
(** ** Target synthesis: lines, spaces and the two channels *)

Lemma foldM_app {A S} (f : S -> A -> result S) (l l' : list A) (s : S) :
  Synthesis.foldM f (l ++ l') s
  = bind (Synthesis.foldM f l s) (fun s' => Synthesis.foldM f l' s').
Proof.
  revert s. induction l as [|a l IH]; intros s; cbn [app Synthesis.foldM bind].
  - reflexivity.
  - destruct (f s a) as [s1|e]; cbn [bind]; [apply IH | reflexivity].
Qed.

Lemma same_shape_has_shape {A B} (h w : nat) (m : matrix A) (m' : matrix B) :
  has_shape h w m -> same_shape m m' = true -> has_shape h w m'.
Proof.
  intros [Hh Hw] Hs. unfold same_shape in Hs.
  apply andb_true_iff in Hs as [Hlen Hrows]. apply Nat.eqb_eq in Hlen.
  split; [congruence|]. clear Hh. revert m' Hlen Hrows.
  induction Hw as [|row m Hrow Hm IH]; intros [|row' m'] Hlen Hrows;
    cbn [length] in Hlen; try discriminate; constructor.
  - cbn [combine forallb fst snd] in Hrows.
    apply andb_true_iff in Hrows as [Hr _]. apply Nat.eqb_eq in Hr. congruence.
  - apply IH; [lia|]. cbn [combine forallb] in Hrows.
    apply andb_true_iff in Hrows as [_ Hrows]. exact Hrows.
Qed.

Lemma zip_with_repeat {A B C} (f : A -> B -> C) (a : A) (b : B) (n : nat) :
  zip_with f (repeat a n) (repeat b n) = repeat (f a b) n.
Proof. induction n as [|n IH]; cbn; [reflexivity | rewrite IH; reflexivity]. Qed.

Lemma map_fst_zip_with {A B C} (g : A -> C) (l : list A) (l' : list B) :
  length l = length l' ->
  map (fun ab => g (fst ab)) (zip_with pair l l') = map g l.
Proof.
  revert l'. induction l as [|a l IH]; intros [|b l'] H; cbn in *; try lia;
    [reflexivity|]. rewrite IH by lia. reflexivity.
Qed.

Lemma matrix_map_map {A B C} (g : B -> C) (f : A -> B) (m : matrix A) :
  matrix_map g (matrix_map f m) = matrix_map (fun x => g (f x)) m.
Proof.
  unfold matrix_map. rewrite map_map. apply map_ext. intros row. apply map_map.
Qed.

Lemma matrix_map_fst_pair {A B C} (g : A -> C) (h w : nat) (t : matrix A) (l : matrix B) :
  has_shape h w t -> has_shape h w l ->
  matrix_map (fun tl => g (fst tl)) (matrix_map2 pair t l) = matrix_map g t.
Proof.
  intros [Hh Hw] [Hh' Hw']. unfold matrix_map, matrix_map2.
  assert (Hlen : length t = length l) by congruence. clear Hh Hh'.
  revert l Hlen Hw'. induction Hw as [|row t Hrow Ht IH]; intros [|row' l] Hlen Hw';
    cbn in *; try lia; [reflexivity|].
  inversion Hw' as [|? ? Hrow' Hl']; subst.
  rewrite (map_fst_zip_with g row row') by congruence.
  rewrite (IH l) by (try lia; assumption). reflexivity.
Qed.

Section LineFacts.
Import Float Synthesis Targets.
Local Open Scope result_scope.
Context {W : Warp}.
Variable heatmap : matrix Z.

Lemma iadd_shape (h w : nat) (m : matrix spec_float) (warped : matrix Z)
      (m' : matrix spec_float) :
  has_shape h w m -> iadd m warped = Ok m' -> has_shape h w m'.
Proof.
  intros Hm. unfold iadd. destruct (same_shape m warped) eqn:Hs; [|discriminate].
  intros H. injection H as <-.
  apply has_shape_matrix_map2; [exact Hm|].
  exact (same_shape_has_shape h w m warped Hm Hs).
Qed.

Lemma char_step_shape (w h : Z) dsize st q st' :
  maps_shaped w h (fst st) ->
  char_step heatmap dsize st q = Ok st' -> maps_shaped w h (fst st').
Proof.
  destruct st as [m prev]. cbn [fst]. intros [Ht Hl]. unfold char_step.
  destruct (is_space (c q)).
  { intros H. injection H as <-. split; assumption. }
  destruct prev as [prev|]; cbn [bind].
  - destruct (iadd (linkmap m) _) as [l'|] eqn:Hl'; cbn [bind]; [|discriminate].
    destruct (iadd (textmap m) _) as [t'|] eqn:Ht'; cbn [bind]; [|discriminate].
    intros H. injection H as <-. split; cbn [fst textmap linkmap].
    + exact (iadd_shape _ _ _ _ _ Ht Ht').
    + exact (iadd_shape _ _ _ _ _ Hl Hl').
  - destruct (iadd (textmap m) _) as [t'|] eqn:Ht'; cbn [bind]; [|discriminate].
    intros H. injection H as <-. split; cbn [fst textmap linkmap].
    + exact (iadd_shape _ _ _ _ _ Ht Ht').
    + exact Hl.
Qed.

Lemma line_step_shape (w h : Z) dsize m l m' :
  maps_shaped w h m ->
  line_step heatmap dsize m l = Ok m' -> maps_shaped w h m'.
Proof.
  intros Hm. unfold line_step.
  destruct (foldM (char_step heatmap dsize) l (m, None)) as [st|] eqn:Hst;
    cbn [bind]; [|discriminate].
  intros H. injection H as <-.
  exact (foldM_invariant (char_step heatmap dsize)
           (fun st => maps_shaped w h (fst st))
           (fun s a s' => char_step_shape w h dsize s a s')
           l (m, None) st Hm Hst).
Qed.

(** A space ends the line as far as the maps are concerned. *)
Lemma line_step_space dsize m (a b : line) (sp : char_box) :
  is_space (c sp) = true ->
  line_step heatmap dsize m (a ++ sp :: b)
  = (m' <- line_step heatmap dsize m a ;; line_step heatmap dsize m' b).
Proof.
  intros Hsp. unfold line_step. rewrite foldM_app.
  destruct (foldM (char_step heatmap dsize) a (m, None)) as [[m1 prev1]|e];
    cbn [bind]; [|reflexivity].
  cbn [foldM]. unfold char_step at 1. rewrite Hsp. cbn [bind fst]. reflexivity.
Qed.

(** X6: a space in a line has the effect of a line break: the line
    [a ++ [space] ++ b] gives the maps, or the exception, of the two lines
    [a] and [b]. *)
Theorem compute_maps_space_splits_line
        (image_height image_width : Z) (pre post : list line)
        (a b : line) (sp : char_box) :
  is_space (c sp) = true ->
  compute_maps heatmap image_height image_width (pre ++ (a ++ sp :: b) :: post)
  = compute_maps heatmap image_height image_width (pre ++ a :: b :: post).
Proof.
  intros Hsp. unfold compute_maps.
  destruct (assert (image_height mod 2 =? 0) _); cbn [bind]; [|reflexivity].
  destruct (assert (image_width mod 2 =? 0) _); cbn [bind]; [|reflexivity].
  destruct ((image_height / 2 <? 0) || (image_width / 2 <? 0)); [reflexivity|].
  rewrite !foldM_app.
  destruct (foldM _ pre _) as [m|e]; cbn [bind]; [|reflexivity].
  cbn [foldM]. rewrite (line_step_space _ m a b sp Hsp).
  destruct (line_step heatmap _ m a) as [m1|e]; cbn [bind]; reflexivity.
Qed.

(** The text map is the fold of [text_step] over the characters. *)
Lemma char_fold_text dsize (l : line) :
  forall st st',
    foldM (char_step heatmap dsize) l st = Ok st' ->
    foldM (text_step heatmap dsize) (filter is_character l) (textmap (fst st))
    = Ok (textmap (fst st')).
Proof.
  induction l as [|q l IH]; intros [m prev] st'; cbn [foldM filter].
  - intros H. injection H as <-. reflexivity.
  - unfold char_step at 1, is_character at 1.
    destruct (is_space (c q)); cbn [negb bind].
    + intros H. exact (IH (m, None) st' H).
    + destruct (match prev with
                | Some prev0 => _
                | None => Ok (linkmap m)
                end) as [l'|e]; cbn [bind]; [|discriminate].
      destruct (iadd (textmap m) _) as [t'|e] eqn:Ht'; cbn [bind]; [|discriminate].
      intros H. cbn [foldM fst]. unfold text_step at 1. rewrite Ht'. cbn [bind].
      exact (IH (_, _) st' H).
Qed.

Lemma line_fold_text dsize (lines : list line) :
  forall m m',
    foldM (line_step heatmap dsize) lines m = Ok m' ->
    foldM (text_step heatmap dsize) (characters lines) (textmap m) = Ok (textmap m').
Proof.
  unfold characters.
  induction lines as [|l lines IH]; intros m m'; cbn [foldM concat].
  - intros H. injection H as <-. reflexivity.
  - unfold line_step at 1.
    destruct (foldM (char_step heatmap dsize) l (m, None)) as [st|e] eqn:Hl;
      cbn [bind]; [|discriminate].
    intros H. rewrite filter_app, foldM_app.
    pose proof (char_fold_text dsize l (m, None) st Hl) as Hc. cbn [fst] in Hc.
    rewrite Hc. cbn [bind].
    exact (IH (fst st) m' H).
Qed.

(** X7: the text channel depends on the lines through the sequence of
    their characters only: two groups of lines with the same non-space
    entries in the same order give the same text channel, however the
    entries are split into lines and wherever the spaces are. *)
Theorem compute_maps_text_channel
        (image_height image_width : Z) (lines lines' : list line)
        (maps maps' : matrix (spec_float * spec_float)) :
  characters lines = characters lines' ->
  compute_maps heatmap image_height image_width lines = Ok maps ->
  compute_maps heatmap image_height image_width lines' = Ok maps' ->
  matrix_map fst maps = matrix_map fst maps'.
Proof.
  intros Hchars. unfold compute_maps.
  destruct (assert (image_height mod 2 =? 0) _); cbn [bind]; [|discriminate].
  destruct (assert (image_width mod 2 =? 0) _); cbn [bind]; [|discriminate].
  destruct ((image_height / 2 <? 0) || (image_width / 2 <? 0)); [discriminate|].
  set (h := image_height / 2). set (w := image_width / 2).
  set (zero := zeros (of_Z32 0) (Z.to_nat h) (Z.to_nat w)).
  assert (Hzero : maps_shaped w h {| textmap := zero; linkmap := zero |})
    by (split; apply has_shape_zeros).
  destruct (foldM _ lines _) as [m|] eqn:Hm; cbn [bind]; [|discriminate].
  destruct (foldM _ lines' _) as [m'|] eqn:Hm'; cbn [bind]; [|discriminate].
  intros H1 H2. injection H1 as <-. injection H2 as <-.
  assert (Hshape : forall ls r,
             foldM (line_step heatmap (w, h)) ls {| textmap := zero; linkmap := zero |}
             = Ok r -> maps_shaped w h r).
  { intros ls r Hr.
    exact (foldM_invariant (line_step heatmap (w, h)) (maps_shaped w h)
             (fun s a s' => line_step_shape w h (w, h) s a s') ls _ r Hzero Hr). }
  destruct (Hshape lines m Hm) as [Ht Hl].
  destruct (Hshape lines' m' Hm') as [Ht' Hl'].
  rewrite !matrix_map_map. cbn [fst].
  rewrite (matrix_map_fst_pair normalise _ _ _ _ Ht Hl).
  rewrite (matrix_map_fst_pair normalise _ _ _ _ Ht' Hl').
  apply line_fold_text in Hm. apply line_fold_text in Hm'.
  cbn [textmap] in Hm, Hm'. rewrite Hchars in Hm. congruence.
Qed.

(** In a line of isolated characters the link map is never written. *)
Lemma isolated_line_link dsize (l : line) :
  forall m prev st',
    isolated l = true ->
    prev = None \/ match l with q :: _ => is_space (c q) = true | [] => True end ->
    foldM (char_step heatmap dsize) l (m, prev) = Ok st' ->
    linkmap (fst st') = linkmap m.
Proof.
  induction l as [|q l IH]; intros m prev st' Hiso Hprev; cbn [foldM].
  - intros H. injection H as <-. reflexivity.
  - assert (Hiso' : isolated l = true).
    { cbn [isolated] in Hiso. destruct l as [|q' l]; [reflexivity|].
      apply andb_true_iff in Hiso as [_ H]. exact H. }
    unfold char_step at 1. destruct (is_space (c q)) eqn:Hq; cbn [bind].
    + intros H. exact (IH m None st' Hiso' (or_introl eq_refl) H).
    + destruct Hprev as [-> | Hprev]; [|discriminate Hprev]. cbn [bind].
      destruct (iadd (textmap m) _) as [t'|e]; cbn [bind]; [|discriminate].
      intros H.
      refine (IH _ _ st' Hiso' _ H).
      right. cbn [isolated] in Hiso. destruct l as [|q' l]; [exact I|].
      apply andb_true_iff in Hiso as [Hor _]. rewrite Hq in Hor. exact Hor.
Qed.

Lemma isolated_lines_link dsize (lines : list line) :
  forall m m',
    forallb isolated lines = true ->
    foldM (line_step heatmap dsize) lines m = Ok m' ->
    linkmap m' = linkmap m.
Proof.
  induction lines as [|l lines IH]; intros m m' Hiso; cbn [foldM].
  - intros H. injection H as <-. reflexivity.
  - cbn [forallb] in Hiso. apply andb_true_iff in Hiso as [Hl Hlines].
    unfold line_step at 1.
    destruct (foldM (char_step heatmap dsize) l (m, None)) as [st|e] eqn:Hst;
      cbn [bind]; [|discriminate].
    intros H. rewrite (IH (fst st) m' Hlines H).
    exact (isolated_line_link dsize l m None st Hl (or_introl eq_refl) Hst).
Qed.

(** X8: the link channel is written only where two characters are
    neighbours in a line: if every character of every line has a space, or
    the end of the line, on both sides, the link channel of the result is
    zero everywhere. *)
Theorem compute_maps_isolated_characters_no_link
        (image_height image_width : Z) (lines : list line)
        (maps : matrix (spec_float * spec_float)) :
  forallb isolated lines = true ->
  compute_maps heatmap image_height image_width lines = Ok maps ->
  matrix_all (fun tl => snd tl = S754_zero false) maps.
Proof.
  intros Hiso. unfold compute_maps.
  destruct (assert (image_height mod 2 =? 0) _); cbn [bind]; [|discriminate].
  destruct (assert (image_width mod 2 =? 0) _); cbn [bind]; [|discriminate].
  destruct ((image_height / 2 <? 0) || (image_width / 2 <? 0)); [discriminate|].
  set (zero := zeros (of_Z32 0) _ _).
  destruct (foldM _ lines _) as [m|] eqn:Hm; cbn [bind]; [|discriminate].
  intros H. injection H as <-.
  apply isolated_lines_link in Hm; [|exact Hiso]. cbn [linkmap] in Hm. rewrite Hm.
  unfold matrix_all, matrix_map, matrix_map2.
  apply Forall_map.
  apply (Forall_zip_with (fun _ => True) (Forall (fun x => x = of_Z32 0))).
  - intros trow lrow _ Hlrow. apply Forall_map.
    apply (Forall_zip_with (fun _ => True) (fun x => x = of_Z32 0));
      [|apply Forall_forall; intros; exact I | exact Hlrow].
    intros t l _ ->. cbn [snd]. vm_compute. reflexivity.
  - apply Forall_forall. intros; exact I.
  - unfold zero, zeros. apply Forall_forall. intros row Hrow.
    apply repeat_spec in Hrow. subst row.
    apply Forall_forall. intros x Hx. apply repeat_spec in Hx. exact Hx.
Qed.

Lemma no_character_line dsize (l : line) :
  forall m prev,
    filter is_character l = [] ->
    exists prev', foldM (char_step heatmap dsize) l (m, prev) = Ok (m, prev').
Proof.
  induction l as [|q l IH]; intros m prev; cbn [foldM filter].
  - intros _. exists prev. reflexivity.
  - unfold is_character at 1, char_step at 1.
    destruct (is_space (c q)); cbn [negb bind]; [|discriminate].
    intros H. exact (IH m None H).
Qed.

Lemma no_character_lines dsize (lines : list line) (m : maps) :
  characters lines = [] ->
  foldM (line_step heatmap dsize) lines m = Ok m.
Proof.
  unfold characters. induction lines as [|l lines IH]; cbn [foldM concat].
  - reflexivity.
  - rewrite filter_app. intros H. apply app_eq_nil in H as [Hl Hlines].
    unfold line_step at 1.
    destruct (no_character_line dsize l m None Hl) as (prev' & ->).
    cbn [bind fst]. exact (IH Hlines).
Qed.

(** X9: lines without a character -- no line at all, empty lines, lines
    of spaces -- give, for even non-negative dimensions, the all-zero map of
    half the height and half the width, whatever the kernel is; no
    perspective transform is computed. *)
Theorem compute_maps_no_characters
        (image_height image_width : Z) (lines : list line) :
  characters lines = [] ->
  Z.even image_height = true -> Z.even image_width = true ->
  0 <= image_height -> 0 <= image_width ->
  compute_maps heatmap image_height image_width lines
  = Ok (zeros (S754_zero false, S754_zero false)
              (Z.to_nat (image_height / 2)) (Z.to_nat (image_width / 2))).
Proof.
  intros Hchars Hh Hw Hh0 Hw0. unfold compute_maps, assert.
  rewrite !mod2_odd, <- !Z.negb_even, Hh, Hw. cbn [negb bind].
  assert (Hh' : 0 <= image_height / 2) by (apply Z.div_pos; lia).
  assert (Hw' : 0 <= image_width / 2) by (apply Z.div_pos; lia).
  replace ((image_height / 2 <? 0) || (image_width / 2 <? 0)) with false
    by (symmetry; apply orb_false_iff; split; apply Z.ltb_ge; lia).
  rewrite (no_character_lines _ lines _ Hchars). cbn [bind textmap linkmap].
  unfold zeros, matrix_map, matrix_map2.
  rewrite zip_with_repeat, map_repeat, zip_with_repeat, map_repeat.
  reflexivity.
Qed.

End LineFacts.

Section LineSamples.
Import Float Synthesis Targets.
Local Open Scope string_scope.

Lemma compute_maps_even_returns_witness :
  exists maps,
    compute_maps (W := reference_warp) sample_kernel 8 12 (sample_lines "a" "b")
    = Ok maps /\
    has_shape (Z.to_nat (8 / 2)) (Z.to_nat (12 / 2)) maps /\
    2 * (8 / 2) = 8 /\ 2 * (12 / 2) = 12.
Proof.
  apply (compute_maps_even_returns (W := reference_warp)
           sample_kernel 8 12 (sample_lines "a" "b"));
    [reflexivity | reflexivity | lia | lia].
Defined.

Lemma compute_maps_space_splits_line_witness :
  compute_maps (W := reference_warp) sample_kernel 8 12
               ([] ++ ([sample_box 0 2 "a"; sample_box 4 2 "b"]
                         ++ sample_box 6 2 " " :: [sample_box 8 2 "a"]) :: [])%list
  = compute_maps (W := reference_warp) sample_kernel 8 12
                 ([] ++ [sample_box 0 2 "a"; sample_box 4 2 "b"]
                     :: [sample_box 8 2 "a"] :: [])%list.
Proof.
  apply (compute_maps_space_splits_line (W := reference_warp) sample_kernel 8 12
           [] [] [sample_box 0 2 "a"; sample_box 4 2 "b"] [sample_box 8 2 "a"]
           (sample_box 6 2 " ")).
  reflexivity.
Defined.

Lemma compute_maps_text_channel_witness :
  exists maps maps',
    compute_maps (W := reference_warp) sample_kernel 8 12 (sample_lines "a" "b")
    = Ok maps /\
    compute_maps (W := reference_warp) sample_kernel 8 12
                 [[sample_box 0 2 "a"]; [sample_box 4 2 "b"; sample_box 8 2 "a"]]
    = Ok maps' /\
    maps <> maps' /\
    matrix_map fst maps = matrix_map fst maps'.
Proof.
  eexists. eexists.
  split; [vm_compute; reflexivity|].
  split; [vm_compute; reflexivity|].
  split; [discriminate|].
  apply (compute_maps_text_channel (W := reference_warp) sample_kernel 8 12
           (sample_lines "a" "b")
           [[sample_box 0 2 "a"]; [sample_box 4 2 "b"; sample_box 8 2 "a"]]).
  - reflexivity.
  - vm_compute. reflexivity.
  - vm_compute. reflexivity.
Defined.

Lemma compute_maps_isolated_characters_no_link_witness :
  exists maps,
    compute_maps (W := reference_warp) sample_kernel 8 12
                 [[sample_box 0 2 "a"; sample_box 4 2 " "; sample_box 8 2 "b"]]
    = Ok maps /\
    matrix_all (fun tl => snd tl = S754_zero false) maps.
Proof.
  eexists. split; [vm_compute; reflexivity|].
  apply (compute_maps_isolated_characters_no_link (W := reference_warp)
           sample_kernel 8 12
           [[sample_box 0 2 "a"; sample_box 4 2 " "; sample_box 8 2 "b"]]).
  - reflexivity.
  - vm_compute. reflexivity.
Defined.

Lemma compute_maps_no_characters_witness :
  compute_maps (W := reference_warp) sample_kernel 8 12 [[sample_box 6 2 " "]; []]
  = Ok (zeros (S754_zero false, S754_zero false) (Z.to_nat (8 / 2)) (Z.to_nat (12 / 2))).
Proof.
  apply (compute_maps_no_characters (W := reference_warp) sample_kernel 8 12
           [[sample_box 6 2 " "]; []]);
    [reflexivity | reflexivity | reflexivity | lia | lia].
Defined.

End LineSamples.

(* ================================================================= *)
(** ** The Gaussian kernel: entries, shape, symmetry *)

Lemma has_shape_matrix_map {A B} (f : A -> B) (h w : nat) (m : matrix A) :
  has_shape h w m -> has_shape h w (matrix_map f m).
Proof.
  intros [Hh Hw]. unfold has_shape, matrix_map. split.
  - rewrite length_map. exact Hh.
  - apply Forall_map. eapply Forall_impl; [|exact Hw].
    intros row Hrow. rewrite length_map. exact Hrow.
Qed.

Section KernelFacts.
Import Float FloatRange Kernel.

Lemma length_linspace (start stop : spec_float) (num : nat) :
  length (linspace start stop num) = num.
Proof.
  unfold linspace.
  assert (Hy : forall f g : spec_float -> spec_float,
             length (map f (map g (map (fun i => of_Z64 (Z.of_nat i)) (seq 0 num)))) = num).
  { intros f g. rewrite !length_map, length_seq. reflexivity. }
  destruct (0 <? Z.of_nat num - 1) eqn:Hdiv.
  - apply Z.ltb_lt in Hdiv. rewrite length_app, length_firstn. cbn [length].
    destruct (SFeqb _ _); rewrite Hy; lia.
  - apply Hy.
Qed.

(** The coordinates are [size] points from [-size/2] to [size/2], both
    ends included, one step of [size / (size - 1)] apart: they are not
    integers in general.  The last one is the upper end itself. *)
Lemma grid_coord_formula (size : Z) (n : nat) :
  2 <= size -> (n < Z.to_nat size)%nat ->
  let start := div64 (of_Z64 (- size)) (of_Z64 2) in
  let stop := div64 (of_Z64 size) (of_Z64 2) in
  let div := of_Z64 (size - 1) in
  let step := div64 (sub64 stop start) div in
  grid_coord size n
  = SFabs (if (Z.of_nat n =? size - 1) then stop
           else add64 (if SFeqb step (of_Z64 0)
                       then mul64 (div64 (of_Z64 (Z.of_nat n)) div) (sub64 stop start)
                       else mul64 (of_Z64 (Z.of_nat n)) step)
                      start).
Proof.
  intros Hsize Hn. cbv zeta. unfold grid_coord, linspace. f_equal.
  rewrite Z2Nat.id by lia.
  replace (0 <? size - 1) with true by (symmetry; apply Z.ltb_lt; lia).
  set (start := div64 (of_Z64 (- size)) (of_Z64 2)).
  set (stop := div64 (of_Z64 size) (of_Z64 2)).
  set (div := of_Z64 (size - 1)).
  set (step := div64 (sub64 stop start) div).
  set (y := map (fun y => add64 y start) _).
  assert (Hlen : length y = Z.to_nat size).
  { unfold y. destruct (SFeqb step (of_Z64 0)); rewrite !length_map, length_seq; reflexivity. }
  destruct (Z.of_nat n =? size - 1) eqn:Hlast.
  - apply Z.eqb_eq in Hlast.
    rewrite app_nth2 by (rewrite length_firstn; lia).
    rewrite length_firstn, Hlen.
    replace (n - Nat.min (Z.to_nat size - 1) (Z.to_nat size))%nat with 0%nat by lia.
    reflexivity.
  - apply Z.eqb_neq in Hlast.
    rewrite app_nth1 by (rewrite length_firstn; lia).
    rewrite nth_firstn.
    replace (n <? Z.to_nat size - 1)%nat with true by (symmetry; apply Nat.ltb_lt; lia).
    unfold y.
    destruct (SFeqb step (of_Z64 0));
      rewrite (nth_map_lt _ _ _ _ S754_nan) by (rewrite !length_map, length_seq; exact Hn);
      rewrite (nth_map_lt _ _ _ _ S754_nan) by (rewrite !length_map, length_seq; exact Hn);
      rewrite (nth_map_lt _ _ _ _ 0%nat) by (rewrite length_seq; exact Hn);
      rewrite seq_nth by exact Hn; reflexivity.
Qed.

(** Rounding to binary64 leaves a mantissa of at most 53 bits. *)
Lemma binary_round_aux_rounded64 (s : bool) (m e : Z) (l : location) :
  0 <= m -> rounded64 (binary_round_aux prec64 emax64 s m e l).
Proof.
  intros Hm. unfold binary_round_aux, shr_fexp.
  set (r1 := shr (shr_record_of_loc m l) e _).
  assert (H1 : 0 <= shr_m (fst r1)).
  { apply shr_nonneg. rewrite shr_record_of_loc_m. exact Hm. }
  destruct r1 as [mrs1 e1]. cbn [fst] in H1.
  destruct (round_nearest_even_bounds mrs1 H1) as [H2 _].
  set (m2 := round_nearest_even (shr_m mrs1) (loc_of_shr_record mrs1)) in *.
  set (k2 := fexp prec64 emax64 (Zdigits2 m2 + e1) - e1).
  assert (H3 : below (2 ^ 53) (fst (shr (shr_record_of_loc m2 loc_Exact) e1 k2))).
  { apply shr_below. unfold below. cbn [shr_record_of_loc shr_m].
    split; [exact H2|].
    pose proof (Zdigits2_bounds m2 H2) as Hd.
    assert (Hf : Zdigits2 m2 + e1 - 53 <= fexp prec64 emax64 (Zdigits2 m2 + e1))
      by (unfold fexp, emin, prec64, emax64; lia).
    assert (Hk : Zdigits2 m2 <= Z.max 0 k2 + 53) by (unfold k2; lia).
    assert (Hp : 2 ^ Zdigits2 m2 <= 2 ^ (Z.max 0 k2 + 53)).
    { apply Z.pow_le_mono_r; [lia | exact Hk]. }
    rewrite Z.pow_add_r in Hp by lia. lia. }
  destruct (shr (shr_record_of_loc m2 loc_Exact) e1 k2) as [mrs3 e3].
  cbn [fst] in H3. unfold below in H3.
  destruct (shr_m mrs3) as [|p|p]; [exact I | | exact I].
  destruct (e3 <=? emax64 - prec64); [|exact I].
  cbn [rounded64]. lia.
Qed.

Lemma mul64_rounded64 (x y : spec_float) : rounded64 (mul64 x y).
Proof.
  destruct x as [sx|sx| |sx mx ex], y as [sy|sy| |sy my ey];
    cbn [mul64 SFmul]; try exact I.
  apply binary_round_aux_rounded64. lia.
Qed.

(** [clip(0, 255)] followed by the truncation gives a number from 0 to
    255, whatever the value: the conversion to 8 bits does not wrap. *)
Lemma trunc_clip_u8 (x : spec_float) :
  rounded64 x -> 0 <= trunc (clip (of_Z64 0) (of_Z64 255) x) <= 255.
Proof.
  assert (H0 : of_Z64 0 = S754_zero false) by reflexivity.
  assert (H255 : of_Z64 255 = S754_finite false 8972014882652160 (-45))
    by (vm_compute; reflexivity).
  rewrite H0, H255. clear H0 H255.
  destruct x as [s|s| |s m e]; intros Hx.
  - destruct s; vm_compute; split; discriminate.
  - destruct s; vm_compute; split; discriminate.
  - vm_compute; split; discriminate.
  - destruct s.
    + vm_compute; split; discriminate.
    + cbn [rounded64] in Hx.
      unfold clip, maximum. cbn [is_nan].
      replace (SFltb (S754_finite false m e) (S754_zero false)) with false by reflexivity.
      unfold minimum, SFltb. cbn [is_nan]. rewrite SFcompare_finite.
      destruct (lex (-45) 8972014882652160 e m) eqn:E.
      * apply lex_Eq in E as [<- Hm]. cbn [trunc].
        change (2 ^ 45) with 35184372088832.
        split; [apply Z.div_pos; lia|].
        apply Z.div_le_upper_bound; lia.
      * vm_compute; split; discriminate.
      * apply lex_Gt in E. cbn [trunc].
        destruct e as [|p|p]; [lia | lia|].
        assert (Hpos : 0 < 2 ^ Zpos p) by (apply Z.pow_pos_nonneg; lia).
        split; [apply Z.div_pos; lia|].
        apply Z.div_le_upper_bound; [exact Hpos|].
        destruct E as [E|[E Hm]].
        -- assert (H46 : 2 ^ 46 <= 2 ^ Zpos p) by (apply Z.pow_le_mono_r; lia).
           change (2 ^ 46) with 70368744177664 in H46.
           change (2 ^ 53) with 9007199254740992 in Hx. lia.
        -- injection E as <-. change (2 ^ 45) with 35184372088832. lia.
Qed.

Context {L : Libm}.

(** Every entry of the kernel, from the array operations of the code. *)
Lemma kernel_entry (size : Z) (distanceRatio : spec_float) (k : matrix Z) (i j : nat) :
  get_gaussian_heatmap size distanceRatio = Ok k ->
  (i < Z.to_nat size)%nat -> (j < Z.to_nat size)%nat ->
  entry k i j = to_u8 (clip (of_Z64 0) (of_Z64 255) (intensity size distanceRatio i j)).
Proof.
  unfold get_gaussian_heatmap.
  destruct (size <? 0); [discriminate|].
  destruct (size =? 0); [discriminate|].
  unfold meshgrid.
  set (v := map SFabs (linspace _ _ (Z.to_nat size))).
  assert (Hlen : length v = Z.to_nat size).
  { unfold v. rewrite length_map. apply length_linspace. }
  assert (Hv : forall n d, (n < Z.to_nat size)%nat -> nth n v d = grid_coord size n).
  { intros n d Hn. unfold v, grid_coord.
    apply nth_map_lt. rewrite length_linspace. exact Hn. }
  clearbody v.
  intros Hk Hi Hj. injection Hk as <-.
  unfold entry, matrix_map, matrix_map2.
  rewrite !map_map.
  rewrite (nth_map_lt _ _ _ _ []).
  2:{ rewrite length_zip_with by (rewrite !length_map; reflexivity).
      rewrite length_map, Hlen. exact Hi. }
  rewrite (nth_zip_with _ _ _ _ _ [] []) by (rewrite length_map, Hlen; exact Hi).
  rewrite (nth_map_lt _ v i _ S754_nan) by (rewrite Hlen; exact Hi).
  rewrite (nth_map_lt _ v i _ S754_nan) by (rewrite Hlen; exact Hi).
  rewrite !map_map.
  rewrite (nth_map_lt _ _ _ _ S754_nan).
  2:{ rewrite length_zip_with by (rewrite length_map; reflexivity).
      rewrite Hlen. exact Hj. }
  rewrite (nth_zip_with _ _ _ _ _ S754_nan S754_nan)
    by (rewrite ?length_map, Hlen; exact Hj).
  rewrite (nth_map_lt _ v j _ S754_nan) by (rewrite Hlen; exact Hj).
  rewrite (Hv j _ Hj), (Hv i _ Hi).
  reflexivity.
Qed.

(** C3, amended: the entry at row [i] and column [j] is the float64
    number [intensity size distanceRatio i j], that is [exp(-d^2/2) * 255]
    with every operation rounded to float64, clipped to [0, 255] and
    truncated (not rounded) to an integer, which is a number from 0 to
    255; [d] is the distance from the origin of the point of coordinates
    [grid_coord size j] and [grid_coord size i], scaled by
    [distanceRatio / (size / 2)], and the coordinates are those of
    [np.linspace(-size/2, size/2, size)] in absolute value. *)
Theorem gaussian_kernel_entry
        (size : Z) (distanceRatio : spec_float) (k : matrix Z) (i j : nat) :
  get_gaussian_heatmap size distanceRatio = Ok k ->
  (i < Z.to_nat size)%nat -> (j < Z.to_nat size)%nat ->
  entry k i j = trunc (clip (of_Z64 0) (of_Z64 255) (intensity size distanceRatio i j))
  /\ valid_u8 (entry k i j).
Proof.
  intros Hk Hi Hj.
  rewrite (kernel_entry size distanceRatio k i j Hk Hi Hj).
  pose proof (trunc_clip_u8 (intensity size distanceRatio i j) (mul64_rounded64 _ _)) as Hr.
  unfold to_u8. rewrite Z.mod_small by lia.
  split; [reflexivity | exact Hr].
Qed.

(** With a distance ratio of [1e200] the square of the scaled distance
    overflows wherever the distance is not zero, and [exp(-inf)] is 0: the
    2 x 2 kernel, whose coordinates are 1 and 1 in absolute value, is zero
    everywhere, whatever the exponential of the platform. *)
Lemma kernel_overflow :
  get_gaussian_heatmap 2 (of_Z64 (10 ^ 200)) = Ok [[0; 0]; [0; 0]].
Proof.
  unfold get_gaussian_heatmap. cbn [Z.ltb Z.eqb Z.compare].
  set (v := map SFabs _).
  replace v with [of_Z64 1; of_Z64 1] by (vm_compute; reflexivity).
  cbn [meshgrid map]. unfold matrix_map2, matrix_map. cbn [zip_with map].
  set (x := mul64 minus_half _).
  replace x with (S754_infinity true) by (vm_compute; reflexivity).
  rewrite np_exp_neg_infinity. vm_compute. reflexivity.
Qed.

(** X10: for every size of at least 1 the kernel is a [size] x [size]
    array of 8-bit values: the kernel [compute_maps] is given satisfies
    what the range of its result rests on. *)
Theorem gaussian_kernel_shape (size : Z) (distanceRatio : spec_float) (k : matrix Z) :
  get_gaussian_heatmap size distanceRatio = Ok k ->
  1 <= size /\
  has_shape (Z.to_nat size) (Z.to_nat size) k /\
  matrix_all valid_u8 k.
Proof.
  unfold get_gaussian_heatmap.
  destruct (size <? 0) eqn:Hneg; [discriminate|].
  destruct (size =? 0) eqn:Hzero; [discriminate|].
  apply Z.ltb_ge in Hneg. apply Z.eqb_neq in Hzero.
  unfold meshgrid.
  set (v := map SFabs _).
  assert (Hlen : length v = Z.to_nat size).
  { unfold v. rewrite length_map. apply length_linspace. }
  clearbody v.
  intros Hk. injection Hk as <-.
  split; [lia|]. split.
  - do 4 apply has_shape_matrix_map.
    apply has_shape_matrix_map2.
    + split; [rewrite length_map; exact Hlen|].
      apply Forall_map, Forall_forall. intros _ _. exact Hlen.
    + split; [rewrite length_map; exact Hlen|].
      apply Forall_map, Forall_forall. intros wi _. rewrite length_map. exact Hlen.
  - unfold matrix_all, matrix_map at 1.
    apply Forall_map, Forall_forall. intros row _.
    apply Forall_map, Forall_forall. intros g _.
    unfold to_u8, valid_u8.
    match goal with
    | |- 0 <= ?x mod 256 <= 255 => pose proof (Z.mod_pos_bound x 256 ltac:(lia)); lia
    end.
Qed.

Lemma SFadd_comm (prec emax : Z) (x y : spec_float) :
  SFadd prec emax x y = SFadd prec emax y x.
Proof.
  destruct x as [sx|sx| |sx mx ex], y as [sy|sy| |sy my ey]; cbn [SFadd];
    try reflexivity;
    try (destruct sx, sy; reflexivity).
  rewrite (Z.min_comm ey ex), Z.add_comm. reflexivity.
Qed.

(** X11: the kernel is its own transpose. *)
Theorem gaussian_kernel_symmetric
        (size : Z) (distanceRatio : spec_float) (k : matrix Z) (i j : nat) :
  get_gaussian_heatmap size distanceRatio = Ok k ->
  (i < Z.to_nat size)%nat -> (j < Z.to_nat size)%nat ->
  entry k i j = entry k j i.
Proof.
  intros Hk Hi Hj.
  rewrite (kernel_entry size distanceRatio k i j Hk Hi Hj).
  rewrite (kernel_entry size distanceRatio k j i Hk Hj Hi).
  unfold intensity, scaled_distance, add64.
  rewrite (SFadd_comm _ _ (square (grid_coord size j))). reflexivity.
Qed.

End KernelFacts.

Section KernelSamples.
Import Float Kernel.
Local Open Scope R_scope.

(** The 3 x 3 kernel of ratio 1, with the reference exponential. *)
Lemma kernel_3_1 :
  get_gaussian_heatmap (L := reference_libm) 3 (of_Z64 1)
  = Ok [[93; 154; 93]; [154; 255; 154]; [93; 154; 93]]%Z.
Proof. vm_compute. reflexivity. Qed.

(** A ratio so small that every intensity rounds to 255: the even-sized
    kernel is 255 everywhere. *)
Lemma kernel_4_tiny :
  get_gaussian_heatmap (L := reference_libm) 4 (literal64 1 1000000000)
  = Ok (repeat (repeat 255%Z 4) 4).
Proof. vm_compute. reflexivity. Qed.

Lemma spec_corner_3_1 : (142 <= spec_kernel_px 3 (real (of_Z64 1)) 0 0)%Z.
Proof.
  assert (Hone : real (of_Z64 1) = 1).
  { unfold real. replace (value (of_Z64 1)) with (4503599627370496 # 4503599627370496)%Q
      by (vm_compute; reflexivity).
    unfold Q2R. cbn [Qnum Qden]. field. }
  rewrite Hone.
  assert (Hd : spec_distance 3 1 0 0 ^ 2 = 8 / 9).
  { unfold spec_distance, spec_coord.
    replace (Z.of_nat 0 - 3 / 2)%Z with (-1)%Z by reflexivity.
    rewrite Rpow_mult_distr, pow2_sqrt by nra. field. }
  unfold spec_kernel_px, round. rewrite Hd.
  set (y := 255 * exp (- (1 / 2) * (8 / 9)) + 1 / 2).
  assert (Hy : 142 < y).
  { unfold y. pose proof (exp_ineq1_le (- (1 / 2) * (8 / 9))) as H1. lra. }
  destruct (base_Int_part y) as [_ Hy2].
  assert (Hspec : (141 < Int_part y)%Z) by (apply lt_IZR; lra).
  lia.
Qed.

Lemma spec_centre_2 (r : R) : spec_kernel_px 2 r 1 1 = 255%Z.
Proof.
  unfold spec_kernel_px, round, spec_distance, spec_coord.
  replace (Z.of_nat 1 - 2 / 2)%Z with 0%Z by reflexivity.
  assert (Hs : sqrt (0 ^ 2 + 0 ^ 2) = 0).
  { replace (0 ^ 2 + 0 ^ 2) with 0 by ring. apply sqrt_0. }
  rewrite Hs.
  replace (- (1 / 2) * (0 * (r / (2 / 2))) ^ 2) with 0 by ring.
  rewrite exp_0.
  replace (255 * 1 + 1 / 2) with (IZR 255 + 1 / 2) by ring.
  assert (H : Int_part (IZR 255 + 1 / 2) = 255%Z).
  { symmetry. apply Int_part_spec. lra. }
  rewrite H. reflexivity.
Qed.

(** C3 as stated fails.  At size 3 and ratio 1 the code puts the corner at
    distance 3/2 per axis and truncates, which gives 93; the integer grid
    with rounding gives at least 142.  At size 2 and ratio 1e200 the code
    has no pixel at the origin and every entry is 0, whatever the
    exponential of the platform; the integer grid has one, with the
    value 255. *)
Lemma kernel_differs_from_spec :
  (exists k, get_gaussian_heatmap (L := reference_libm) 3 (of_Z64 1) = Ok k /\
             entry k 0 0 = 93%Z /\
             (142 <= spec_kernel_px 3 (real (of_Z64 1)) 0 0)%Z) /\
  (exists k, get_gaussian_heatmap (L := reference_libm) 2 (of_Z64 (10 ^ 200)) = Ok k /\
             entry k 1 1 = 0%Z /\
             spec_kernel_px 2 (real (of_Z64 (10 ^ 200))) 1 1 = 255%Z).
Proof.
  split.
  - eexists. split; [exact kernel_3_1|].
    split; [reflexivity | exact spec_corner_3_1].
  - eexists. split; [exact (kernel_overflow (L := reference_libm))|].
    split; [reflexivity | apply spec_centre_2].
Qed.

(** [distanceRatio = 424.2325819999614] *)
Lemma sample_ratio_rounded :
  literal64 4242325819999614 (10 ^ 13) = S754_finite false 7463178508646287 (-44).
Proof. vm_compute. reflexivity. Qed.

(** X12: the kernel is not symmetric under a half turn.  The coordinates
    of [np.linspace] are not symmetric in float64: of the 512 coordinates
    from -256 to 256, those of index 255 and 256, mirror images of each
    other, differ in the last places.  With the distance ratio
    424.2325819999614 and the reference exponential, the entries (255, 255)
    and (256, 256), images of each other by the half turn, are 127 and 128,
    and so are (255, 255) and (256, 255), images of each other by the
    mirror of the rows. *)
Theorem gaussian_kernel_not_symmetric (k : matrix Z) :
  get_gaussian_heatmap (L := reference_libm) 512 (literal64 4242325819999614 (10 ^ 13))
  = Ok k ->
  grid_coord 512 255 <> grid_coord 512 256 /\
  entry k 255 255 = 127%Z /\ entry k 256 256 = 128%Z /\ entry k 256 255 = 128%Z.
Proof.
  intros Hk.
  assert (H255 : (255 < Z.to_nat 512)%nat) by (apply Nat.ltb_lt; vm_compute; reflexivity).
  assert (H256 : (256 < Z.to_nat 512)%nat) by (apply Nat.ltb_lt; vm_compute; reflexivity).
  split; [vm_compute; discriminate|].
  rewrite (kernel_entry 512 _ k 255 255 Hk H255 H255).
  rewrite (kernel_entry 512 _ k 256 256 Hk H256 H256).
  rewrite (kernel_entry 512 _ k 256 255 Hk H256 H255).
  repeat split; vm_compute; reflexivity.
Qed.

End KernelSamples.

Lemma gaussian_kernel_entry_witness :
  exists k, Kernel.get_gaussian_heatmap (L := reference_libm) 3 (Float.of_Z64 1) = Ok k /\
            Kernel.entry k 0 0
            = Float.trunc (Float.clip (Float.of_Z64 0) (Float.of_Z64 255)
                             (Kernel.intensity 3 (Float.of_Z64 1) 0 0)) /\
            valid_u8 (Kernel.entry k 0 0).
Proof.
  eexists. split; [reflexivity|].
  apply (gaussian_kernel_entry (L := reference_libm) 3 (Float.of_Z64 1) _ 0 0 eq_refl);
    cbn; lia.
Defined.

Lemma gaussian_kernel_shape_witness :
  exists k, Kernel.get_gaussian_heatmap (L := reference_libm) 3 (Float.of_Z64 1) = Ok k /\
            1 <= 3 /\ has_shape (Z.to_nat 3) (Z.to_nat 3) k /\ matrix_all valid_u8 k.
Proof.
  eexists. split; [reflexivity|].
  apply (gaussian_kernel_shape (L := reference_libm) 3 (Float.of_Z64 1) _ eq_refl).
Defined.

Lemma gaussian_kernel_not_symmetric_witness :
  exists k,
    Kernel.get_gaussian_heatmap (L := reference_libm) 512
                                (Float.literal64 4242325819999614 (10 ^ 13)) = Ok k /\
    Kernel.grid_coord 512 255 <> Kernel.grid_coord 512 256 /\
    Kernel.entry k 255 255 = 127 /\ Kernel.entry k 256 256 = 128 /\
    Kernel.entry k 256 255 = 128.
Proof.
  eexists. split; [reflexivity|].
  apply (gaussian_kernel_not_symmetric _ eq_refl).
Defined.

Lemma gaussian_kernel_symmetric_witness :
  exists k, Kernel.get_gaussian_heatmap (L := reference_libm) 3 (Float.of_Z64 1) = Ok k /\
            Kernel.entry k 0 1 = Kernel.entry k 1 0.
Proof.
  eexists. split; [reflexivity|].
  apply (gaussian_kernel_symmetric (L := reference_libm) 3 (Float.of_Z64 1) _ 0 1 eq_refl);
    cbn; lia.
Defined.

(* ================================================================= *)
(** ** Normalisation: the direction of the error, and injectivity *)


(** A function on 8-bit values that increases at every step increases. *)
Lemma increasing_u8 (f : Z -> spec_float) :
  forallb (fun v => SFltb (f v) (f (v + 1))) (map Z.of_nat (seq 0 255)) = true ->
  forall v v', 0 <= v -> v < v' -> v' <= 255 -> SFltb (f v) (f v') = true.
Proof.
  intros Hall.
  assert (Hstep : forall v, 0 <= v < 255 -> SFltb (f v) (f (v + 1)) = true).
  { intros v Hv. rewrite forallb_forall in Hall. apply Hall.
    apply in_map_iff. exists (Z.to_nat v). split; [lia|]. apply in_seq. lia. }
  intros v v' Hv Hlt Hv'.
  replace v' with (v + 1 + Z.of_nat (Z.to_nat (v' - v - 1))) in * by lia.
  induction (Z.to_nat (v' - v - 1)) as [|n IH].
  - rewrite Z.add_0_r. apply Hstep. lia.
  - apply (SFltb_trans _ (f (v + 1 + Z.of_nat n))).
    + apply IH; lia.
    + replace (v + 1 + Z.of_nat (S n)) with (v + 1 + Z.of_nat n + 1) by lia.
      apply Hstep. lia.
Qed.

Lemma map_injective_on {A B} (P : A -> Prop) (f : A -> B) :
  (forall a b, P a -> P b -> f a = f b -> a = b) ->
  forall l l', Forall P l -> Forall P l' -> map f l = map f l' -> l = l'.
Proof.
  intros Hf. induction l as [|a l IH]; intros [|b l'] Hl Hl' H; cbn in H;
    try discriminate; [reflexivity|].
  inversion Hl; subst. inversion Hl'; subst. injection H as Hab Hll'.
  f_equal; [apply Hf; assumption | apply IH; assumption].
Qed.

Section NormaliseOrder.
Import Float Normalise.

(** One channel of [compute_input]: mean [m], deviation [s]. *)
Lemma compute_input_px_channels (r g b : Z) :
  compute_input_px (rgb_map of_Z32 (r, g, b)) =
  (inplace32 div64 (inplace32 sub64 (of_Z32 r) (fst (fst mean255))) (fst (fst variance255)),
   inplace32 div64 (inplace32 sub64 (of_Z32 g) (snd (fst mean255))) (snd (fst variance255)),
   inplace32 div64 (inplace32 sub64 (of_Z32 b) (snd mean255)) (snd variance255)).
Proof.
  unfold compute_input_px, mean255, variance255, mean, variance.
  cbn [rgb_map rgb_map2 fst snd]. reflexivity.
Qed.

Lemma channel_increasing (m s : spec_float) :
  forallb (fun v => SFltb (inplace32 div64 (inplace32 sub64 (of_Z32 v) m) s)
                          (inplace32 div64 (inplace32 sub64 (of_Z32 (v + 1)) m) s))
          (map Z.of_nat (seq 0 255)) = true ->
  forall v v', valid_u8 v -> valid_u8 v' ->
               inplace32 div64 (inplace32 sub64 (of_Z32 v) m) s
               = inplace32 div64 (inplace32 sub64 (of_Z32 v') m) s ->
               v = v'.
Proof.
  intros Hall v v' [Hv0 Hv1] [Hv0' Hv1'] Heq.
  pose proof (increasing_u8 (fun v => inplace32 div64 (inplace32 sub64 (of_Z32 v) m) s) Hall)
    as Hinc. cbn beta in Hinc.
  destruct (Z.lt_trichotomy v v') as [Hlt | [Hvv | Hgt]]; [|exact Hvv|].
  - specialize (Hinc v v' Hv0 Hlt Hv1'). rewrite Heq, SFltb_irrefl in Hinc. discriminate.
  - specialize (Hinc v' v Hv0' Hgt Hv1). rewrite Heq, SFltb_irrefl in Hinc. discriminate.
Qed.

Lemma compute_input_px_injective (p q : rgb Z) :
  rgb_all valid_u8 p -> rgb_all valid_u8 q ->
  compute_input_px (rgb_map of_Z32 p) = compute_input_px (rgb_map of_Z32 q) -> p = q.
Proof.
  destruct p as [[r g] b], q as [[r' g'] b']. intros (Hr & Hg & Hb) (Hr' & Hg' & Hb').
  rewrite !compute_input_px_channels. intros H. injection H as H1 H2 H3.
  f_equal; [f_equal|].
  - revert H1. apply channel_increasing; [vm_compute; reflexivity | exact Hr | exact Hr'].
  - revert H2. apply channel_increasing; [vm_compute; reflexivity | exact Hg | exact Hg'].
  - revert H3. apply channel_increasing; [vm_compute; reflexivity | exact Hb | exact Hb'].
Qed.

(** X14: [compute_input] loses nothing: on 8-bit images it is
    injective, the normalised value growing strictly with the pixel value in
    each channel.  What the round trip loses, it loses in [invert_input]. *)
Theorem compute_input_injective (im im' : image Z) :
  image_all valid_u8 im -> image_all valid_u8 im' ->
  compute_input im = compute_input im' -> im = im'.
Proof.
  unfold compute_input, image_all. rewrite !image_map_map. unfold image_map.
  apply (map_injective_on (Forall (rgb_all valid_u8))).
  intros row row'.
  apply (map_injective_on (rgb_all valid_u8)).
  exact compute_input_px_injective.
Qed.

Lemma roundtrip_channel_below (m s : spec_float) :
  forallb (fun v => (roundtrip_channel m s v =? v) || (roundtrip_channel m s v =? v - 1))
          (map Z.of_nat (seq 0 256)) = true ->
  forall v, valid_u8 v ->
            roundtrip_channel m s v = v \/ roundtrip_channel m s v = v - 1.
Proof.
  intros Hall v Hv.
  pose proof (forall_u8 _ Hall v Hv) as H. cbn beta in H.
  apply orb_true_iff in H as [H|H]; apply Z.eqb_eq in H; [left | right]; exact H.
Qed.

(** X15: the round trip never overshoots: every channel of every pixel
    of [invert_input (compute_input I)] is the original value or the
    original value less 1, never more. *)
Theorem invert_compute_input_never_above (im : image Z) :
  image_all valid_u8 im ->
  image_all2 (fun v w => w = v \/ w = v - 1) im (invert_input (compute_input im)).
Proof.
  unfold image_all, image_all2, invert_input, compute_input, image_map.
  intros Hall. rewrite !map_map.
  apply Forall2_map_r.
  eapply Forall_impl; [|exact Hall].
  intros row Hrow. rewrite !map_map. apply Forall2_map_r.
  eapply Forall_impl; [|exact Hrow].
  intros [[r g] b] (Hr & Hg & Hb). rewrite roundtrip_px_channels. cbn [rgb_all2].
  split; [|split].
  - revert r Hr. apply roundtrip_channel_below. vm_compute. reflexivity.
  - revert g Hg. apply roundtrip_channel_below. vm_compute. reflexivity.
  - revert b Hb. apply roundtrip_channel_below. vm_compute. reflexivity.
Qed.

Lemma sample_image_u8 : image_all valid_u8 sample_image.
Proof.
  unfold sample_image, image_all, valid_u8. repeat constructor; cbn; lia.
Qed.

Lemma compute_input_injective_witness :
  image_all valid_u8 sample_image /\ sample_image = sample_image.
Proof.
  split; [exact sample_image_u8|].
  apply (compute_input_injective sample_image sample_image
           sample_image_u8 sample_image_u8).
  reflexivity.
Defined.

Lemma invert_compute_input_never_above_witness :
  image_all valid_u8 sample_image /\
  image_all2 (fun v w => w = v \/ w = v - 1) sample_image
             (invert_input (compute_input sample_image)).
Proof.
  split; [exact sample_image_u8|].
  apply (invert_compute_input_never_above sample_image sample_image_u8).
Defined.

End NormaliseOrder.

(* ================================================================= *)
(** ** [copyStateDict]: keys, prefix, collisions *)

Section StringFacts.
Import Py.
Local Open Scope string_scope.

Lemma split_dot_nonempty (s : string) : split_dot s <> [].
Proof.
  induction s as [|ch s IH]; cbn [split_dot]; [discriminate|].
  destruct (Ascii.eqb ch "."); [discriminate|].
  destruct (split_dot s); [contradiction | discriminate].
Qed.

Lemma join_dot_cons (w : string) (ws : list string) :
  ws <> [] -> join_dot (w :: ws) = w ++ String "." (join_dot ws).
Proof. destruct ws; [contradiction | reflexivity]. Qed.

(** Joining the pieces gives the string back. *)
Lemma join_split_dot (s : string) : join_dot (split_dot s) = s.
Proof.
  induction s as [|ch s IH]; [reflexivity|]. cbn [split_dot].
  destruct (Ascii.eqb ch ".") eqn:Hch.
  - apply Ascii.eqb_eq in Hch. subst ch.
    rewrite join_dot_cons by apply split_dot_nonempty. rewrite IH. reflexivity.
  - pose proof (split_dot_nonempty s) as Hne.
    destruct (split_dot s) as [|w ws]; [contradiction|].
    destruct ws as [|w' ws].
    + cbn [join_dot] in *. rewrite IH. reflexivity.
    + rewrite join_dot_cons in IH by discriminate.
      rewrite join_dot_cons by discriminate. rewrite <- IH. reflexivity.
Qed.

Lemma split_dot_wrapped (k : string) :
  split_dot (StateDict.wrapped k) = "module" :: split_dot k.
Proof.
  unfold StateDict.wrapped. cbn [String.append split_dot Ascii.eqb Bool.eqb].
  reflexivity.
Qed.

Lemma startswith_wrapped (k : string) : startswith (StateDict.wrapped k) "module" = true.
Proof. reflexivity. Qed.

End StringFacts.

Section DictFacts.
Import Py.
Context {V : Type}.

Lemma setitem_new (d : dict V) (k : string) (v : V) :
  ~ In k (map fst d) -> setitem d k v = d ++ [(k, v)].
Proof.
  induction d as [|[k' v'] d IH]; cbn [setitem map fst In app]; intros Hk; [reflexivity|].
  destruct (String.eqb k' k) eqn:He.
  - apply String.eqb_eq in He. exfalso. apply Hk. left. exact He.
  - rewrite IH; [reflexivity|]. intros H. apply Hk. right. exact H.
Qed.

Lemma fold_setitem_distinct (f : string -> string) (d acc : dict V) :
  NoDup (map fst acc ++ map (fun kv => f (fst kv)) d) ->
  fold_left (fun nd kv => setitem nd (f (fst kv)) (snd kv)) d acc
  = acc ++ map (fun kv => (f (fst kv), snd kv)) d.
Proof.
  revert acc. induction d as [|[k v] d IH]; intros acc Hnd; cbn [fold_left map fst snd].
  - rewrite app_nil_r. reflexivity.
  - cbn [map fst] in Hnd.
    rewrite setitem_new.
    2:{ apply NoDup_remove_2 in Hnd. intros H. apply Hnd. apply in_or_app. left. exact H. }
    rewrite IH.
    + rewrite <- app_assoc. reflexivity.
    + rewrite map_app. cbn [map fst]. rewrite <- app_assoc. cbn [app].
      exact Hnd.
Qed.

Lemma setitem_keys (d : dict V) (k : string) (v : V) :
  map fst (setitem d k v) = if existsb (String.eqb k) (map fst d) then map fst d
                            else map fst d ++ [k].
Proof.
  induction d as [|[k' v'] d IH]; cbn [setitem map fst existsb app]; [reflexivity|].
  rewrite (String.eqb_sym k k').
  destruct (String.eqb k' k); cbn [map fst orb]; [reflexivity|].
  rewrite IH. destruct (existsb _ _); reflexivity.
Qed.

Lemma setitem_NoDup (d : dict V) (k : string) (v : V) :
  NoDup (map fst d) -> NoDup (map fst (setitem d k v)).
Proof.
  intros Hd. rewrite setitem_keys.
  destruct (existsb (String.eqb k) (map fst d)) eqn:He; [exact Hd|].
  apply NoDup_app; [exact Hd | constructor; [intros [] | constructor] |].
  intros x Hx [Hkx|[]]. subst x.
  assert (Ht : existsb (String.eqb k) (map fst d) = true).
  { apply existsb_exists. exists k. split; [exact Hx | apply String.eqb_refl]. }
  congruence.
Qed.

Lemma get_setitem (d : dict V) (k : string) (v : V) (name : string) :
  get (setitem d k v) name = if String.eqb k name then Some v else get d name.
Proof.
  induction d as [|[k' v'] d IH]; cbn [setitem get].
  - destruct (String.eqb k name); reflexivity.
  - destruct (String.eqb k' k) eqn:Hk; cbn [get].
    + apply String.eqb_eq in Hk. subst k'. destruct (String.eqb k name); reflexivity.
    + rewrite IH. destruct (String.eqb k' name) eqn:Hn; [|reflexivity].
      apply String.eqb_eq in Hn. subst k'. rewrite String.eqb_sym, Hk. reflexivity.
Qed.

Lemma setitem_length (d : dict V) (k : string) (v : V) :
  (length d <= length (setitem d k v) <= S (length d))%nat.
Proof.
  induction d as [|[k' v'] d IH]; cbn [setitem length]; [lia|].
  destruct (String.eqb k' k); cbn [length]; lia.
Qed.

Lemma fold_setitem_spec (f : string -> string) (d : dict V) :
  forall acc,
    NoDup (map fst acc) ->
    let r := fold_left (fun nd kv => setitem nd (f (fst kv)) (snd kv)) d acc in
    NoDup (map fst r) /\
    (length r <= length acc + length d)%nat /\
    forall name, get r name = match StateDict.last_value f d name with
                              | Some v => Some v
                              | None => get acc name
                              end.
Proof.
  induction d as [|[k v] d IH]; intros acc Hacc; cbn [fold_left fst snd].
  - cbn [StateDict.last_value length]. split; [exact Hacc|]. split; [lia | reflexivity].
  - specialize (IH (setitem acc (f k) v) (setitem_NoDup acc (f k) v Hacc)).
    cbv zeta in IH |- *. destruct IH as (Hnd & Hlen & Hget).
    split; [exact Hnd|]. split.
    + pose proof (setitem_length acc (f k) v). cbn [length]. lia.
    + intros name. rewrite Hget. cbn [StateDict.last_value].
      destruct (StateDict.last_value f d name); [reflexivity|].
      rewrite get_setitem. destruct (String.eqb (f k) name); reflexivity.
Qed.

End DictFacts.

Section StateDictFacts.
Import Py StateDict.
Variable tensor : Type.

Lemma rename_0 (k : string) : rename 0 k = k.
Proof. unfold rename, slice_from. cbn [skipn]. apply join_split_dot. Qed.

Lemma rename_1_wrapped (k : string) : rename 1 (wrapped k) = k.
Proof.
  unfold rename, slice_from. rewrite split_dot_wrapped. cbn [skipn].
  apply join_split_dot.
Qed.

(** X16: a state dictionary whose first key does not start with
    ["module"] is copied as it is: same keys, same values, same order. *)
Theorem copyStateDict_plain (state_dict : dict tensor) (k0 : string) (v0 : tensor)
        (rest : dict tensor) :
  state_dict = (k0, v0) :: rest ->
  startswith k0 "module" = false ->
  NoDup (map fst state_dict) ->
  copyStateDict tensor state_dict = Ok state_dict.
Proof.
  intros -> Hk0 Hnd. unfold copyStateDict. rewrite Hk0. f_equal.
  rewrite (fold_setitem_distinct (rename 0)).
  - cbn [app]. rewrite <- (map_id ((k0, v0) :: rest)) at 2.
    apply map_ext. intros [k v]. cbn [fst snd]. rewrite rename_0. reflexivity.
  - rewrite (map_ext (fun kv : string * tensor => rename 0 (fst kv)) fst); [exact Hnd|].
    intros [k v]. cbn [fst]. apply rename_0.
Qed.

(** X17: the keys a [DataParallel] wrapper has prefixed with
    ["module."] lose the prefix, and nothing else changes: copying the
    wrapped dictionary gives the plain one back. *)
Theorem copyStateDict_unwraps (plain : dict tensor) :
  plain <> [] ->
  NoDup (map fst plain) ->
  copyStateDict tensor (map (fun kv => (wrapped (fst kv), snd kv)) plain) = Ok plain.
Proof.
  intros Hne Hnd. destruct plain as [|[k0 v0] rest]; [contradiction|].
  unfold copyStateDict. cbn [map fst snd]. rewrite startswith_wrapped. f_equal.
  change ((wrapped k0, v0) :: map (fun kv => (wrapped (fst kv), snd kv)) rest)
    with (map (fun kv : string * tensor => (wrapped (fst kv), snd kv)) ((k0, v0) :: rest)).
  rewrite (fold_setitem_distinct (rename 1)).
  - cbn [app]. rewrite map_map. rewrite <- (map_id ((k0, v0) :: rest)) at 2.
    apply map_ext. intros [k v]. cbn [fst snd]. rewrite rename_1_wrapped. reflexivity.
  - rewrite map_map.
    rewrite (map_ext (fun kv : string * tensor => rename 1 (fst (wrapped (fst kv), snd kv)))
                     fst); [exact Hnd|].
    intros [k v]. cbn [fst]. apply rename_1_wrapped.
Qed.

(** X18: in general the copy is a dictionary again (no key twice) with
    at most as many items; whether the first dot-separated piece of the
    keys is dropped is decided by the first key alone and applies to every
    key; and when two keys get the same new name, the value of the later
    one is kept. *)
Theorem copyStateDict_last_wins (state_dict new_state_dict : dict tensor) :
  copyStateDict tensor state_dict = Ok new_state_dict ->
  exists k0 v0 rest,
    state_dict = (k0, v0) :: rest /\
    let start_idx := if startswith k0 "module" then 1%nat else 0%nat in
    NoDup (map fst new_state_dict) /\
    (length new_state_dict <= length state_dict)%nat /\
    forall name,
      get new_state_dict name = last_value (rename start_idx) state_dict name.
Proof.
  unfold copyStateDict. destruct state_dict as [|[k0 v0] rest]; [discriminate|].
  intros H. injection H as <-. exists k0, v0, rest. split; [reflexivity|].
  cbv zeta.
  pose proof (fold_setitem_spec
                (rename (if startswith k0 "module" then 1%nat else 0%nat))
                ((k0, v0) :: rest) [] (NoDup_nil _)) as Hspec.
  cbv zeta in Hspec. destruct Hspec as (Hnd & Hlen & Hget).
  split; [exact Hnd|]. split; [exact Hlen|].
  intros name. rewrite Hget.
  destruct (last_value _ _ name); reflexivity.
Qed.

End StateDictFacts.

Section StateDictSamples.
Import Py StateDict.
Local Open Scope string_scope.

Lemma copyStateDict_plain_witness :
  copyStateDict Z [("conv.weight", 1); ("conv.bias", 2)]
  = Ok [("conv.weight", 1); ("conv.bias", 2)].
Proof.
  apply (copyStateDict_plain Z [("conv.weight", 1); ("conv.bias", 2)]
           "conv.weight" 1 [("conv.bias", 2)]).
  - reflexivity.
  - reflexivity.
  - cbn [map fst]. constructor; [intros [H|[]]; discriminate H|].
    constructor; [intros []|]. constructor.
Defined.

Lemma copyStateDict_unwraps_witness :
  copyStateDict Z (map (fun kv => (wrapped (fst kv), snd kv))
                       [("basenet.slice1.0.weight", 1); ("basenet.slice1.0.bias", 2)])
  = Ok [("basenet.slice1.0.weight", 1); ("basenet.slice1.0.bias", 2)].
Proof.
  apply (copyStateDict_unwraps Z
           [("basenet.slice1.0.weight", 1); ("basenet.slice1.0.bias", 2)]).
  - discriminate.
  - cbn [map fst]. constructor; [intros [H|[]]; discriminate H|].
    constructor; [intros []|]. constructor.
Defined.

Lemma copyStateDict_last_wins_witness :
  exists k0 v0 rest,
    [("module.a", 1); ("x.a", 2)] = (k0, v0) :: rest /\
    let start_idx := if startswith k0 "module" then 1%nat else 0%nat in
    NoDup (map fst [("a", 2)]) /\
    (length [("a", 2)] <= length [("module.a", 1); ("x.a", 2)])%nat /\
    forall name,
      get [("a", 2)] name = last_value (rename start_idx) [("module.a", 1); ("x.a", 2)] name.
Proof.
  apply (copyStateDict_last_wins Z [("module.a", 1); ("x.a", 2)] [("a", 2)]).
  reflexivity.
Defined.

End StateDictSamples.

(* ================================================================= *)
(** ** [Detector.detect]: one list of boxes per image *)

Section DetectFacts.
Import Float Geometry Detection.
Local Open Scope result_scope.
Context {V : Vision}.
Variable read : string -> result (image Z).
Variable predict :
  list (image spec_float) -> result (list (matrix (spec_float * spec_float))).





End DetectFacts.


(* ================================================================= *)
(** ** [drawBoxes]: the drawing goes to a copy *)

Section DrawFacts.
Import Heap Draw.
Context {D : Drawing}.
Variable color : rgb Z.
Variable thickness : Z.

Lemma draw_loop_here (s : store) (boxes : list (list qpoint)) :
  forall a : ndarray,
    draw_loop color thickness (length s) boxes (s ++ [a])
    = (Ok tt,
       s ++ [fold_left (fun c box => polylines c (pts box) true color thickness) boxes a]).
Proof.
  induction boxes as [|box boxes IH]; intros a; cbn [draw_loop fold_left].
  - reflexivity.
  - unfold mbind, load. rewrite nth_error_app_here.
    unfold store_at. rewrite update_nth_app_here. apply IH.
Qed.

(** X20: [drawBoxes] draws on a copy: the array it is given holds what
    it held, as does every other array; the array it returns is a new one,
    holding the image with the polygons drawn one after the other in the
    order of [boxes] -- an exact copy when there is no box. *)
Theorem drawBoxes_fresh_canvas (s : store) (image : loc) (a : ndarray)
        (boxes : list (list qpoint)) :
  nth_error s image = Some a ->
  drawBoxes color thickness image boxes s
  = (Ok (length s),
     s ++ [fold_left (fun c box => polylines c (pts box) true color thickness) boxes a])
  /\ image <> length s.
Proof.
  intros Ha. split.
  - unfold drawBoxes, copy.
    unfold mbind at 1. unfold mbind at 1. unfold load at 1. rewrite Ha.
    unfold alloc at 1. unfold mbind at 1. rewrite draw_loop_here. reflexivity.
  - intros ->. assert (H : nth_error s (length s) <> None) by congruence.
    apply nth_error_Some in H. lia.
Qed.

End DrawFacts.

Lemma drawBoxes_fresh_canvas_witness :
  Draw.drawBoxes (D := reference_drawing) Draw.default_color Draw.default_thickness 0%nat
                 [[(2%Q, 0%Q); (20%Q, 0%Q); (20%Q, 14%Q); (2%Q, 14%Q)]]
                 [Heap.U8Image Normalise.sample_image]
  = (Ok (length [Heap.U8Image Normalise.sample_image]),
     [Heap.U8Image Normalise.sample_image]
       ++ [fold_left (fun c box =>
                        polylines c (Draw.pts box) true Draw.default_color
                                  Draw.default_thickness)
                     [[(2%Q, 0%Q); (20%Q, 0%Q); (20%Q, 14%Q); (2%Q, 14%Q)]]
                     (Heap.U8Image Normalise.sample_image)])
  /\ 0%nat <> length [Heap.U8Image Normalise.sample_image].
Proof.
  apply (drawBoxes_fresh_canvas (D := reference_drawing)
           Draw.default_color Draw.default_thickness
           [Heap.U8Image Normalise.sample_image] 0%nat
           (Heap.U8Image Normalise.sample_image)
           [[(2%Q, 0%Q); (20%Q, 0%Q); (20%Q, 14%Q); (2%Q, 14%Q)]]).
  reflexivity.
Defined.

(* ================================================================= *)
(** ** [map_to_rgb]: no wrap-around on maps in [0, 1] *)

Section ColourFacts.
Import Float FloatRange Colour.

Lemma fexp64_small (x : Z) : x <= 10 -> fexp prec64 emax64 x <= 0.
Proof. unfold fexp, emin, prec64, emax64. lia. Qed.

(** Rounding to binary64 keeps a value of [0, K] in [0, K], for an
    integer [K] of at most 9 bits. *)
Lemma binary_round_aux_within (K m e : Z) (l : location) :
  0 < K <= 256 -> e <= 0 ->
  at_most (K * 2 ^ (- e)) (shr_record_of_loc m l) ->
  within K (binary_round_aux prec64 emax64 false m e l).
Proof.
  intros HK He Hm. unfold binary_round_aux, shr_fexp.
  assert (Hbits : forall x n, 0 <= n -> 0 <= x <= K * 2 ^ n -> Zdigits2 x <= n + 9).
  { intros x n Hn [Hx0 Hx]. replace (n + 9) with (n + 8 + 1) by lia.
    apply (Zdigits2_le x (n + 8)); [lia|].
    split; [exact Hx0|]. rewrite Z.pow_add_r by lia. change (2 ^ 8) with 256.
    assert (0 < 2 ^ n) by (apply Z.pow_pos_nonneg; lia). nia. }
  set (k1 := fexp prec64 emax64 (Zdigits2 m + e) - e).
  assert (Hm0 : 0 <= m <= K * 2 ^ (- e)).
  { destruct Hm as [Hm _]. rewrite shr_record_of_loc_m in Hm. exact Hm. }
  assert (Hd1 : Zdigits2 m + e <= 10).
  { pose proof (Hbits m (- e) ltac:(lia) Hm0). lia. }
  pose proof (fexp64_small _ Hd1) as Hf1.
  pose proof (shr_exponent (shr_record_of_loc m l) e k1) as He1.
  assert (H1 : at_most (K * 2 ^ (- (e + Z.max 0 k1)))
                       (fst (shr (shr_record_of_loc m l) e k1))).
  { apply shr_at_most.
    replace (2 ^ Z.max 0 k1 * (K * 2 ^ (- (e + Z.max 0 k1)))) with (K * 2 ^ (- e));
      [exact Hm|].
    rewrite Z.mul_assoc, (Z.mul_comm _ K), <- Z.mul_assoc.
    rewrite <- Z.pow_add_r by (unfold k1; lia).
    replace (Z.max 0 k1 + - (e + Z.max 0 k1)) with (- e) by lia. reflexivity. }
  destruct (shr (shr_record_of_loc m l) e k1) as [mrs1 e1].
  cbn [fst snd] in *. subst e1.
  set (e1 := e + Z.max 0 k1) in *.
  assert (He1 : e1 <= 0) by (unfold e1, k1; lia).
  destruct (round_nearest_even_bounds mrs1 (proj1 (proj1 H1))) as [H2 H2'].
  specialize (H2' _ H1).
  set (m2 := round_nearest_even (shr_m mrs1) (loc_of_shr_record mrs1)) in *.
  set (k2 := fexp prec64 emax64 (Zdigits2 m2 + e1) - e1).
  assert (Hd2 : Zdigits2 m2 + e1 <= 10).
  { pose proof (Hbits m2 (- e1) ltac:(lia) (conj H2 H2')). lia. }
  pose proof (fexp64_small _ Hd2) as Hf2.
  pose proof (shr_exponent (shr_record_of_loc m2 loc_Exact) e1 k2) as He3.
  assert (H3 : at_most (K * 2 ^ (- (e1 + Z.max 0 k2)))
                       (fst (shr (shr_record_of_loc m2 loc_Exact) e1 k2))).
  { apply shr_at_most.
    replace (2 ^ Z.max 0 k2 * (K * 2 ^ (- (e1 + Z.max 0 k2)))) with (K * 2 ^ (- e1)).
    - unfold at_most, inexact. cbn [shr_record_of_loc shr_m shr_r shr_s orb].
      split; [lia | discriminate].
    - rewrite Z.mul_assoc, (Z.mul_comm _ K), <- Z.mul_assoc.
      rewrite <- Z.pow_add_r by (unfold k2; lia).
      replace (Z.max 0 k2 + - (e1 + Z.max 0 k2)) with (- e1) by lia. reflexivity. }
  destruct (shr (shr_record_of_loc m2 loc_Exact) e1 k2) as [mrs3 e3].
  cbn [fst snd] in *. subst e3.
  assert (He3 : e1 + Z.max 0 k2 <= 0) by (unfold k2; lia).
  destruct H3 as [[H3 H3'] _].
  destruct (shr_m mrs3) as [|p|p]; [left; exists false; reflexivity | | lia].
  replace (e1 + Z.max 0 k2 <=? emax64 - prec64) with true
    by (symmetry; apply Z.leb_le; unfold emax64, prec64; lia).
  right. exists p, (e1 + Z.max 0 k2). split; [reflexivity | split; assumption].
Qed.

Lemma iter_xO_pow2 (m d : positive) : Zpos (Pos.iter xO m d) = Zpos m * 2 ^ Zpos d.
Proof.
  induction d as [|d IH] using Pos.peano_ind.
  - cbn [Pos.iter]. lia.
  - rewrite Pos.iter_succ, Pos2Z.inj_xO, IH, Pos2Z.inj_succ, Z.pow_succ_r by lia. ring.
Qed.

(** Widening to binary64 keeps a value of [0, 1] in [0, 1]. *)
Lemma to_f64_within (x : spec_float) : within 1 x -> within 1 (to_f64 x).
Proof.
  intros [[s ->] | (m & e & -> & He & Hm)]; [left; exists s; reflexivity|].
  cbn [to_f64]. unfold binary_round, shl_align.
  set (e' := fexp prec64 emax64 (Zpos (digits2_pos m) + e)).
  destruct (e' - e) as [|d|d] eqn:Hd.
  - apply binary_round_aux_within; [lia | exact He|].
    unfold at_most, inexact. cbn [shr_record_of_loc shr_m shr_r shr_s orb].
    split; [lia | discriminate].
  - apply binary_round_aux_within; [lia | exact He|].
    unfold at_most, inexact. cbn [shr_record_of_loc shr_m shr_r shr_s orb].
    split; [lia | discriminate].
  - assert (He' : e' = e - Zpos d) by lia.
    apply binary_round_aux_within; [lia | lia|].
    unfold at_most, inexact. cbn [shr_record_of_loc shr_m shr_r shr_s orb].
    split; [|discriminate].
    rewrite iter_xO_pow2, He'.
    replace (- (e - Zpos d)) with (- e + Zpos d) by lia.
    rewrite Z.pow_add_r by lia.
    assert (0 < 2 ^ Zpos d) by (apply Z.pow_pos_nonneg; lia). nia.
Qed.

(** The product by 255 of a value of [0, 1] is a value of [0, 255]. *)
Lemma mul64_255_within (x : spec_float) :
  within 1 x -> within 255 (mul64 x (of_Z64 255)).
Proof.
  assert (H255 : of_Z64 255 = S754_finite false 8972014882652160 (-45))
    by (vm_compute; reflexivity).
  rewrite H255.
  intros [[s ->] | (m & e & -> & He & Hm)].
  - left. exists (xorb s false). reflexivity.
  - unfold mul64, SFmul. cbn [xorb].
    apply binary_round_aux_within; [lia | lia|].
    unfold at_most, inexact. cbn [shr_record_of_loc shr_m shr_r shr_s orb].
    split; [|discriminate].
    rewrite Pos2Z.inj_mul.
    replace (- (e + -45)) with (- e + 45) by lia.
    rewrite Z.pow_add_r by lia.
    change (2 ^ 45) with 35184372088832.
    change (Zpos 8972014882652160) with (255 * 35184372088832).
    assert (0 < 2 ^ (- e)) by (apply Z.pow_pos_nonneg; lia).
    clear H255. nia.
Qed.

Lemma trunc_within (K : Z) (x : spec_float) : 0 <= K -> within K x -> 0 <= trunc x <= K.
Proof.
  intros HK [[s ->] | (m & e & -> & He & Hm)]; cbn [trunc]; [lia|].
  destruct e as [|p|p]; [cbn in Hm; lia | lia |].
  change (- Zneg p) with (Zpos p) in Hm.
  assert (Hpos : 0 < 2 ^ Zpos p) by (apply Z.pow_pos_nonneg; lia).
  split; [apply Z.div_pos; lia|].
  apply Z.div_le_upper_bound; [exact Hpos | lia].
Qed.

(** A finite value that denotes a number of [0, 1] has an exponent of
    at most 0 and a mantissa of at most [2^(-e)]. *)
Lemma in_unit_interval_within (x : spec_float) : in_unit_interval x -> within 1 x.
Proof.
  unfold in_unit_interval.
  destruct x as [s|s| |s m e]; cbn [is_finite value]; intros [Hfin [Hlo Hhi]];
    try discriminate Hfin; [left; exists s; reflexivity|].
  assert (Hpow : (0 < Qpower 2 e)%Q) by (apply Qpower_0_lt; reflexivity).
  assert (Hm : (0 < inject_Z (Zpos m))%Q).
  { change 0%Q with (inject_Z 0). rewrite <- Zlt_Qlt. lia. }
  pose proof (Qmult_lt_0_compat _ _ Hm Hpow) as Hv.
  destruct s.
  { exfalso. apply (Qlt_irrefl 0%Q).
    eapply Qlt_le_trans; [exact Hv|].
    apply (Qopp_le_compat 0%Q) in Hlo. rewrite Qopp_involutive in Hlo.
    exact Hlo. }
  right. exists m, e. split; [reflexivity|].
  destruct (Z.le_gt_cases e 0) as [He|He].
  - split; [exact He|]. rewrite Z.mul_1_l.
    rewrite (Qpower2_nonpos e He) in Hhi.
    assert (Hden : (0 < inject_Z (2 ^ (- e)))%Q).
    { change 0%Q with (inject_Z 0). rewrite <- Zlt_Qlt. apply Z.pow_pos_nonneg; lia. }
    apply (Qmult_le_r _ _ _ Hden) in Hhi.
    rewrite <- Qmult_assoc, (Qmult_comm (/ _)), Qmult_inv_r, Qmult_1_r, Qmult_1_l in Hhi.
    + rewrite <- Zle_Qle in Hhi. exact Hhi.
    + intros H0. rewrite H0 in Hden. discriminate Hden.
  - exfalso.
    assert (Hp : (Qpower 2 e == inject_Z (2 ^ e))%Q)
      by (symmetry; apply (Zpower_Qpower 2 e); lia).
    rewrite Hp in Hhi.
    rewrite <- inject_Z_mult in Hhi.
    change 1%Q with (inject_Z 1) in Hhi. rewrite <- Zle_Qle in Hhi.
    assert (2 ^ 1 <= 2 ^ e) by (apply Z.pow_le_mono_r; lia).
    change (2 ^ 1) with 2 in *. nia.
Qed.

Lemma scaled_range (x : spec_float) : in_unit_interval x -> 0 <= scaled x <= 255.
Proof.
  intros Hx. unfold scaled. apply trunc_within; [lia|].
  apply mul64_255_within, to_f64_within, in_unit_interval_within, Hx.
Qed.

Lemma channel_scaled (x : spec_float) :
  in_unit_interval x -> channel (to_f64 x) = scaled x.
Proof.
  intros Hx. unfold channel, to_u8. fold (scaled x).
  apply Z.mod_small. pose proof (scaled_range x Hx). lia.
Qed.

(** X21: on a map whose values lie in [0, 1] -- such as [compute_maps]
    returns -- the conversion to 8 bits does not wrap around: the red and
    the green channel hold [255 * text] and [255 * link] truncated, a
    number from 0 to 255, and the blue channel is 0.  The image has the
    shape of the map. *)
Theorem map_to_rgb_no_wrap (y : matrix (spec_float * spec_float)) :
  matrix_all (fun tl => in_unit_interval (fst tl) /\ in_unit_interval (snd tl)) y ->
  map_to_rgb y = matrix_map (fun tl => (scaled (fst tl), scaled (snd tl), 0)) y /\
  matrix_all (fun tl => 0 <= scaled (fst tl) <= 255 /\ 0 <= scaled (snd tl) <= 255) y.
Proof.
  unfold matrix_all, map_to_rgb, matrix_map. intros Hy. split.
  - apply map_ext_in. intros row Hrow.
    rewrite Forall_forall in Hy. specialize (Hy row Hrow).
    apply map_ext_in. intros tl Htl.
    rewrite Forall_forall in Hy. destruct (Hy tl Htl) as [Ht Hl].
    rewrite (channel_scaled _ Ht), (channel_scaled _ Hl). reflexivity.
  - eapply Forall_impl; [|exact Hy]. intros row Hrow.
    eapply Forall_impl; [|exact Hrow]. intros tl [Ht Hl].
    split; apply scaled_range; assumption.
Qed.

End ColourFacts.

Lemma map_to_rgb_no_wrap_witness :
  Colour.map_to_rgb [[(Float.to_f32 (Float.literal64 5 10), Float.of_Z32 1)]]
  = matrix_map (fun tl => (Colour.scaled (fst tl), Colour.scaled (snd tl), 0))
               [[(Float.to_f32 (Float.literal64 5 10), Float.of_Z32 1)]] /\
  matrix_all (fun tl => 0 <= Colour.scaled (fst tl) <= 255 /\
                        0 <= Colour.scaled (snd tl) <= 255)
             [[(Float.to_f32 (Float.literal64 5 10), Float.of_Z32 1)]].
Proof.
  apply (map_to_rgb_no_wrap [[(Float.to_f32 (Float.literal64 5 10), Float.of_Z32 1)]]).
  repeat constructor; vm_compute; discriminate.
Defined.

(* ================================================================= *)
(** ** [load_torch_weights]: names, keys, and the skip branch *)

Section KeyFacts.
Import Py Weights.
Local Open Scope string_scope.

Lemma split_dot_app_dot (n s : string) :
  split_dot (n ++ String "." s) = (split_dot n ++ split_dot s)%list.
Proof.
  induction n as [|ch n IH]; cbn [String.append split_dot].
  - reflexivity.
  - destruct (Ascii.eqb ch "."); [rewrite IH; reflexivity|].
    rewrite IH. pose proof (split_dot_nonempty n) as Hne.
    destruct (split_dot n) as [|w ws]; [contradiction | reflexivity].
Qed.

Lemma split_dot_key (n s : string) :
  split_dot (key n s) = ("module" :: split_dot n ++ split_dot s)%list.
Proof.
  unfold key. change ("module." ++ n ++ "." ++ s) with (StateDict.wrapped (n ++ String "." s)).
  rewrite split_dot_wrapped, split_dot_app_dot. reflexivity.
Qed.

(** The name of the layer is read back from each of the keys that are
    looked up for it. *)
Lemma layer_name_of_key (n s : string) :
  split_dot s = [s] -> layer_name_of (key n s) = n.
Proof.
  intros Hs. unfold layer_name_of, slice_inner. rewrite split_dot_key, Hs.
  cbn [skipn]. rewrite removelast_last. apply join_split_dot.
Qed.

Lemma is_parameter_key (n s : string) :
  split_dot s = [s] -> String.eqb s "num_batches_tracked" = false ->
  is_parameter (key n s) = true.
Proof.
  intros Hs Hne. unfold is_parameter. rewrite split_dot_key, Hs.
  change ("module" :: split_dot n ++ [s])%list with (("module" :: split_dot n) ++ [s])%list.
  rewrite last_last, Hne. reflexivity.
Qed.

Lemma get_In_keys {V} (d : dict V) (k : string) (v : V) :
  get d k = Some v -> In k (map fst d).
Proof.
  induction d as [|[k' v'] d IH]; cbn [get map fst In]; [discriminate|].
  destruct (String.eqb k' k) eqn:Hk.
  - apply String.eqb_eq in Hk. intros _. left. exact Hk.
  - intros H. right. apply IH, H.
Qed.

(** X22: the names gone through are those of the layers the file has
    parameters for: a layer one of whose four keys
    [module.<name>.weight], [.bias], [.running_mean], [.running_var] is in
    the file is visited under exactly the name the keys were built from,
    in whatever order the set is enumerated. *)
Theorem layer_names_from_keys (tensor : Type) (pretrained : dict tensor)
        (layer_names : list string) (n suffix : string) (t : tensor) :
  enumerates layer_names (names pretrained) ->
  In suffix ["weight"; "bias"; "running_mean"; "running_var"] ->
  get pretrained (key n suffix) = Some t ->
  layer_name_of (key n suffix) = n /\ In n layer_names.
Proof.
  intros [_ Henum] Hsuffix Hget.
  assert (Hs : split_dot suffix = [suffix] /\
               String.eqb suffix "num_batches_tracked" = false).
  { destruct Hsuffix as [<-|[<-|[<-|[<-|[]]]]]; split; reflexivity. }
  destruct Hs as [Hs Hne].
  split; [exact (layer_name_of_key n suffix Hs)|].
  apply Henum. unfold names.
  rewrite <- (layer_name_of_key n suffix Hs).
  apply in_map, filter_In. split.
  - exact (get_In_keys pretrained _ t Hget).
  - exact (is_parameter_key n suffix Hs Hne).
Qed.

End KeyFacts.

Section LoaderFacts.
Import Py Weights.
Local Open Scope string_scope.
Variable tensor : Type.
Variable transpose : tensor -> option tensor.
Variable accepts : layer tensor -> list tensor -> bool.
Variable pretrained : dict tensor.

Lemma get_layer_Some (m : model tensor) (n : string) (l : layer tensor) :
  get_layer m n = Some l -> In l m /\ name l = n.
Proof.
  unfold get_layer. intros H. apply find_some in H as [Hin Hn].
  split; [exact Hin | apply String.eqb_eq, Hn].
Qed.

Lemma get_layer_None (m : model tensor) (n : string) :
  get_layer m n = None -> forall l, In l m -> name l <> n.
Proof.
  unfold get_layer. intros H l Hl Hn.
  pose proof (find_none _ _ H l Hl) as Hf. cbn beta in Hf.
  rewrite Hn, String.eqb_refl in Hf. discriminate.
Qed.

Lemma set_weights_names (m : model tensor) (n : string) (ws : list tensor) :
  map name (set_weights m n ws) = map name m.
Proof.
  induction m as [|l m IH]; cbn [set_weights map]; [reflexivity|].
  destruct (String.eqb (name l) n); cbn [map name]; [reflexivity|].
  rewrite IH. reflexivity.
Qed.

(** What a step that does not raise does to the layers, the variable
    and the output. *)
Lemma step_cases (st st' : state tensor) (n : string) :
  step transpose accepts pretrained st n = Returns st' ->
  (get_layer (layers st) n = None /\
   exists stale, layer_var st = Some stale /\
                 st' = {| layers := layers st;
                          layer_var := layer_var st;
                          printed := (printed st ++ [("Skipping " ++ stale)%string])%list |})
  \/
  (exists l ws,
      get_layer (layers st) n = Some l /\
      loaded transpose pretrained
             {| name := name l; layer_kind := layer_kind l; weights := ws |} /\
      st' = {| layers := set_weights (layers st) (name l) ws;
               layer_var := Some (name l);
               printed := printed st |}).
Proof.
  unfold step.
  destruct (get_layer (layers st) n) as [l|] eqn:Hl.
  - destruct (get_layer_Some _ _ _ Hl) as [Hin Hn].
    intros H. right.
    destruct (layer_kind l) eqn:Hk; [| |discriminate H].
    + unfold getitem in H.
      destruct (get pretrained (key n "weight")) as [gamma|] eqn:H1; cbn [and_then] in H;
        [|discriminate H].
      destruct (get pretrained (key n "bias")) as [beta|] eqn:H2; cbn [and_then] in H;
        [|discriminate H].
      destruct (get pretrained (key n "running_mean")) as [rm|] eqn:H3;
        cbn [and_then] in H; [|discriminate H].
      destruct (get pretrained (key n "running_var")) as [rv|] eqn:H4;
        cbn [and_then] in H; [|discriminate H].
      unfold assign in H. destruct (accepts l _); [|discriminate H].
      injection H as <-. exists l, [gamma; beta; rm; rv].
      split; [reflexivity|]. split; [|reflexivity].
      unfold loaded. cbn [layer_kind name weights]. rewrite Hk, Hn.
      exists gamma, beta, rm, rv. repeat split; assumption.
    + unfold getitem in H.
      destruct (get pretrained (key n "weight")) as [w|] eqn:H1; cbn [and_then] in H;
        [|discriminate H].
      destruct (get pretrained (key n "bias")) as [bias|] eqn:H2; cbn [and_then] in H;
        [|discriminate H].
      destruct (transpose w) as [w'|] eqn:Hw; [|discriminate H].
      unfold assign in H. destruct (accepts l _); [|discriminate H].
      injection H as <-. exists l, [w'; bias].
      split; [reflexivity|]. split; [|reflexivity].
      unfold loaded. cbn [layer_kind name weights]. rewrite Hk, Hn.
      exists w, bias, w'. repeat split; assumption.
  - intros H. left. split; [reflexivity|].
    destruct (layer_var st) as [stale|]; [|discriminate H].
    injection H as <-. exists stale. split; reflexivity.
Qed.

(** *** The skip branch *)

Lemma step_names_layers (m : model tensor) (st st' : state tensor) (n : string) :
  names_layers m st -> step transpose accepts pretrained st n = Returns st' ->
  names_layers m st'.
Proof.
  intros (Hnames & Hvar & Hout) Hstep.
  destruct (step_cases st st' n Hstep)
    as [(_ & stale & Hstale & ->) | (l & ws & Hl & _ & ->)];
    unfold names_layers; cbn [layers layer_var printed].
  - split; [exact Hnames|]. split; [exact Hvar|].
    apply Forall_app. split; [exact Hout|].
    constructor; [|constructor]. exists stale. split; [apply Hvar, Hstale | reflexivity].
  - rewrite set_weights_names. split; [exact Hnames|]. split; [|exact Hout].
    intros stale Hs. injection Hs as <-. rewrite <- Hnames.
    apply in_map. apply (get_layer_Some _ _ _ Hl).
Qed.

Lemma first_loop_names_layers (m : model tensor) (layer_names : list string) :
  forall st st',
    names_layers m st ->
    first_loop transpose accepts pretrained layer_names st = Returns st' ->
    names_layers m st'.
Proof.
  induction layer_names as [|n layer_names IH]; intros st st' Hst; cbn [first_loop].
  - intros H. injection H as <-. exact Hst.
  - destruct (step transpose accepts pretrained st n) as [st1|e] eqn:H1;
      cbn [and_then]; [|discriminate].
    apply IH. exact (step_names_layers m st st1 n Hst H1).
Qed.

(** X23: the branch meant to skip a name the model has no layer for
    never reports that name.  When it is the first name gone through, the
    variable [layer] is still unbound and the call ends with
    [UnboundLocalError] instead of skipping; later on, the line printed
    carries the name of the layer loaded last.  So every line a call that
    returns has printed names a layer the model does have. *)
Theorem load_torch_weights_skip_branch
        (layer_names : list string) (m : model tensor) :
  (forall n rest,
      layer_names = n :: rest -> get_layer m n = None ->
      load_torch_weights transpose accepts layer_names m pretrained
      = Raises UnboundLocalError) /\
  (forall m' out,
      load_torch_weights transpose accepts layer_names m pretrained = Returns (m', out) ->
      Forall (fun line => exists l, In l m /\ line = "Skipping " ++ name l) out).
Proof.
  split.
  - intros n rest -> Hn. unfold load_torch_weights. cbn [first_loop].
    unfold step at 1. cbn [layers layer_var]. rewrite Hn. reflexivity.
  - intros m' out. unfold load_torch_weights.
    destruct (first_loop _ _ _ _ _) as [st|e] eqn:Hloop; cbn [and_then]; [|discriminate].
    destruct (all_named _ _); [|discriminate].
    intros H. injection H as <- <-.
    assert (Hinit : names_layers m {| layers := m; layer_var := None; printed := [] |}).
    { split; [reflexivity|]. split; [discriminate | constructor]. }
    destruct (first_loop_names_layers m layer_names _ st Hinit Hloop) as (_ & _ & Hout).
    eapply Forall_impl; [|exact Hout].
    intros line (n & Hn & ->). apply in_map_iff in Hn as (l & <- & Hl).
    exists l. split; [exact Hl | reflexivity].
Qed.

(** *** The weights after a call that returns *)

Lemma progress_visit (visited : list string) (n : string) (l l' : layer tensor) :
  name l <> n ->
  progress transpose pretrained visited l l' ->
  progress transpose pretrained (n :: visited) l l'.
Proof.
  intros Hn (H1 & H2 & H3 & H4). split; [exact H1|]. split; [exact H2|]. split.
  - intros [H|H]; [congruence | exact (H3 H)].
  - intros H. apply H4. intros Hin. apply H. right. exact Hin.
Qed.

Lemma set_weights_progress (visited : list string) (n : string) (ws : list tensor)
      (lf : layer tensor) :
  loaded transpose pretrained
         {| name := name lf; layer_kind := layer_kind lf; weights := ws |} ->
  forall m cur : model tensor,
    NoDup (map name cur) ->
    Forall2 (progress transpose pretrained visited) m cur ->
    get_layer cur n = Some lf ->
    Forall2 (progress transpose pretrained (n :: visited)) m (set_weights cur n ws).
Proof.
  intros Hloaded m cur Hnd Hall. induction Hall as [|l l' m cur Hl Hall IH];
    cbn [get_layer find set_weights]; [discriminate|].
  cbn [map] in Hnd. apply NoDup_cons_iff in Hnd as [Hnotin Hnd].
  destruct (String.eqb (name l') n) eqn:Hn.
  - intros H. injection H as <-. apply String.eqb_eq in Hn.
    destruct Hl as (H1 & H2 & H3 & H4). constructor.
    + split; [exact H1|]. split; [exact H2|]. split.
      * intros _. exact Hloaded.
      * intros H. exfalso. apply H. left. congruence.
    + clear IH Hnd. induction Hall as [|k k' m cur Hk Hall IH]; constructor.
      * apply progress_visit; [|exact Hk].
        destruct Hk as (Hk1 & _). rewrite <- Hk1. intros Hkn.
        apply Hnotin. cbn [map]. left. congruence.
      * apply IH. intros Hin. apply Hnotin. cbn [map]. right. exact Hin.
  - intros Hfind. apply String.eqb_neq in Hn. constructor.
    + apply progress_visit; [|exact Hl]. destruct Hl as (H1 & _). congruence.
    + apply IH; [exact Hnd | exact Hfind].
Qed.

Lemma Forall2_progress_names (visited : list string) (m cur : model tensor) :
  Forall2 (progress transpose pretrained visited) m cur -> map name cur = map name m.
Proof.
  induction 1 as [|l l' m cur Hl Hall IH]; cbn [map]; [reflexivity|].
  destruct Hl as (H1 & _). rewrite H1, IH. reflexivity.
Qed.

Lemma step_progress (m : model tensor) (visited : list string)
      (st st' : state tensor) (n : string) :
  NoDup (map name m) ->
  Forall2 (progress transpose pretrained visited) m (layers st) ->
  step transpose accepts pretrained st n = Returns st' ->
  Forall2 (progress transpose pretrained (n :: visited)) m (layers st').
Proof.
  intros Hnd Hall Hstep.
  destruct (step_cases st st' n Hstep)
    as [(Hnone & stale & _ & ->) | (l & ws & Hl & Hloaded & ->)]; cbn [layers].
  - pose proof (get_layer_None _ _ Hnone) as Hno.
    clear Hstep Hnone. induction Hall as [|k k' m cur Hk Hall IH]; constructor.
    + apply progress_visit; [|exact Hk]. destruct Hk as (Hk1 & _). rewrite <- Hk1.
      apply Hno. left. reflexivity.
    + cbn [map] in Hnd. apply NoDup_cons_iff in Hnd as [_ Hnd].
      apply IH; [exact Hnd|]. intros x Hx. apply Hno. right. exact Hx.
  - destruct (get_layer_Some _ _ _ Hl) as [_ Hn]. rewrite Hn.
    apply (set_weights_progress visited n ws l Hloaded); [|exact Hall | exact Hl].
    rewrite (Forall2_progress_names visited m (layers st) Hall). exact Hnd.
Qed.

Lemma first_loop_progress (m : model tensor) (layer_names : list string) :
  NoDup (map name m) ->
  forall visited st st',
    Forall2 (progress transpose pretrained visited) m (layers st) ->
    first_loop transpose accepts pretrained layer_names st = Returns st' ->
    Forall2 (progress transpose pretrained (rev layer_names ++ visited)) m (layers st').
Proof.
  intros Hnd. induction layer_names as [|n layer_names IH]; intros visited st st' Hst;
    cbn [first_loop rev app].
  - intros H. injection H as <-. exact Hst.
  - destruct (step transpose accepts pretrained st n) as [st1|e] eqn:H1;
      cbn [and_then]; [|discriminate].
    intros H. rewrite <- app_assoc. cbn [app].
    apply (IH (n :: visited) st1 st'); [|exact H].
    exact (step_progress m visited st st1 n Hnd Hst H1).
Qed.

Lemma progress_complete (layer_names : list string) (m cur : model tensor) :
  Forall2 (progress transpose pretrained (rev layer_names)) m cur ->
  (forall l', In l' cur ->
              match layer_kind l' with
              | Other => true
              | _ => existsb (String.eqb (name l')) layer_names
              end = true) ->
  Forall2 (fun l l' =>
             name l' = name l /\ layer_kind l' = layer_kind l /\
             match layer_kind l with
             | Other => weights l' = weights l
             | _ => loaded transpose pretrained l'
             end) m cur.
Proof.
  induction 1 as [|l l' m cur Hl Hall IH]; intros Hnamed; constructor.
  - destruct Hl as (H1 & H2 & H3 & H4). split; [exact H1|]. split; [exact H2|].
    specialize (Hnamed l' (or_introl eq_refl)). rewrite H2 in Hnamed.
    assert (Hvisited : layer_kind l <> Other -> In (name l) (rev layer_names)).
    { intros Hk. rewrite <- in_rev.
      destruct (layer_kind l); try contradiction;
        apply existsb_exists in Hnamed as (x & Hx & Hxe);
        apply String.eqb_eq in Hxe; congruence. }
    destruct (layer_kind l) eqn:Hk.
    + apply H3, Hvisited. discriminate.
    + apply H3, Hvisited. discriminate.
    + apply H4. intros Hin. specialize (H3 Hin).
      unfold loaded in H3. rewrite H2 in H3. exact H3.
  - apply IH. intros x Hx. apply Hnamed. right. exact Hx.
Qed.

(** X24: in a model whose layers have different names, a call that
    returns has left every layer its name and kind, has given every
    convolution the transposed [weight] and the [bias] the file holds under
    its name, every batch normalisation its four arrays, and has not
    touched the weights of any other layer. *)
Theorem load_torch_weights_loads
        (layer_names : list string) (m m' : model tensor) (out : list string) :
  NoDup (map name m) ->
  load_torch_weights transpose accepts layer_names m pretrained = Returns (m', out) ->
  Forall2 (fun l l' =>
             name l' = name l /\ layer_kind l' = layer_kind l /\
             match layer_kind l with
             | Other => weights l' = weights l
             | _ => loaded transpose pretrained l'
             end) m m'.
Proof.
  intros Hnd. unfold load_torch_weights.
  destruct (first_loop _ _ _ _ _) as [st|e] eqn:Hloop; cbn [and_then]; [|discriminate].
  destruct (all_named (layers st) layer_names) eqn:Hnamed; [|discriminate].
  intros H. injection H as <- <-.
  assert (Hinit : Forall2 (progress transpose pretrained [])
                          m (layers {| layers := m; layer_var := None; printed := [] |})).
  { cbn [layers]. clear. induction m as [|l m IH]; constructor; [|exact IH].
    split; [reflexivity|]. split; [reflexivity|]. split; [intros []|reflexivity]. }
  pose proof (first_loop_progress m layer_names Hnd [] _ st Hinit Hloop) as Hall.
  rewrite app_nil_r in Hall.
  apply (progress_complete layer_names m (layers st) Hall).
  unfold all_named in Hnamed. rewrite forallb_forall in Hnamed. exact Hnamed.
Qed.

End LoaderFacts.

Section LoaderSamples.
Import Py Weights WeightsSample.
Local Open Scope string_scope.

Lemma layer_names_from_keys_witness :
  layer_name_of (key "bn" "running_var") = "bn" /\ In "bn" ["conv"; "bn"].
Proof.
  apply (layer_names_from_keys Z sample_pretrained ["conv"; "bn"] "bn" "running_var" 6).
  - split.
    + constructor; [intros [H|[]]; discriminate H|].
      constructor; [intros []|]. constructor.
    + intros n. vm_compute. tauto.
  - cbn [In]. tauto.
  - reflexivity.
Defined.

Lemma load_torch_weights_skip_branch_witness :
  load_torch_weights sample_transpose sample_accepts ["dense"; "conv"; "bn"]
                     sample_model sample_pretrained
  = Raises UnboundLocalError /\
  load_torch_weights sample_transpose sample_accepts ["conv"; "dense"; "bn"]
                     sample_model sample_pretrained
  = Returns ([ {| name := "conv"; layer_kind := Conv2D; weights := [101; 2] |};
               {| name := "relu"; layer_kind := Other; weights := [] |};
               {| name := "bn"; layer_kind := BatchNormalization;
                  weights := [3; 4; 5; 6] |} ],
             ["Skipping conv"]).
Proof.
  split.
  - apply (proj1 (load_torch_weights_skip_branch Z sample_transpose sample_accepts
                    sample_pretrained ["dense"; "conv"; "bn"] sample_model)
                 "dense" ["conv"; "bn"]); reflexivity.
  - vm_compute. reflexivity.
Defined.

Lemma load_torch_weights_loads_witness :
  Forall2 (fun l l' =>
             name l' = name l /\ layer_kind l' = layer_kind l /\
             match layer_kind l with
             | Other => weights l' = weights l
             | _ => loaded sample_transpose sample_pretrained l'
             end)
          sample_model
          [ {| name := "conv"; layer_kind := Conv2D; weights := [101; 2] |};
            {| name := "relu"; layer_kind := Other; weights := [] |};
            {| name := "bn"; layer_kind := BatchNormalization; weights := [3; 4; 5; 6] |} ].
Proof.
  apply (load_torch_weights_loads Z sample_transpose sample_accepts sample_pretrained
           ["bn"; "conv"] sample_model _ []).
  - cbn [map name sample_model].
    constructor; [intros [H|[H|[]]]; discriminate H|].
    constructor; [intros [H|[]]; discriminate H|].
    constructor; [intros []|]. constructor.
  - vm_compute. reflexivity.
Defined.

End LoaderSamples.

(* ================================================================= *)
(** ** Normalising and denormalising in sequence *)

Section RoundTripFacts.
Import Float Normalise RoundTrip.

(** In the red channel every value from 5 to 59 comes back lowered
    by 1. *)
Lemma red_step (v : Z) :
  5 <= v <= 59 ->
  roundtrip_channel (fst (fst mean255)) (fst (fst variance255)) v = v - 1.
Proof.
  intros Hv.
  assert (Hall : forall v, valid_u8 v ->
                           negb ((5 <=? v) && (v <=? 59))
                           || (roundtrip_channel (fst (fst mean255))
                                                 (fst (fst variance255)) v =? v - 1)
                           = true).
  { apply (forall_u8
             (fun v => negb ((5 <=? v) && (v <=? 59))
                       || (roundtrip_channel (fst (fst mean255))
                                             (fst (fst variance255)) v =? v - 1))).
    vm_compute. reflexivity. }
  pose proof (Hall v ltac:(unfold valid_u8; lia)) as H.
  apply orb_true_iff in H as [H|H].
  - assert (Hrange : (5 <=? v) && (v <=? 59) = true)
      by (apply andb_true_iff; split; apply Z.leb_le; lia).
    rewrite Hrange in H. discriminate H.
  - apply Z.eqb_eq. exact H.
Qed.

Lemma zero_fixed :
  roundtrip_channel (snd (fst mean255)) (snd (fst variance255)) 0 = 0 /\
  roundtrip_channel (snd mean255) (snd variance255) 0 = 0.
Proof. split; vm_compute; reflexivity. Qed.

Lemma roundtrip_red_pixel (v : Z) :
  5 <= v <= 59 -> roundtrip [[(v, 0, 0)]] = [[(v - 1, 0, 0)]].
Proof.
  intros Hv. unfold roundtrip, invert_input, compute_input, image_map.
  cbn [map]. rewrite roundtrip_px_channels, (red_step v Hv).
  destruct zero_fixed as [-> ->]. reflexivity.
Qed.

(** X28: the loss of the round trip adds up when the round trip is
    repeated: a red value of at most 59 goes down by exactly 1 with each
    pass, until it has reached 4 -- after 55 passes 59 has become 4. *)
Theorem roundtrip_red_drift (v : Z) (n : nat) :
  4 <= v - Z.of_nat n -> v <= 59 ->
  Nat.iter n roundtrip [[(v, 0, 0)]] = [[(v - Z.of_nat n, 0, 0)]].
Proof.
  intros Hlo Hhi. induction n as [|n IH].
  - cbn [Nat.iter nat_rect]. replace (v - Z.of_nat 0) with v by lia. reflexivity.
  - rewrite Nat.iter_succ, IH by lia.
    rewrite roundtrip_red_pixel by lia.
    replace (v - Z.of_nat n - 1) with (v - Z.of_nat (S n)) by lia. reflexivity.
Qed.

Lemma roundtrip_red_drift_witness :
  Nat.iter 55 roundtrip [[(59, 0, 0)]] = [[(59 - Z.of_nat 55, 0, 0)]].
Proof.
  apply (roundtrip_red_drift 59 55); lia.
Defined.

End RoundTripFacts.

Section RoundTripStore.
Import Heap RoundTrip.

(** X26: [compute_input] followed by [invert_input], on the store: the
    image given stays, three arrays are added -- the normalised image, the
    working copy [invert_input] makes of it, and the 8-bit result, which
    is returned -- and the normalised image still holds what
    [compute_input] returned: the multiplication and the addition of
    [invert_input] happen in the copy. *)
Theorem roundtrip_on_store (s : store) (arg : loc) (im : image Z) :
  nth_error s arg = Some (U8Image im) ->
  exists work,
    roundtrip_store arg s
    = (Ok (length s + 2)%nat,
       s ++ [F32Image (Normalise.compute_input im);
             F32Image work;
             U8Image (roundtrip im)]).
Proof.
  intros Harg. unfold roundtrip_store, mbind.
  rewrite (heap_compute_input s arg im Harg).
  destruct (heap_invert_input (s ++ [F32Image (Normalise.compute_input im)])
                              (length s) (Normalise.compute_input im)
                              (nth_error_app_here s [] _)) as (work & Hinv).
  rewrite Hinv. exists work. f_equal.
  - rewrite length_app. cbn [length]. f_equal. lia.
  - rewrite <- app_assoc. reflexivity.
Qed.

End RoundTripStore.

Lemma roundtrip_on_store_witness :
  exists work,
    RoundTrip.roundtrip_store 0%nat [Heap.U8Image Normalise.sample_image]
    = (Ok (length [Heap.U8Image Normalise.sample_image] + 2)%nat,
       [Heap.U8Image Normalise.sample_image]
         ++ [Heap.F32Image (Normalise.compute_input Normalise.sample_image);
             Heap.F32Image work;
             Heap.U8Image (RoundTrip.roundtrip Normalise.sample_image)]).
Proof.
  apply (roundtrip_on_store [Heap.U8Image Normalise.sample_image] 0%nat
                            Normalise.sample_image).
  reflexivity.
Defined.
